(** * intentions: semantic retrieval core

    A shallow embedding of the retrieval core of the [intentions] repository:

    - [packages/client/src/client.ts]: [chunkBySentences], [tokenize],
      [cosineSimilarity], [searchItems], [searchInText];
    - [packages/react/src/hooks/useSearch.ts]: [computeHighlightedSegments]
      and the [useSearch] controller;
    - [packages/react/src/hooks/useSelect.ts] (in this tree inside
      [hooks/useComplete.ts]): the [useSelect] controller.

    Modelling conventions.

    - A JavaScript string is a list of code units; the code units are the
      256 characters of [ascii] (the Latin-1 range).  Character classes
      ([\w], [\s], the sentence terminators) and [toLowerCase] are the
      JavaScript ones restricted to that range.
    - A JavaScript [number] holding a score or a vector component is read
      in two ways.  In the module [Binary64] it is what the source computes
      with: a binary64 floating-point number, with the rounding, the
      infinities, the signed zeros and the [NaN] of the format; what is
      stated on the size and on the order of the scores is stated there.
      Outside that module it is a real number ([R]); these definitions
      carry what does not depend on rounding: which items and chunks are
      returned, in which cases a function fails, and the credits of the
      lexical rule.  Offsets and lengths are natural numbers or integers,
      and the [maxResults] bound is an integer ([Z]).
    - A promise is modelled by its outcome ([Completion]); the only point
      where the code suspends is the call to the embedding collaborator. *)

From Stdlib Require Import Ascii String.
From Stdlib Require Import List Bool Arith ZArith Lia.
From Stdlib Require Import Reals Lra Permutation Sorted.
From Stdlib Require Floats.
Import ListNotations.

Set Implicit Arguments.

(** ** JavaScript strings *)

Definition str := list ascii.

Definition lit (s : string) : str := list_ascii_of_string s.

Definition code (c : ascii) : nat := nat_of_ascii c.

Definition str_eqb (a b : str) : bool :=
  if list_eq_dec ascii_dec a b then true else false.

(** [WhiteSpace] and [LineTerminator] code points below 256: what [\s]
    matches and what [trim] strips. *)
Definition isSpace (c : ascii) : bool :=
  let n := code c in
  ((9 <=? n) && (n <=? 13)) || (n =? 32) || (n =? 160).

(** [\w] is [[A-Za-z0-9_]]. *)
Definition isWordChar (c : ascii) : bool :=
  let n := code c in
  ((65 <=? n) && (n <=? 90)) || ((97 <=? n) && (n <=? 122))
  || ((48 <=? n) && (n <=? 57)) || (n =? 95).

(** Sentence terminators, the class [[.!?]]. *)
Definition isTerminator (c : ascii) : bool :=
  let n := code c in (n =? 46) || (n =? 33) || (n =? 63).

Definition lowerChar (c : ascii) : ascii :=
  let n := code c in
  if ((65 <=? n) && (n <=? 90))
     || ((192 <=? n) && (n <=? 222) && negb (n =? 215))
  then ascii_of_nat (n + 32) else c.

Definition toLowerCase (s : str) : str := map lowerChar s.

Fixpoint dropWhile (p : ascii -> bool) (s : str) : str :=
  match s with
  | [] => []
  | c :: s' => if p c then dropWhile p s' else s
  end.

Fixpoint takeWhile (p : ascii -> bool) (s : str) : str :=
  match s with
  | [] => []
  | c :: s' => if p c then c :: takeWhile p s' else []
  end.

Definition trimStart (s : str) : str := dropWhile isSpace s.
Definition trimEnd (s : str) : str := rev (dropWhile isSpace (rev s)).
Definition trim (s : str) : str := trimEnd (trimStart s).

(** [s.slice(from)] and [s.slice(from, to)] for integer arguments: a
    negative argument counts from the end, and both are clamped to the
    string. *)
Definition sliceBound (len : nat) (i : Z) : nat :=
  if (i <? 0)%Z then Z.to_nat (Z.max (Z.of_nat len + i) 0)
  else Nat.min (Z.to_nat i) len.

Definition slice (s : str) (from to : Z) : str :=
  let a := sliceBound (length s) from in
  let b := sliceBound (length s) to in
  firstn (b - a) (skipn a s).

Definition sliceFrom (s : str) (from : Z) : str :=
  skipn (sliceBound (length s) from) s.

Fixpoint startsWith (s prefix : str) : bool :=
  match prefix, s with
  | [], _ => true
  | _ :: _, [] => false
  | p :: prefix', c :: s' =>
      if ascii_dec c p then startsWith s' prefix' else false
  end.

(** [s.includes(sub)]: [sub] occurs at some position of [s]. *)
Fixpoint includes (s sub : str) : bool :=
  startsWith s sub ||
  match s with
  | [] => false
  | _ :: s' => includes s' sub
  end.

(** [parts.join(sep)]. *)
Fixpoint join (sep : str) (parts : list str) : str :=
  match parts with
  | [] => []
  | [p] => p
  | p :: ps => p ++ sep ++ join sep ps
  end.

(** [text.indexOf(sub, offset)]: the first position at or after [offset]
    where [sub] occurs, or -1. *)
Fixpoint indexOfFrom (s sub : str) (pos : nat) : Z :=
  if startsWith s sub then Z.of_nat pos
  else match s with
       | [] => (-1)%Z
       | _ :: s' => indexOfFrom s' sub (S pos)
       end.

Definition indexOf (text sub : str) (offset : Z) : Z :=
  let o := Nat.min (Z.to_nat offset) (length text) in
  indexOfFrom (skipn o text) sub o.

(** ** [Array.prototype.sort]

    The sort is stable, so with a consistent comparator its result is
    determined: [before x y] says that [comparator(x, y) <= 0], and an element
    is placed in front of the first element it may stand before. *)
Section Sort.
Variable A : Type.
Variable before : A -> A -> bool.

Fixpoint insertSorted (x : A) (l : list A) : list A :=
  match l with
  | [] => [x]
  | y :: l' => if before x y then x :: l else y :: insertSorted x l'
  end.

Definition jsSort (l : list A) : list A := fold_right insertSorted [] l.
End Sort.

(** [xs.slice(0, n)] for an integer [n]. *)
Definition sliceTo (A : Type) (xs : list A) (n : Z) : list A :=
  firstn (sliceBound (length xs) n) xs.

(** [xs.map((x, i) => f(x, i))]. *)
Fixpoint mapFrom (A B : Type) (f : A -> nat -> B) (i : nat) (xs : list A)
  : list B :=
  match xs with
  | [] => []
  | x :: xs' => f x i :: mapFrom f (S i) xs'
  end.

Definition mapi (A B : Type) (f : A -> nat -> B) (xs : list A) : list B :=
  mapFrom f 0 xs.

(** Comparisons of numbers as booleans. *)
Definition Rleb (x y : R) : bool := if Rle_dec x y then true else false.
Definition Reqb (x y : R) : bool := if Req_dec_T x y then true else false.

(** ** The chunker: [chunkBySentences] *)

Record RawChunk := mkRawChunk {
  rawText : str;
  rawStart : Z;
  rawEnd : Z
}.

(** One element of [text.matchAll(regex)]: the matched text [match[0]] and
    [match.index]. *)
Record RegExpMatch := mkMatch {
  matched : str;
  matchIndex : nat
}.

(** One attempt of [/[^.!?]*[.!?]+/] at the head of [s]: the greedy run of
    non-terminators, then the greedy, non-empty run of terminators.  The
    results are the match and what follows it. *)
Definition matchSentence (s : str) : option (str * str) :=
  let body := takeWhile (fun c => negb (isTerminator c)) s in
  let rest := dropWhile (fun c => negb (isTerminator c)) s in
  match takeWhile isTerminator rest with
  | [] => None
  | terms => Some (body ++ terms, dropWhile isTerminator rest)
  end.

(** [text.matchAll(regex)] from position [index], where [s] is the text
    from that position on.  When the attempt at the current position fails
    the rest of the text holds no terminator, so no later position matches
    either and the iteration ends.  A match is never empty; [fuel] bounds
    the number of matches. *)
Fixpoint matchAllFrom (fuel index : nat) (s : str) : list RegExpMatch :=
  match fuel with
  | 0 => []
  | S fuel' =>
      match matchSentence s with
      | None => []
      | Some (m, rest) =>
          mkMatch m index :: matchAllFrom fuel' (index + length m) rest
      end
  end.

Definition matchAll (text : str) : list RegExpMatch :=
  matchAllFrom (S (length text)) 0 text.

(** The body of the [for ... of] loop over the matches. *)
Fixpoint pushSentences (ms : list RegExpMatch) (chunks : list RawChunk)
  : list RawChunk :=
  match ms with
  | [] => chunks
  | m :: ms' =>
      let sentence := trim (matched m) in
      pushSentences ms'
        (if 0 <? length sentence
         then chunks ++ [mkRawChunk sentence (Z.of_nat (matchIndex m))
                           (Z.of_nat (matchIndex m + length (matched m)))]
         else chunks)
  end.

Definition chunkBySentences (text : str) : list RawChunk :=
  let chunks := pushSentences (matchAll text) [] in
  let lastEnd := match last (map Some chunks) None with
                 | Some c => rawEnd c
                 | None => 0%Z
                 end in
  if (lastEnd <? Z.of_nat (length text))%Z then
    let remaining := trim (sliceFrom text lastEnd) in
    if 0 <? length remaining
    then chunks ++ [mkRawChunk remaining lastEnd (Z.of_nat (length text))]
    else chunks
  else chunks.

(** ** The chunker: [chunkByParagraphs] *)

Definition isNewline (c : ascii) : bool := code c =? 10.

(** [text.split(/\n\n+/)]: the separators are the maximal runs of two or
    more newlines; [cur] is the piece being read and [inSep] says that the
    previous character belonged to a separator. *)
Fixpoint splitParagraphs (s cur : str) (inSep : bool) : list str :=
  match s with
  | [] => [cur]
  | c :: s' =>
      if isNewline c then
        if inSep then splitParagraphs s' [] true
        else match s' with
             | c2 :: _ =>
                 if isNewline c2 then cur :: splitParagraphs s' [] true
                 else splitParagraphs s' (cur ++ [c]) false
             | [] => splitParagraphs s' (cur ++ [c]) false
             end
      else splitParagraphs s' (cur ++ [c]) false
  end.

(** The [for ... of] loop over the paragraphs, with its [offset]. *)
Fixpoint pushParagraphs (text : str) (paras : list str) (offset : Z)
  (chunks : list RawChunk) : list RawChunk :=
  match paras with
  | [] => chunks
  | para :: paras' =>
      let trimmed := trim para in
      if 0 <? length trimmed then
        let startOffset := indexOf text para offset in
        let endOffset := (startOffset + Z.of_nat (length para))%Z in
        pushParagraphs text paras' endOffset
          (chunks ++ [mkRawChunk trimmed startOffset endOffset])
      else pushParagraphs text paras' offset chunks
  end.

Definition chunkByParagraphs (text : str) : list RawChunk :=
  pushParagraphs text (splitParagraphs text [] false) 0%Z [].

(** ** Data model ([types.ts]) *)

Record SearchItem := mkItem {
  id : str;
  label : str;
  keywords : option (list str);
  description : option str
}.

(** [itemScore] is the field [score] of a ranked item. *)
Record RankedItem := mkRanked {
  item : SearchItem;
  itemScore : R
}.

Record TextChunk := mkChunk {
  text : str;
  startOffset : Z;
  endOffset : Z;
  score : R
}.

Record HighlightedSegment := mkSegment {
  segText : str;
  isHighlight : bool;
  segScore : option R
}.

Inductive ChunkStrategy := Sentences | Paragraphs.

Record SearchInTextOptions := mkOptions {
  chunkStrategy : option ChunkStrategy;
  maxResults : option Z;
  minScore : option R
}.

(** ** Failures and promises *)

(** What the code throws: a [DOMException] named ["AbortError"], or a plain
    [Error]; both with their message. *)
Inductive JsError :=
| AbortError (message : string)
| Error (message : string).

(** The outcome of a promise. *)
Inductive Completion (A : Type) :=
| Fulfilled (value : A)
| Rejected (reason : JsError).

Arguments Fulfilled {A} value.
Arguments Rejected {A} reason.

(** [err instanceof DOMException && err.name === "AbortError"]. *)
Definition isAbortError (e : JsError) : bool :=
  match e with
  | AbortError _ => true
  | Error _ => false
  end.

(** The embedding collaborator: [embedMany({ model, values })], from the
    texts to the promised [embeddings]. *)
Record EmbeddingProvider := mkProvider {
  embedMany : list str -> Completion (list (list R))
}.

(** The variables of [createClient] that the search functions read. *)
Record Client := mkClient {
  embeddingProvider : option EmbeddingProvider;
  initialized : bool
}.

(** [signal?.aborted], for the optional [signal] argument. *)
Definition aborted (signal : option bool) : bool :=
  match signal with
  | Some b => b
  | None => false
  end.

(** ** [tokenize] *)

(** [.replace(/[^\w\s]/g, " ")]. *)
Definition blankPunctuation (s : str) : str :=
  map (fun c => if isWordChar c || isSpace c then c else " "%char) s.

(** [.split(/\s+/)]: the separators are the maximal runs of white space;
    [cur] is the piece being read and [inSep] says that the previous
    character was white space. *)
Fixpoint splitSpaces (s cur : str) (inSep : bool) : list str :=
  match s with
  | [] => [cur]
  | c :: s' =>
      if isSpace c then
        if inSep then splitSpaces s' [] true
        else cur :: splitSpaces s' [] true
      else splitSpaces s' (cur ++ [c]) false
  end.

Definition tokenize (s : str) : list str :=
  filter (fun w => 0 <? length w)
    (splitSpaces (blankPunctuation (toLowerCase s)) [] false).

(** [new Set(words)]: the distinct words in the order of their first
    occurrence. *)
Definition setHas (words : list str) (w : str) : bool :=
  existsb (str_eqb w) words.

Definition newSet (words : list str) : list str :=
  fold_left (fun acc w => if setHas acc w then acc else acc ++ [w]) words [].

(** ** [cosineSimilarity]

    Over the real numbers; [Binary64.cosineSimilarity] below is the same
    function over the numbers of the source. *)

Record CosineSums := mkSums {
  dotProduct : R;
  normA : R;
  normB : R
}.

(** The [for] loop over the indices [0 .. a.length - 1]. *)
Definition cosineLoop (a b : list R) : CosineSums :=
  fold_left
    (fun acc i =>
       let ai := nth i a 0%R in
       let bi := nth i b 0%R in
       mkSums (dotProduct acc + ai * bi)
              (normA acc + ai * ai)
              (normB acc + bi * bi))
    (seq 0 (length a)) (mkSums 0 0 0).

Definition cosineSimilarity (a b : list R) : R :=
  if (length a =? 0) || (length b =? 0) || negb (length a =? length b)
  then 0
  else
    let sums := cosineLoop a b in
    let denominator := (sqrt (normA sums) * sqrt (normB sums))%R in
    if Reqb denominator 0 then 0
    else (dotProduct sums / denominator)%R.

(** ** [searchItems] *)

Definition orEmpty (o : option str) : str :=
  match o with Some d => d | None => [] end.

Definition orNone (o : option (list str)) : list str :=
  match o with Some ks => ks | None => [] end.

(** [[item.label, item.description ?? "", ...(item.keywords ?? [])]]. *)
Definition itemParts (it : SearchItem) : list str :=
  label it :: orEmpty (description it) :: orNone (keywords it).

(** The text embedded for an item: the parts, [.filter(Boolean)], joined. *)
Definition itemText (it : SearchItem) : str :=
  join (lit " ") (filter (fun p => 0 <? length p) (itemParts it)).

Definition keywordBoost (queryLower : str) (queryTokens : list str)
  (searchText : str) (it : SearchItem) : R :=
  if includes (toLowerCase (label it)) queryLower then 0.3
  else if match keywords it with
          | Some ks => existsb (fun k => includes (toLowerCase k) queryLower) ks
          | None => false
          end then 0.25
  else if existsb (fun qt => includes searchText qt) queryTokens then 0.15
  else 0.

(** Descending order of score: [(a, b) => b.score - a.score]. *)
Definition byItemScore (a b : RankedItem) : bool :=
  Rleb (itemScore b - itemScore a) 0.

Definition byScore (a b : TextChunk) : bool :=
  Rleb (score b - score a) 0.

(** [embeddings[i] ? cosineSimilarity(q, embeddings[i]) : 0]. *)
Definition embeddingScoreAt (embeddings : list (list R)) (q : list R)
  (i : nat) : R :=
  match nth_error embeddings i with
  | Some e => cosineSimilarity q e
  | None => 0
  end.

(** The body of the [try] block. *)
Definition embeddingRank (p : EmbeddingProvider) (query : str)
  (items : list SearchItem) : Completion (list RankedItem) :=
  let itemTexts := map itemText items in
  let values := query :: itemTexts in
  match embedMany p values with
  | Rejected e => Rejected e
  | Fulfilled embeddings =>
      if negb (length embeddings =? length items + 1)
      then Rejected (Error "Invalid embeddings")
      else
        match nth_error embeddings 0 with
        | None => Rejected (Error "Empty query embedding")
        | Some queryEmbedding =>
            if length queryEmbedding =? 0
            then Rejected (Error "Empty query embedding")
            else
              let queryLower := toLowerCase query in
              let queryTokens := tokenize query in
              let scored :=
                mapi (fun it i =>
                        let embeddingScore :=
                          embeddingScoreAt embeddings queryEmbedding (i + 1) in
                        let searchText :=
                          match nth_error itemTexts i with
                          | Some t => toLowerCase t
                          | None => []
                          end in
                        let boost :=
                          keywordBoost queryLower queryTokens searchText it in
                        mkRanked it (Rmin (embeddingScore + boost) 1))
                     items in
              Fulfilled (jsSort byItemScore scored)
        end
  end.

(** The inner [for] loop over [itemWords], left at the first match. *)
Fixpoint partialMatch (qWord : str) (itemWords : list str) : R :=
  match itemWords with
  | [] => 0
  | itemWord :: rest =>
      if startsWith itemWord qWord || startsWith qWord itemWord then 0.5
      else partialMatch qWord rest
  end.

(** What one query word adds to [matchScore]. *)
Definition wordCredit (itemWords : list str) (searchText qWord : str) : R :=
  if setHas itemWords qWord then 1.0
  else if includes searchText qWord then 0.7
  else partialMatch qWord itemWords.

Definition lexicalScore (queryWords : list str) (it : SearchItem) : R :=
  let searchText := toLowerCase (join (lit " ") (itemParts it)) in
  let itemWords := newSet (tokenize searchText) in
  let matchScore :=
    fold_left (fun m qWord => (m + wordCredit itemWords searchText qWord)%R)
      queryWords 0%R in
  Rmin (matchScore / INR (length queryWords)) 1.

(** The code after the [if (embeddingProvider && initialized)] block. *)
Definition lexicalRank (query : str) (items : list SearchItem)
  : list RankedItem :=
  let queryWords := newSet (tokenize query) in
  if length queryWords =? 0 then map (fun it => mkRanked it 0) items
  else jsSort byItemScore
         (map (fun it => mkRanked it (lexicalScore queryWords it)) items).

Definition searchItems (client : Client) (query : str)
  (items : list SearchItem) (signal : option bool)
  : Completion (list RankedItem) :=
  if length items =? 0 then Fulfilled []
  else if aborted signal then Rejected (AbortError "Search aborted")
  else
    match embeddingProvider client, initialized client with
    | Some p, true =>
        match embeddingRank p query items with
        | Fulfilled scored => Fulfilled scored
        | Rejected err =>
            if isAbortError err then Rejected err
            else Fulfilled (lexicalRank query items)
        end
    | _, _ => Fulfilled (lexicalRank query items)
    end.

(** ** [searchInText] *)

Definition searchInText (client : Client) (query txt : str)
  (opts : SearchInTextOptions) (signal : option bool)
  : Completion (list TextChunk) :=
  if aborted signal then Rejected (AbortError "Search aborted")
  else
    let strategy :=
      match chunkStrategy opts with Some c => c | None => Sentences end in
    let maxRes := match maxResults opts with Some n => n | None => 5%Z end in
    let minSc := match minScore opts with Some m => m | None => 0.3%R end in
    let rawChunks :=
      match strategy with
      | Paragraphs => chunkByParagraphs txt
      | Sentences => chunkBySentences txt
      end in
    if length rawChunks =? 0 then Fulfilled []
    else
      match embeddingProvider client, initialized client with
      | Some p, true =>
          let chunkTexts := map rawText rawChunks in
          let values := query :: chunkTexts in
          match embedMany p values with
          | Rejected e => Rejected e
          | Fulfilled embeddings =>
              if negb (length embeddings =? length values)
              then Rejected (Error "Invalid embeddings response")
              else
                match nth_error embeddings 0 with
                | None => Rejected (Error "Empty query embedding")
                | Some queryEmbedding =>
                    if length queryEmbedding =? 0
                    then Rejected (Error "Empty query embedding")
                    else
                      let scored :=
                        mapi (fun c i =>
                                mkChunk (rawText c) (rawStart c) (rawEnd c)
                                  (embeddingScoreAt embeddings queryEmbedding
                                     (i + 1)))
                             rawChunks in
                      Fulfilled
                        (sliceTo
                           (jsSort byScore
                              (filter (fun c => Rleb minSc (score c)) scored))
                           maxRes)
                end
          end
      | _, _ =>
          Rejected (Error "Embedding provider not initialized for text search")
      end.

(** ** The highlight projector: [computeHighlightedSegments] *)

(** [(a, b) => a.startOffset - b.startOffset]. *)
Definition byStartOffset (a b : TextChunk) : bool :=
  (startOffset a - startOffset b <=? 0)%Z.

(** The [for ... of] loop over the sorted chunks: the segments pushed so far
    and the cursor. *)
Fixpoint projectChunks (txt : str) (sorted : list TextChunk)
  (segments : list HighlightedSegment) (cursor : Z)
  : list HighlightedSegment * Z :=
  match sorted with
  | [] => (segments, cursor)
  | chunk :: rest =>
      let segments1 :=
        if (cursor <? startOffset chunk)%Z
        then segments ++ [mkSegment (slice txt cursor (startOffset chunk))
                            false None]
        else segments in
      let segments2 :=
        segments1 ++ [mkSegment (text chunk) true (Some (score chunk))] in
      projectChunks txt rest segments2 (endOffset chunk)
  end.

Definition computeHighlightedSegments (txt : str) (results : list TextChunk)
  : list HighlightedSegment :=
  if (length results =? 0) || (length txt =? 0)
  then [mkSegment txt false None]
  else
    let sorted := jsSort byStartOffset results in
    let '(segments, cursor) := projectChunks txt sorted [] 0%Z in
    if (cursor <? Z.of_nat (length txt))%Z
    then segments ++ [mkSegment (sliceFrom txt cursor) false None]
    else segments.

(** The text a renderer shows: the segment texts, one after the other. *)
Definition renderedText (segments : list HighlightedSegment) : str :=
  concat (map segText segments).

(** A chunk that lies inside [txt], is not empty, and whose text is exactly
    the text between its offsets. *)
Definition exactChunk (txt : str) (c : TextChunk) : Prop :=
  (0 <= startOffset c < endOffset c)%Z
  /\ (endOffset c <= Z.of_nat (length txt))%Z
  /\ text c = slice txt (startOffset c) (endOffset c).

(** Two chunks that do not overlap. *)
Definition disjointChunks (a b : TextChunk) : Prop :=
  (endOffset a <= startOffset b)%Z \/ (endOffset b <= startOffset a)%Z.

(** The chunks of a text as [searchInText] returns them when every chunk
    gets the score [s]. *)
Definition scoredChunks (s : R) (raw : list RawChunk) : list TextChunk :=
  map (fun c => mkChunk (rawText c) (rawStart c) (rawEnd c) s) raw.

(** ** The cosine, as a formula *)

(** The dot product of two vectors of the same length. *)
Fixpoint dot (a b : list R) : R :=
  match a, b with
  | x :: a', y :: b' => (x * y + dot a' b')%R
  | _, _ => 0%R
  end.

(** The Euclidean norm. *)
Definition norm (a : list R) : R := sqrt (dot a a).

(** ** Fixtures for the examples *)

Definition catItem : SearchItem := mkItem (lit "1") (lit "Cat") None None.
Definition dogItem : SearchItem := mkItem (lit "2") (lit "Dog") None None.

(** A client on which [initialize] ran without an embedding model. *)
Definition lexicalClient : Client := mkClient None true.

(** A collaborator that answers every batch with three equal vectors. *)
Definition agreeingProvider : EmbeddingProvider :=
  mkProvider (fun _ => Fulfilled [[1%R]; [1%R]; [1%R]]).

Definition agreeingClient : Client := mkClient (Some agreeingProvider) true.

Definition defaultOptions : SearchInTextOptions := mkOptions None None None.

(** The [rawChunks] of [searchInText]: the chunks of the text under the
    strategy in force. *)
Definition rawChunksOf (opts : SearchInTextOptions) (txt : str)
  : list RawChunk :=
  match chunkStrategy opts with
  | Some Paragraphs => chunkByParagraphs txt
  | _ => chunkBySentences txt
  end.

(** An answer of the collaborator to a batch of a query and [n] candidates
    that the ranking functions refuse: the number of vectors is not
    [n + 1], or the query vector is empty. *)
Definition invalidResponse (n : nat) (embeddings : list (list R)) : Prop :=
  length embeddings <> n + 1 \/ nth_error embeddings 0 = Some [].

(** A collaborator that answers every batch with no vector at all. *)
Definition silentProvider : EmbeddingProvider :=
  mkProvider (fun _ => Fulfilled []).

Definition silentClient : Client := mkClient (Some silentProvider) true.

(** ** The lexical scoring rule, in the words of the specification

    The definitions below do not come from the code: they state the rule as
    the specification words it, to be compared with [lexicalScore]. *)






(** ** The query controllers

    A controller is the state of one mounted hook: the values held by
    [useState] and [useRef].  An [AbortController] object is known by its
    identity, a number given at its creation.  A call of [search] runs in
    two parts: [searchBegin] runs up to the [await] of the client call and
    either returns at a guard or leaves a request in flight; [searchResume]
    runs from the [await] on, once the client call has settled, whenever
    that is.  The [search] function of [useSearch] is a closure over the
    [query] and the [results] of the render that created it ([Render]); the
    timer and the effects call the function of the latest render, through
    [searchRef]. *)

(** How the first part of a call of [search] ends. *)
Inductive Started (A : Type) :=
| Returned (value : list A)
| Awaiting (controller : nat).

Arguments Returned {A} value.
Arguments Awaiting {A} controller.

Definition Rltb (x y : R) : bool := negb (Rleb y x).

Module UseSearch.

Record Props := mkProps {
  client : option Client;
  text : str;
  minQueryLength : nat;
  debounceMs : nat;
  maxResults : Z;
  minScore : R;
  chunkStrategy : ChunkStrategy
}.

(** A call [client.searchInText(q, text, options, signal)]. *)
Record Call := mkCall {
  callQuery : str;
  callText : str;
  callSignal : nat
}.

Record State := mkState {
  query : str;
  results : list TextChunk;
  isSearching : bool;
  error : option JsError;
  debounceTimerRef : option str;
  lastQueryRef : str;
  lastTextRef : str;
  abortControllerRef : option nat;
  (** the [AbortController] objects created so far, and those aborted *)
  controllers : nat;
  abortedControllers : list nat;
  (** the calls of [client.searchInText] so far, the latest first, and
      those among them that have not settled yet *)
  calls : list Call;
  inFlight : list Call;
  (** the arguments given to [onResults] and to [onError] so far *)
  reportedResults : list (list TextChunk);
  reportedErrors : list JsError
}.

Definition initial (initialQuery : str) : State :=
  mkState initialQuery [] false None None [] [] None 0 [] [] [] [] [].

Definition setResults (r : list TextChunk) (st : State) : State :=
  mkState (query st) r (isSearching st) (error st) (debounceTimerRef st)
    (lastQueryRef st) (lastTextRef st) (abortControllerRef st)
    (controllers st) (abortedControllers st) (calls st) (inFlight st)
    (reportedResults st) (reportedErrors st).

Definition setIsSearching (b : bool) (st : State) : State :=
  mkState (query st) (results st) b (error st) (debounceTimerRef st)
    (lastQueryRef st) (lastTextRef st) (abortControllerRef st)
    (controllers st) (abortedControllers st) (calls st) (inFlight st)
    (reportedResults st) (reportedErrors st).

Definition setError (e : option JsError) (st : State) : State :=
  mkState (query st) (results st) (isSearching st) e (debounceTimerRef st)
    (lastQueryRef st) (lastTextRef st) (abortControllerRef st)
    (controllers st) (abortedControllers st) (calls st) (inFlight st)
    (reportedResults st) (reportedErrors st).

Definition setQueryInternal (q : str) (st : State) : State :=
  mkState q (results st) (isSearching st) (error st) (debounceTimerRef st)
    (lastQueryRef st) (lastTextRef st) (abortControllerRef st)
    (controllers st) (abortedControllers st) (calls st) (inFlight st)
    (reportedResults st) (reportedErrors st).

Definition setTimer (t : option str) (st : State) : State :=
  mkState (query st) (results st) (isSearching st) (error st) t
    (lastQueryRef st) (lastTextRef st) (abortControllerRef st)
    (controllers st) (abortedControllers st) (calls st) (inFlight st)
    (reportedResults st) (reportedErrors st).

Definition setLastQuery (q : str) (st : State) : State :=
  mkState (query st) (results st) (isSearching st) (error st)
    (debounceTimerRef st) q (lastTextRef st) (abortControllerRef st)
    (controllers st) (abortedControllers st) (calls st) (inFlight st)
    (reportedResults st) (reportedErrors st).

(** The lines from [abortControllerRef.current.abort()] to the client call:
    the pending request is aborted, a new controller becomes the current
    one, the query and the text are recorded, and the client is called. *)
Definition issue (p : Props) (q : str) (st : State) : State :=
  let fresh := controllers st in
  mkState (query st) (results st) true None (debounceTimerRef st)
    q (text p) (Some fresh) (S fresh)
    (match abortControllerRef st with
     | Some c => c :: abortedControllers st
     | None => abortedControllers st
     end)
    (mkCall q (text p) fresh :: calls st)
    (mkCall q (text p) fresh :: inFlight st)
    (reportedResults st) (reportedErrors st).

Definition reportResults (r : list TextChunk) (st : State) : State :=
  mkState (query st) (results st) (isSearching st) (error st)
    (debounceTimerRef st) (lastQueryRef st) (lastTextRef st)
    (abortControllerRef st) (controllers st) (abortedControllers st)
    (calls st) (inFlight st) (r :: reportedResults st) (reportedErrors st).

Definition reportError (e : JsError) (st : State) : State :=
  mkState (query st) (results st) (isSearching st) (error st)
    (debounceTimerRef st) (lastQueryRef st) (lastTextRef st)
    (abortControllerRef st) (controllers st) (abortedControllers st)
    (calls st) (inFlight st) (reportedResults st) (e :: reportedErrors st).

(** [abortControllerRef.current === abortController]. *)
Definition isCurrent (controller : nat) (st : State) : bool :=
  match abortControllerRef st with
  | Some c => c =? controller
  | None => false
  end.

(** What a [search] function holds of the state: the [query] and the
    [results] of the render that created it. *)
Record Render := mkRender {
  renderedQuery : str;
  renderedResults : list TextChunk
}.

Definition latestRender (st : State) : Render :=
  mkRender (query st) (results st).

(** [search(searchQuery)] up to the [await], for the [search] function
    created under the props [p] at the render [r]. *)
Definition searchBegin (p : Props) (r : Render) (searchQuery : option str)
  (st : State) : State * Started TextChunk :=
  let q := match searchQuery with Some q => q | None => renderedQuery r end in
  match client p with
  | None => (st, Returned [])
  | Some _ =>
      if length q <? minQueryLength p then (setResults [] st, Returned [])
      else if str_eqb q (lastQueryRef st) && str_eqb (text p) (lastTextRef st)
      then (st, Returned (renderedResults r))
      else (issue p q st, Awaiting (controllers st))
  end.

(** The [finally] block. *)
Definition searchFinally (controller : nat) (st : State) : State :=
  if isCurrent controller st then setIsSearching false st else st.

(** [search] from the [await] on: [outcome] is how the client call of the
    request made with [controller] settled.  The result is the new state
    and the value that the promise of [search] resolves to. *)
Definition searchResume (controller : nat)
  (outcome : Completion (list TextChunk)) (st : State)
  : State * list TextChunk :=
  match outcome with
  | Fulfilled chunks =>
      if negb (isCurrent controller st)
      then (searchFinally controller st, [])
      else (searchFinally controller
              (reportResults chunks (setResults chunks st)), chunks)
  | Rejected err =>
      if isAbortError err then (searchFinally controller st, [])
      else (searchFinally controller
              (reportError err (setError (Some err) st)), [])
  end.

Definition setQuery (p : Props) (newQuery : str) (st : State) : State :=
  let st1 := setTimer None (setQueryInternal newQuery st) in
  if length newQuery <? minQueryLength p then setResults [] st1
  else setTimer (Some newQuery) st1.

Definition clear (st : State) : State :=
  setLastQuery []
    (setError None (setResults [] (setQueryInternal [] (setTimer None st)))).

Definition setInFlight (l : list Call) (st : State) : State :=
  mkState (query st) (results st) (isSearching st) (error st)
    (debounceTimerRef st) (lastQueryRef st) (lastTextRef st)
    (abortControllerRef st) (controllers st) (abortedControllers st)
    (calls st) l (reportedResults st) (reportedErrors st).

(** The client call made with [controller] settles: its request leaves the
    requests in flight and [search] goes on.  A call settles once. *)
Definition settle (controller : nat)
  (outcome : Completion (list TextChunk)) (st : State) : State :=
  if existsb (fun c => callSignal c =? controller) (inFlight st)
  then fst (searchResume controller outcome
              (setInFlight
                 (filter (fun c => negb (callSignal c =? controller))
                    (inFlight st)) st))
  else st.

(** What happens to a mounted hook. *)
Inductive Event :=
| SetQuery (newQuery : str)
| TimerFires
| Search (r : Render) (searchQuery : option str)
| Settles (controller : nat) (outcome : Completion (list TextChunk))
| Clear
| TextChanged.

(** One event, under the props of the render in force. *)
Definition step (p : Props) (e : Event) (st : State) : State :=
  match e with
  | SetQuery q => setQuery p q st
  | TimerFires =>
      match debounceTimerRef st with
      | Some q =>
          fst (searchBegin p (latestRender st) (Some q) (setTimer None st))
      | None => st
      end
  | Search r q => fst (searchBegin p r q st)
  | Settles controller outcome => settle controller outcome st
  | Clear => clear st
  | TextChanged =>
      match client p with
      | Some _ =>
          if (minQueryLength p <=? length (query st))
             && negb (str_eqb (text p) (lastTextRef st))
          then fst (searchBegin p (latestRender st) (Some (query st)) st)
          else st
      | None => st
      end
  end.

Fixpoint run (trace : list (Props * Event)) (st : State) : State :=
  match trace with
  | [] => st
  | (p, e) :: trace' => run trace' (step p e st)
  end.

(** A request that was superseded: its controller exists and is not the
    current one. *)
Definition superseded (controller : nat) (st : State) : Prop :=
  controller < controllers st /\ abortControllerRef st <> Some controller.

End UseSearch.

Module UseSelect.

Record Props := mkProps {
  client : option Client;
  items : list SearchItem;
  minQueryLength : nat;
  debounceMs : nat;
  maxResults : Z;
  minScore : R;
  (** [None] when the [selected] prop is left undefined *)
  controlledSelected : option (option SearchItem);
  allowClear : bool;
  closeOnSelect : bool
}.

(** A call [client.searchItems(searchQuery, items, signal)], made under
    the props [callProps], which give the items. *)
Record Call := mkCall {
  callQuery : str;
  callProps : Props;
  callSignal : nat
}.

Record State := mkState {
  query : str;
  results : list RankedItem;
  isSearching : bool;
  error : option JsError;
  debounceTimerRef : option str;
  lastQueryRef : str;
  abortControllerRef : option nat;
  internalSelected : option SearchItem;
  isOpen : bool;
  highlightedIndex : Z;
  (** the [AbortController] objects created so far, and those aborted *)
  controllers : nat;
  abortedControllers : list nat;
  (** the calls of [client.searchItems] so far, the latest first, and
      those among them that have not settled yet *)
  calls : list Call;
  inFlight : list Call;
  (** the arguments given to [onSelect] and to [onError] so far *)
  reportedSelections : list (option SearchItem);
  reportedErrors : list JsError
}.

Definition initial (initialQuery : str) : State :=
  mkState initialQuery [] false None None [] None None false (-1) 0 [] []
    [] [] [].

Definition setResults (r : list RankedItem) (st : State) : State :=
  mkState (query st) r (isSearching st) (error st) (debounceTimerRef st)
    (lastQueryRef st) (abortControllerRef st) (internalSelected st)
    (isOpen st) (highlightedIndex st) (controllers st)
    (abortedControllers st) (calls st) (inFlight st) (reportedSelections st)
    (reportedErrors st).

Definition setIsSearching (b : bool) (st : State) : State :=
  mkState (query st) (results st) b (error st) (debounceTimerRef st)
    (lastQueryRef st) (abortControllerRef st) (internalSelected st)
    (isOpen st) (highlightedIndex st) (controllers st)
    (abortedControllers st) (calls st) (inFlight st) (reportedSelections st)
    (reportedErrors st).

Definition setError (e : option JsError) (st : State) : State :=
  mkState (query st) (results st) (isSearching st) e (debounceTimerRef st)
    (lastQueryRef st) (abortControllerRef st) (internalSelected st)
    (isOpen st) (highlightedIndex st) (controllers st)
    (abortedControllers st) (calls st) (inFlight st) (reportedSelections st)
    (reportedErrors st).

Definition setQueryInternal (q : str) (st : State) : State :=
  mkState q (results st) (isSearching st) (error st) (debounceTimerRef st)
    (lastQueryRef st) (abortControllerRef st) (internalSelected st)
    (isOpen st) (highlightedIndex st) (controllers st)
    (abortedControllers st) (calls st) (inFlight st) (reportedSelections st)
    (reportedErrors st).

Definition setTimer (t : option str) (st : State) : State :=
  mkState (query st) (results st) (isSearching st) (error st) t
    (lastQueryRef st) (abortControllerRef st) (internalSelected st)
    (isOpen st) (highlightedIndex st) (controllers st)
    (abortedControllers st) (calls st) (inFlight st) (reportedSelections st)
    (reportedErrors st).

Definition setLastQuery (q : str) (st : State) : State :=
  mkState (query st) (results st) (isSearching st) (error st)
    (debounceTimerRef st) q (abortControllerRef st) (internalSelected st)
    (isOpen st) (highlightedIndex st) (controllers st)
    (abortedControllers st) (calls st) (inFlight st) (reportedSelections st)
    (reportedErrors st).

Definition setInternalSelected (s : option SearchItem) (st : State)
  : State :=
  mkState (query st) (results st) (isSearching st) (error st)
    (debounceTimerRef st) (lastQueryRef st) (abortControllerRef st) s
    (isOpen st) (highlightedIndex st) (controllers st)
    (abortedControllers st) (calls st) (inFlight st) (reportedSelections st)
    (reportedErrors st).

Definition setIsOpen (b : bool) (st : State) : State :=
  mkState (query st) (results st) (isSearching st) (error st)
    (debounceTimerRef st) (lastQueryRef st) (abortControllerRef st)
    (internalSelected st) b (highlightedIndex st) (controllers st)
    (abortedControllers st) (calls st) (inFlight st) (reportedSelections st)
    (reportedErrors st).

Definition setHighlightedIndex (i : Z) (st : State) : State :=
  mkState (query st) (results st) (isSearching st) (error st)
    (debounceTimerRef st) (lastQueryRef st) (abortControllerRef st)
    (internalSelected st) (isOpen st) i (controllers st)
    (abortedControllers st) (calls st) (inFlight st) (reportedSelections st)
    (reportedErrors st).

Definition reportSelection (s : option SearchItem) (st : State) : State :=
  mkState (query st) (results st) (isSearching st) (error st)
    (debounceTimerRef st) (lastQueryRef st) (abortControllerRef st)
    (internalSelected st) (isOpen st) (highlightedIndex st)
    (controllers st) (abortedControllers st) (calls st) (inFlight st)
    (s :: reportedSelections st) (reportedErrors st).

Definition reportError (e : JsError) (st : State) : State :=
  mkState (query st) (results st) (isSearching st) (error st)
    (debounceTimerRef st) (lastQueryRef st) (abortControllerRef st)
    (internalSelected st) (isOpen st) (highlightedIndex st)
    (controllers st) (abortedControllers st) (calls st) (inFlight st)
    (reportedSelections st) (e :: reportedErrors st).

(** The lines from [abortControllerRef.current.abort()] to the client call. *)
Definition issue (p : Props) (q : str) (st : State) : State :=
  let fresh := controllers st in
  mkState (query st) (results st) true None (debounceTimerRef st)
    q (Some fresh) (internalSelected st) (isOpen st) (highlightedIndex st)
    (S fresh)
    (match abortControllerRef st with
     | Some c => c :: abortedControllers st
     | None => abortedControllers st
     end)
    (mkCall q p fresh :: calls st)
    (mkCall q p fresh :: inFlight st)
    (reportedSelections st) (reportedErrors st).

Definition isCurrent (controller : nat) (st : State) : bool :=
  match abortControllerRef st with
  | Some c => c =? controller
  | None => false
  end.

(** [search(searchQuery)] up to the [await]. *)
Definition searchBegin (p : Props) (searchQuery : str) (st : State)
  : State * Started RankedItem :=
  match client p with
  | None => (st, Returned [])
  | Some _ =>
      if length searchQuery <? minQueryLength p
      then (setResults [] st, Returned [])
      else if str_eqb searchQuery (lastQueryRef st) then (st, Returned [])
      else (issue p searchQuery st, Awaiting (controllers st))
  end.

Definition searchFinally (controller : nat) (st : State) : State :=
  if isCurrent controller st then setIsSearching false st else st.

(** The threshold and the cap applied to a ranking before it is committed. *)
Definition threshold (p : Props) (ranked : list RankedItem)
  : list RankedItem :=
  let ranked1 :=
    if Rltb 0 (minScore p)
    then filter (fun r => Rleb (minScore p) (itemScore r)) ranked
    else ranked in
  if (0 <? maxResults p)%Z then sliceTo ranked1 (maxResults p) else ranked1.

(** [search] from the [await] on. *)
Definition searchResume (p : Props) (controller : nat)
  (outcome : Completion (list RankedItem)) (st : State)
  : State * list RankedItem :=
  match outcome with
  | Fulfilled ranked =>
      if negb (isCurrent controller st)
      then (searchFinally controller st, [])
      else (searchFinally controller (setResults (threshold p ranked) st),
            threshold p ranked)
  | Rejected err =>
      if isAbortError err then (searchFinally controller st, [])
      else (searchFinally controller
              (reportError err (setError (Some err) st)), [])
  end.

Definition setQuery (p : Props) (newQuery : str) (st : State) : State :=
  let st1 := setTimer None (setQueryInternal newQuery st) in
  if length newQuery <? minQueryLength p then setResults [] st1
  else
    let st2 := setTimer (Some newQuery) st1 in
    if (0 <? length newQuery) && negb (isOpen st) then setIsOpen true st2
    else st2.

Definition clearSearch (st : State) : State :=
  setLastQuery []
    (setError None (setResults [] (setQueryInternal [] (setTimer None st)))).

(** The options shown: every item when the query is empty and the dropdown
    is open, the committed ranking otherwise. *)
Definition displayOptions (p : Props) (st : State) : list RankedItem :=
  if (length (query st) =? 0) && isOpen st
  then map (fun it => mkRanked it 1) (items p)
  else results st.

Definition select (p : Props) (it : option SearchItem) (st : State)
  : State :=
  let st1 := match controlledSelected p with
             | None => setInternalSelected it st
             | Some _ => st
             end in
  let st2 := reportSelection it st1 in
  let st3 := setQueryInternal
               (match it with Some i => label i | None => [] end) st2 in
  let st4 := if closeOnSelect p then setIsOpen false st3 else st3 in
  setHighlightedIndex (-1) st4.

Definition open (st : State) : State :=
  setHighlightedIndex (-1) (setIsOpen true st).

Definition close (st : State) : State :=
  setHighlightedIndex (-1) (setIsOpen false st).

Definition toggle (st : State) : State :=
  if isOpen st then close st else open st.

Definition clear (p : Props) (st : State) : State :=
  if allowClear p then clearSearch (select p None st) else st.

Definition highlightPrevious (p : Props) (st : State) : State :=
  let n := Z.of_nat (length (displayOptions p st)) in
  let prev := highlightedIndex st in
  setHighlightedIndex (if (prev <=? 0)%Z then n - 1 else prev - 1)%Z st.

Definition highlightNext (p : Props) (st : State) : State :=
  let n := Z.of_nat (length (displayOptions p st)) in
  let prev := highlightedIndex st in
  setHighlightedIndex (if (n - 1 <=? prev)%Z then 0 else prev + 1)%Z st.

Definition selectHighlighted (p : Props) (st : State) : State :=
  let i := highlightedIndex st in
  if (0 <=? i)%Z && (i <? Z.of_nat (length (displayOptions p st)))%Z
  then match nth_error (displayOptions p st) (Z.to_nat i) with
       | Some r => select p (Some (item r)) st
       | None => st
       end
  else st.

Definition setInFlight (l : list Call) (st : State) : State :=
  mkState (query st) (results st) (isSearching st) (error st)
    (debounceTimerRef st) (lastQueryRef st) (abortControllerRef st)
    (internalSelected st) (isOpen st) (highlightedIndex st)
    (controllers st) (abortedControllers st) (calls st) l
    (reportedSelections st) (reportedErrors st).

(** The client call made with [controller] settles: its request leaves the
    requests in flight and [search] goes on, under the props of its call.
    A call settles once. *)
Definition settle (controller : nat)
  (outcome : Completion (list RankedItem)) (st : State) : State :=
  match find (fun c => callSignal c =? controller) (inFlight st) with
  | Some c =>
      fst (searchResume (callProps c) controller outcome
             (setInFlight
                (filter (fun c => negb (callSignal c =? controller))
                   (inFlight st)) st))
  | None => st
  end.

Inductive Event :=
| SetQuery (newQuery : str)
| TimerFires
| Settles (controller : nat) (outcome : Completion (list RankedItem))
| Select (it : option SearchItem)
| Open
| Close
| Toggle
| Clear
| HighlightPrevious
| HighlightNext
| SelectHighlighted
| ItemsChanged.

Definition step (p : Props) (e : Event) (st : State) : State :=
  match e with
  | SetQuery q => setQuery p q st
  | TimerFires =>
      match debounceTimerRef st with
      | Some q => fst (searchBegin p q (setTimer None st))
      | None => st
      end
  | Settles controller outcome => settle controller outcome st
  | Select it => select p it st
  | Open => open st
  | Close => close st
  | Toggle => toggle st
  | Clear => clear p st
  | HighlightPrevious => highlightPrevious p st
  | HighlightNext => highlightNext p st
  | SelectHighlighted => selectHighlighted p st
  | ItemsChanged =>
      match client p with
      | Some _ =>
          if minQueryLength p <=? length (query st)
          then fst (searchBegin p (query st) st)
          else st
      | None => st
      end
  end.

Fixpoint run (trace : list (Props * Event)) (st : State) : State :=
  match trace with
  | [] => st
  | (p, e) :: trace' => run trace' (step p e st)
  end.

Definition superseded (controller : nat) (st : State) : Prop :=
  controller < controllers st /\ abortControllerRef st <> Some controller.

End UseSelect.

(** Props for the examples: a text search over two sentences, and a
    selection over two items with the defaults of the hook. *)
Definition searchProps : UseSearch.Props :=
  UseSearch.mkProps (Some agreeingClient)
    (lit "Hello world. How are you?") 2 300 5 0.3 Sentences.

Definition selectProps : UseSelect.Props :=
  UseSelect.mkProps (Some lexicalClient) [catItem; dogItem] 1 200 0 0
    None true true.

(** The ranking of the two items for the query ["cat"]. *)
Definition catRanking : list RankedItem :=
  [mkRanked catItem 1; mkRanked dogItem 0].

(** A token: not empty and free of white space. *)
Definition isToken (w : str) : Prop :=
  w <> [] /\ Forall (fun c => isSpace c = false) w.

(** The non-empty pieces of [s.split(/\s+/)]. *)
Definition words (s : str) : list str :=
  filter (fun w => 0 <? length w) (splitSpaces s [] false).

(** What [tokenize] makes of a character before it splits. *)
Definition normChar (c : ascii) : ascii :=
  let l := lowerChar c in
  if isWordChar l || isSpace l then l else " "%char.

(** ** Predicates on chunk lists *)

(** The chunks tile the text from position [pos] on: each chunk starts
    where the one before it ended, spans at least one character, ends inside
    the text, and carries the trimmed text of its span, which is not
    empty. *)
Fixpoint tilesFrom (txt : str) (pos : Z) (chunks : list RawChunk) : Prop :=
  match chunks with
  | [] => True
  | c :: cs =>
      rawStart c = pos
      /\ (pos < rawEnd c <= Z.of_nat (length txt))%Z
      /\ rawText c = trim (slice txt pos (rawEnd c))
      /\ rawText c <> []
      /\ tilesFrom txt (rawEnd c) cs
  end.

(** The end of the last chunk, or [pos] when there is no chunk. *)
Definition lastEndOr (pos : Z) (chunks : list RawChunk) : Z :=
  match last (map Some chunks) None with
  | Some c => rawEnd c
  | None => pos
  end.

(** The characters of a text that are not white space, in their order. *)
Definition visible (s : str) : str :=
  filter (fun c => negb (isSpace c)) s.

(** A chunk that lies inside [txt], is not empty, and whose text is the
    trimmed text between its offsets. *)
Definition trimmedChunk (txt : str) (c : TextChunk) : Prop :=
  (0 <= startOffset c < endOffset c)%Z
  /\ (endOffset c <= Z.of_nat (length txt))%Z
  /\ text c = trim (slice txt (startOffset c) (endOffset c)).

(** The chunk that [searchInText] makes of a raw chunk and a score. *)
Definition withScore (r : RawChunk) (s : R) : TextChunk :=
  mkChunk (rawText r) (rawStart r) (rawEnd r) s.

(** [maxResults], [minScore]: the values in force for the options. *)
Definition maxResultsOf (opts : SearchInTextOptions) : Z :=
  match maxResults opts with Some n => n | None => 5%Z end.

Definition minScoreOf (opts : SearchInTextOptions) : R :=
  match minScore opts with Some m => m | None => 0.3%R end.

(** The characters of a token: [a-z], [0-9] and [_]. *)
Definition isLowerWordChar (c : ascii) : bool :=
  let n := code c in
  ((97 <=? n) && (n <=? 122)) || ((48 <=? n) && (n <=? 57)) || (n =? 95).

(** The score that the lexical fallback of [searchItems] gives an item. *)
Definition fallbackScore (query : str) (it : SearchItem) : R :=
  if length (newSet (tokenize query)) =? 0 then 0%R
  else lexicalScore (newSet (tokenize query)) it.

(** Collaborators that fail: one as a cancelled call does, one with an
    error of its own. *)
Definition abortingProvider : EmbeddingProvider :=
  mkProvider (fun _ => Rejected (AbortError "The operation was aborted")).

Definition failingProvider : EmbeddingProvider :=
  mkProvider (fun _ => Rejected (Error "model crashed")).

(** ** Notions for the properties of the controllers *)

(** The request of the current controller has not settled yet. *)
Definition useSearchPending (st : UseSearch.State) : bool :=
  match UseSearch.abortControllerRef st with
  | Some c =>
      existsb (fun k => UseSearch.callSignal k =? c) (UseSearch.inFlight st)
  | None => false
  end.

(** The events of a user who edits the query or clears it. *)
Definition useSearchEdit (e : UseSearch.Event) : Prop :=
  match e with
  | UseSearch.SetQuery _ | UseSearch.Clear => True
  | _ => False
  end.

(** A user who types the queries [qs] one after the other, under the
    props [p]. *)
Definition useSearchTyping (p : UseSearch.Props) (qs : list str)
  : list (UseSearch.Props * UseSearch.Event) :=
  map (fun q => (p, UseSearch.SetQuery q)) qs.

(** ** [useSelect]: the selection, the input and the option elements

    What the hook derives from its state at a render: the [selected] item
    and the handlers that [getInputProps] and [getOptionProps] give to the
    elements.  A handler reads the state of the render that created it;
    each event below is handled by the handlers of the latest render. *)

Module UseSelectInput.
Import UseSelect.

(** [controlledSelected !== undefined ? controlledSelected
    : internalSelected]. *)
Definition selected (p : Props) (st : State) : option SearchItem :=
  match controlledSelected p with
  | Some s => s
  | None => internalSelected st
  end.

(** An item or [null] as a condition. *)
Definition truthy (s : option SearchItem) : bool :=
  match s with
  | Some _ => true
  | None => false
  end.

(** [onKeyDown]: the [switch] over [e.key]. *)
Definition onKeyDown (p : Props) (key : str) (st : State) : State :=
  if str_eqb key (lit "ArrowDown") then
    if negb (isOpen st) then open st else highlightNext p st
  else if str_eqb key (lit "ArrowUp") then highlightPrevious p st
  else if str_eqb key (lit "Enter") then
    if isOpen st && (0 <=? highlightedIndex st)%Z
    then selectHighlighted p st
    else st
  else if str_eqb key (lit "Escape") then close st
  else if str_eqb key (lit "Backspace") then
    if (length (query st) =? 0) && truthy (selected p st) && allowClear p
    then clear p st
    else st
  else st.

(** [onChange] and [onFocus] of the input. *)
Definition onChange (p : Props) (value : str) (st : State) : State :=
  setQuery p value st.

Definition onFocus (st : State) : State := open st.

(** [onClick] and [onMouseEnter] of the option at [index]. *)
Definition onClick (p : Props) (option : RankedItem) (st : State) : State :=
  select p (Some (item option)) st.

Definition onMouseEnter (index : Z) (st : State) : State :=
  setHighlightedIndex index st.

(** The keys pressed one after the other. *)
Definition pressKeys (p : Props) (keys : list str) (st : State) : State :=
  fold_left (fun s key => onKeyDown p key s) keys st.

End UseSelectInput.

(** The request of the current controller has not settled yet. *)
Definition useSelectPending (st : UseSelect.State) : bool :=
  match UseSelect.abortControllerRef st with
  | Some c =>
      existsb (fun k => UseSelect.callSignal k =? c) (UseSelect.inFlight st)
  | None => false
  end.

(** ** Notions for the paragraph chunker *)

(** The pieces [paras] occur in [s] one after the other, in this order. *)
Fixpoint occursInOrder (s : str) (paras : list str) : Prop :=
  match paras with
  | [] => True
  | p :: ps =>
      exists pre rest, s = pre ++ p ++ rest /\ occursInOrder rest ps
  end.

(** A raw chunk spans at least one character of the text and carries the
    trimmed text of its span, which is not empty. *)
Definition spansText (txt : str) (c : RawChunk) : Prop :=
  (0 <= rawStart c < rawEnd c)%Z
  /\ (rawEnd c <= Z.of_nat (length txt))%Z
  /\ rawText c = trim (slice txt (rawStart c) (rawEnd c))
  /\ rawText c <> [].

(** ** The text tasks of [createClient]: [generate], [complete], [dispose] *)

(** The language model collaborator, [generateText] of the AI SDK: from the
    request to the promised text and its usage. *)
Record GenerateRequest := mkRequest {
  requestSystem : str;
  requestPrompt : str;
  maxOutputTokens : nat;
  temperature : R;
  enableThinking : bool
}.

Record Usage := mkUsage {
  inputTokens : option nat;
  outputTokens : option nat
}.

Record GenerateResponse := mkResponse {
  responseText : str;
  usage : option Usage
}.

Record LanguageProvider := mkLanguageProvider {
  generateText : GenerateRequest -> Completion GenerateResponse
}.

(** [Partial<GenerateParams>], as far as [generate] reads it. *)
Record GenerateParams := mkParams {
  paramMaxTokens : option nat;
  paramTemperature : option R;
  paramThink : option bool
}.

Record PromptContent := mkPromptContent {
  system : str;
  user : str;
  thinking : option bool
}.

Inductive OperationType :=
| RewriteFriendly
| RewriteConcise
| Complete
| Summarize
| Explain.

(** A prompt strategy; the optional methods are [None] when the strategy
    does not have them. *)
Record PromptStrategy := mkStrategy {
  parseResponse : str -> str;
  getDefaultParams : option GenerateParams;
  getPromptContent : option (OperationType -> option (str -> PromptContent))
}.

(** The variables of [createClient]: the language provider, the strategy,
    [options.modelId], and the variables that the search functions read. *)
Record ClientVars := mkClientVars {
  provider : option LanguageProvider;
  strategy : PromptStrategy;
  modelId : str;
  searchVars : Client
}.

(** The result of [generate]. *)
Record Generated := mkGenerated {
  generatedText : str;
  generatedTokensIn : nat;
  generatedTokensOut : nat
}.

Record TextResult := mkTextResult {
  output : str;
  resultModelId : str;
  tokensIn : nat;
  tokensOut : nat
}.

(** [a ?? b] for an optional [a]. *)
Definition orElse (A : Type) (a : option A) (b : A) : A :=
  match a with
  | Some x => x
  | None => b
  end.

Definition generate (cl : ClientVars) (systemPrompt userPrompt : str)
  (maxTokens : option nat) (think : option bool) : Completion Generated :=
  match provider cl with
  | None => Rejected (Error "Client not initialized")
  | Some pr =>
      let params := orElse (getDefaultParams (strategy cl))
                      (mkParams None None None) in
      let enable := orElse think (orElse (paramThink params) false) in
      match generateText pr
              (mkRequest systemPrompt userPrompt
                 (orElse maxTokens (orElse (paramMaxTokens params) 256))
                 (orElse (paramTemperature params) 0%R)
                 enable) with
      | Rejected e => Rejected e
      | Fulfilled result =>
          Fulfilled
            (mkGenerated
               (parseResponse (strategy cl) (responseText result))
               (orElse (match usage result with
                        | Some u => inputTokens u
                        | None => None
                        end) 0)
               (orElse (match usage result with
                        | Some u => outputTokens u
                        | None => None
                        end) 0))
      end
  end.

(** [complete(prefix, opts)], where [maxTokens] is [opts.maxTokens]. *)
Definition complete (cl : ClientVars) (prefix : str) (maxTokens : option nat)
  : Completion TextResult :=
  let promptBuilder :=
    match getPromptContent (strategy cl) with
    | Some get => get Complete
    | None => None
    end in
  let promptContent :=
    match promptBuilder with
    | Some build => build prefix
    | None => mkPromptContent (lit "Continue text naturally.") prefix None
    end in
  match generate cl (system promptContent) (user promptContent)
          (Some (orElse maxTokens 128)) (thinking promptContent) with
  | Rejected e => Rejected e
  | Fulfilled result =>
      let completion := generatedText result in
      let out := if startsWith completion prefix then completion
                 else prefix ++ completion in
      Fulfilled (mkTextResult out (modelId cl) (generatedTokensIn result)
                   (generatedTokensOut result))
  end.

(** [isReady()] and [dispose()]. *)
Definition isReady (cl : ClientVars) : bool := initialized (searchVars cl).

Definition dispose (cl : ClientVars) : ClientVars :=
  mkClientVars None (strategy cl) (modelId cl)
    (mkClient (embeddingProvider (searchVars cl)) false).

(** A language model that answers every request with the same text, and a
    strategy that leaves the response as it is. *)
Definition constantProvider (answer : str) : LanguageProvider :=
  mkLanguageProvider (fun _ => Fulfilled (mkResponse answer None)).

Definition plainStrategy : PromptStrategy := mkStrategy (fun s => s) None None.

Definition textClient (answer : str) : ClientVars :=
  mkClientVars (Some (constantProvider answer)) plainStrategy
    (lit "qwen3-0.6b") agreeingClient.

(** ** The scores as JavaScript computes them: binary64

    The functions that compute, compare and sort scores, translated again
    with the numbers of the source: a JavaScript [number] is a binary64
    floating-point number ([float], the processor's format), and [+], [-],
    [*], [/], [Math.sqrt], [Math.min] and the comparisons are its
    operations, rounding, infinities, signed zeros and [NaN] included.  The
    definitions follow the ones above line by line; the numbers differ,
    and a query word that matches nothing adds nothing to [matchScore]
    (above it adds 0). *)

Module Binary64.
Import Floats.
Local Open Scope float_scope.
Local Set Warnings "-inexact-float".

(** [Math.min(x, y)]: [NaN] when an argument is [NaN], and [-0] is below
    [+0]. *)
Definition mathMin (x y : float) : float :=
  if is_nan x || is_nan y then nan
  else if x <? y then x
  else if y <? x then y
  else if get_sign x then x else y.

(** A size or a length as a number; exact below [2^53] (the sizes that a
    JavaScript collection can have are far below). *)
Definition ofNat (n : nat) : float :=
  of_uint63 (Uint63Axioms.of_Z (Z.of_nat n)).

Record RankedItem := mkRanked {
  item : SearchItem;
  score : float
}.

Record TextChunk := mkChunk {
  text : str;
  startOffset : Z;
  endOffset : Z;
  chunkScore : float
}.

Record SearchInTextOptions := mkOptions {
  chunkStrategy : option ChunkStrategy;
  maxResults : option Z;
  minScore : option float
}.

(** The embedding collaborator: [embedMany({ model, values })]. *)
Record EmbeddingProvider := mkProvider {
  embedMany : list str -> Completion (list (list float))
}.

Record Client := mkClient {
  embeddingProvider : option EmbeddingProvider;
  initialized : bool
}.

(** *** [cosineSimilarity] *)

Record CosineSums := mkSums {
  dotProduct : float;
  normA : float;
  normB : float
}.

(** The [for] loop over the indices [0 .. a.length - 1]. *)
Definition cosineLoop (a b : list float) : CosineSums :=
  fold_left
    (fun acc i =>
       let ai := nth i a 0 in
       let bi := nth i b 0 in
       mkSums (dotProduct acc + ai * bi)
              (normA acc + ai * ai)
              (normB acc + bi * bi))
    (seq 0 (length a)) (mkSums 0 0 0).

Definition cosineSimilarity (a b : list float) : float :=
  if (length a =? 0)%nat || (length b =? 0)%nat
     || negb (length a =? length b)%nat
  then 0
  else
    let sums := cosineLoop a b in
    let denominator := sqrt (normA sums) * sqrt (normB sums) in
    if denominator =? 0 then 0
    else dotProduct sums / denominator.

(** The sums that the loop computes, term after term from the left. *)
Definition dot (a b : list float) : float :=
  fold_left (fun acc p => acc + fst p * snd p) (combine a b) 0.

Definition sumSquares (a : list float) : float :=
  fold_left (fun acc x => acc + x * x) a 0.

(** *** [searchItems] *)

Definition keywordBoost (queryLower : str) (queryTokens : list str)
  (searchText : str) (it : SearchItem) : float :=
  if includes (toLowerCase (label it)) queryLower then 0.3
  else if match keywords it with
          | Some ks => existsb (fun k => includes (toLowerCase k) queryLower) ks
          | None => false
          end then 0.25
  else if existsb (fun qt => includes searchText qt) queryTokens then 0.15
  else 0.

(** [(a, b) => b.score - a.score]: [a] stays in front of [b] unless the
    difference is positive (a [NaN] difference counts as 0). *)
Definition byItemScore (a b : RankedItem) : bool :=
  negb (0 <? score b - score a).

Definition byScore (a b : TextChunk) : bool :=
  negb (0 <? chunkScore b - chunkScore a).

(** [embeddings[i] ? cosineSimilarity(q, embeddings[i]) : 0]. *)
Definition embeddingScoreAt (embeddings : list (list float))
  (q : list float) (i : nat) : float :=
  match nth_error embeddings i with
  | Some e => cosineSimilarity q e
  | None => 0
  end.

(** The body of the [try] block. *)
Definition embeddingRank (p : EmbeddingProvider) (query : str)
  (items : list SearchItem) : Completion (list RankedItem) :=
  let itemTexts := map itemText items in
  let values := query :: itemTexts in
  match embedMany p values with
  | Rejected e => Rejected e
  | Fulfilled embeddings =>
      if negb (length embeddings =? length items + 1)%nat
      then Rejected (Error "Invalid embeddings")
      else
        match nth_error embeddings 0 with
        | None => Rejected (Error "Empty query embedding")
        | Some queryEmbedding =>
            if (length queryEmbedding =? 0)%nat
            then Rejected (Error "Empty query embedding")
            else
              let queryLower := toLowerCase query in
              let queryTokens := tokenize query in
              let scored :=
                mapi (fun it i =>
                        let embeddingScore :=
                          embeddingScoreAt embeddings queryEmbedding (i + 1) in
                        let searchText :=
                          match nth_error itemTexts i with
                          | Some t => toLowerCase t
                          | None => []
                          end in
                        let boost :=
                          keywordBoost queryLower queryTokens searchText it in
                        mkRanked it (mathMin (embeddingScore + boost) 1))
                     items in
              Fulfilled (jsSort byItemScore scored)
        end
  end.

(** The inner [for] loop over [itemWords], left at the first match: what it
    adds to [matchScore], if anything. *)
Fixpoint partialMatch (qWord : str) (itemWords : list str) : option float :=
  match itemWords with
  | [] => None
  | itemWord :: rest =>
      if startsWith itemWord qWord || startsWith qWord itemWord then Some 0.5
      else partialMatch qWord rest
  end.

(** What one query word adds to [matchScore], if anything. *)
Definition wordCredit (itemWords : list str) (searchText qWord : str)
  : option float :=
  if setHas itemWords qWord then Some 1.0
  else if includes searchText qWord then Some 0.7
  else partialMatch qWord itemWords.

Definition lexicalScore (queryWords : list str) (it : SearchItem) : float :=
  let searchText := toLowerCase (join (lit " ") (itemParts it)) in
  let itemWords := newSet (tokenize searchText) in
  let matchScore :=
    fold_left
      (fun m qWord =>
         match wordCredit itemWords searchText qWord with
         | Some credit => m + credit
         | None => m
         end)
      queryWords 0 in
  mathMin (matchScore / ofNat (length queryWords)) 1.

(** The code after the [if (embeddingProvider && initialized)] block. *)
Definition lexicalRank (query : str) (items : list SearchItem)
  : list RankedItem :=
  let queryWords := newSet (tokenize query) in
  if (length queryWords =? 0)%nat then map (fun it => mkRanked it 0) items
  else jsSort byItemScore
         (map (fun it => mkRanked it (lexicalScore queryWords it)) items).

Definition searchItems (client : Client) (query : str)
  (items : list SearchItem) (signal : option bool)
  : Completion (list RankedItem) :=
  if (length items =? 0)%nat then Fulfilled []
  else if aborted signal then Rejected (AbortError "Search aborted")
  else
    match embeddingProvider client, initialized client with
    | Some p, true =>
        match embeddingRank p query items with
        | Fulfilled scored => Fulfilled scored
        | Rejected err =>
            if isAbortError err then Rejected err
            else Fulfilled (lexicalRank query items)
        end
    | _, _ => Fulfilled (lexicalRank query items)
    end.

(** *** [searchInText] *)

(** [maxResults], [minScore]: the values in force for the options. *)
Definition maxResultsOf (opts : SearchInTextOptions) : Z :=
  match maxResults opts with Some n => n | None => 5%Z end.

Definition minScoreOf (opts : SearchInTextOptions) : float :=
  match minScore opts with Some m => m | None => 0.3 end.

Definition searchInText (client : Client) (query txt : str)
  (opts : SearchInTextOptions) (signal : option bool)
  : Completion (list TextChunk) :=
  if aborted signal then Rejected (AbortError "Search aborted")
  else
    let strategy :=
      match chunkStrategy opts with Some c => c | None => Sentences end in
    let maxRes := maxResultsOf opts in
    let minSc := minScoreOf opts in
    let rawChunks :=
      match strategy with
      | Paragraphs => chunkByParagraphs txt
      | Sentences => chunkBySentences txt
      end in
    if (length rawChunks =? 0)%nat then Fulfilled []
    else
      match embeddingProvider client, initialized client with
      | Some p, true =>
          let chunkTexts := map rawText rawChunks in
          let values := query :: chunkTexts in
          match embedMany p values with
          | Rejected e => Rejected e
          | Fulfilled embeddings =>
              if negb (length embeddings =? length values)%nat
              then Rejected (Error "Invalid embeddings response")
              else
                match nth_error embeddings 0 with
                | None => Rejected (Error "Empty query embedding")
                | Some queryEmbedding =>
                    if (length queryEmbedding =? 0)%nat
                    then Rejected (Error "Empty query embedding")
                    else
                      let scored :=
                        mapi (fun c i =>
                                mkChunk (rawText c) (rawStart c) (rawEnd c)
                                  (embeddingScoreAt embeddings queryEmbedding
                                     (i + 1)))
                             rawChunks in
                      Fulfilled
                        (sliceTo
                           (jsSort byScore
                              (filter (fun c => minSc <=? chunkScore c)
                                 scored))
                           maxRes)
                end
          end
      | _, _ =>
          Rejected (Error "Embedding provider not initialized for text search")
      end.

(** *** The numbers of the format, for the proofs *)

(** The value of a number of the format, scaled by [2 ^ - emin] so that it
    is an integer; an infinity lies beyond every finite number. *)
Definition scaled (x : spec_float) : Z :=
  match x with
  | S754_zero _ => 0
  | S754_finite s m e => cond_Zopp s (Zpos m * 2 ^ (e - emin))
  | S754_infinity s => cond_Zopp s (2 ^ (emax - emin + 1))
  | S754_nan => 0
  end.

Definition isNaN (x : spec_float) : bool :=
  match x with
  | S754_nan => true
  | _ => false
  end.

Definition fval (x : float) : Z := scaled (Prim2SF x).

(** A number that is not negative: a zero of either sign, a positive
    number or the positive infinity. *)
Definition notNegative (x : spec_float) : bool :=
  match x with
  | S754_zero _ => true
  | S754_infinity s | S754_finite s _ _ => negb s
  | S754_nan => false
  end.

(** *** Collaborators for the examples *)

(** A collaborator that answers every batch with a query vector and one
    candidate vector pointing the opposite way. *)
Definition oppositeProvider : EmbeddingProvider :=
  mkProvider (fun _ => Fulfilled [[1]; [-1]]).

Definition oppositeClient : Client := mkClient (Some oppositeProvider) true.

(** A collaborator that answers every batch with three equal vectors of
    three components. *)
Definition diagonalProvider : EmbeddingProvider :=
  mkProvider (fun _ => Fulfilled [[1; 1; 1]; [1; 1; 1]; [1; 1; 1]]).

Definition diagonalClient : Client := mkClient (Some diagonalProvider) true.

(** A collaborator whose second candidate is nearer to the query than its
    first. *)
Definition rankingProvider : EmbeddingProvider :=
  mkProvider (fun _ => Fulfilled [[1; 0]; [1; 1]; [1; 0]]).

Definition rankingClient : Client := mkClient (Some rankingProvider) true.

(** A collaborator whose vectors have components so large that their
    squares overflow. *)
Definition overflowProvider : EmbeddingProvider :=
  mkProvider (fun _ => Fulfilled [[1e200]; [1e200]]).

Definition overflowClient : Client := mkClient (Some overflowProvider) true.

Definition defaultOptions : SearchInTextOptions := mkOptions None None None.

End Binary64.

(** * Theorems *)

Lemma str_eqb_eq (a b : str) : str_eqb a b = true <-> a = b.
Proof.
  unfold str_eqb; destruct (list_eq_dec ascii_dec a b); split; congruence.
Qed.

(** ** The sentence chunker *)

Lemma matchSentence_lengths (s m rest : str) :
  matchSentence s = Some (m, rest) ->
  length s = length m + length rest /\ 0 < length m.
Proof.
  unfold matchSentence.
  assert (Hsplit : forall (p : ascii -> bool) (t : str),
             length t = length (takeWhile p t) + length (dropWhile p t)).
  { intros p t. induction t as [| c t IH]; simpl; [reflexivity |].
    destruct (p c); simpl; lia. }
  set (notTerm := fun c => negb (isTerminator c)).
  pose proof (Hsplit notTerm s) as H1.
  pose proof (Hsplit isTerminator (dropWhile notTerm s)) as H2.
  destruct (takeWhile isTerminator (dropWhile notTerm s)) as [| c terms];
    [discriminate |].
  intros H. injection H as <- <-.
  rewrite length_app. simpl in *. lia.
Qed.

(** The bound on the number of matches is never reached: more fuel gives
    the same matches. *)
Lemma matchAllFrom_fuel (fuel1 fuel2 index : nat) (s : str) :
  length s < fuel1 -> length s < fuel2 ->
  matchAllFrom fuel1 index s = matchAllFrom fuel2 index s.
Proof.
  revert fuel2 index s.
  induction fuel1 as [| fuel1 IH]; intros fuel2 index s H1 H2; [lia |].
  destruct fuel2 as [| fuel2]; [lia |].
  simpl. destruct (matchSentence s) as [[m rest] |] eqn:E; [| reflexivity].
  destruct (@matchSentence_lengths _ _ _ E) as [Hlen Hm].
  f_equal. apply IH; lia.
Qed.

Lemma matchAll_fuel (fuel : nat) (txt : str) :
  length txt < fuel -> matchAllFrom fuel 0 txt = matchAll txt.
Proof.
  intros H. apply matchAllFrom_fuel; [exact H | lia].
Qed.

Lemma chunkBySentences_two_sentences :
  chunkBySentences (lit "Hello world. How are you?")
  = [ mkRawChunk (lit "Hello world.") 0 12;
      mkRawChunk (lit "How are you?") 12 25 ]%Z.
Proof. vm_compute. reflexivity. Qed.

(** C5 (amended).  [chunkBySentences("Hello world. How are
    you?")] returns exactly two chunks; the first is ["Hello world."] at
    offsets 0 to 12, the second has the trimmed text ["How are you?"] and the
    offsets of the untrimmed match: it starts at 12, the position of the
    space after the first sentence, and ends at 25.  The regular expression
    matches ["Hello world."] at 0 and [" How are you?"] at 12. *)
Theorem chunkBySentences_hello_world :
  matchAll (lit "Hello world. How are you?")
  = [ mkMatch (lit "Hello world.") 0; mkMatch (lit " How are you?") 12 ]
  /\ chunkBySentences (lit "Hello world. How are you?")
     = [ mkRawChunk (lit "Hello world.") 0 12;
         mkRawChunk (lit "How are you?") 12 25 ]%Z.
Proof.
  split.
  - vm_compute. reflexivity.
  - apply chunkBySentences_two_sentences.
Qed.

(** C5 (as stated) fails: the second chunk does not start at offset 13. *)
Lemma chunkBySentences_hello_world_not_13 :
  chunkBySentences (lit "Hello world. How are you?")
  <> [ mkRawChunk (lit "Hello world.") 0 12;
       mkRawChunk (lit "How are you?") 13 25 ]%Z.
Proof. vm_compute. discriminate. Qed.

(** ** Strings and slices *)

Lemma sliceBound_in_range (len : nat) (i : Z) :
  (0 <= i <= Z.of_nat len)%Z -> sliceBound len i = Z.to_nat i.
Proof.
  intros H. unfold sliceBound.
  destruct (Z.ltb_spec i 0); lia.
Qed.

Lemma slice_nat (s : str) (a b : Z) :
  (0 <= a <= b)%Z -> (b <= Z.of_nat (length s))%Z ->
  slice s a b = firstn (Z.to_nat b - Z.to_nat a) (skipn (Z.to_nat a) s).
Proof.
  intros Hab Hb. unfold slice.
  rewrite !sliceBound_in_range by lia. reflexivity.
Qed.

Lemma firstn_skipn_split (A : Type) (s : list A) (a b c : nat) :
  a <= b <= c ->
  firstn (b - a) (skipn a s) ++ firstn (c - b) (skipn b s)
  = firstn (c - a) (skipn a s).
Proof.
  intros H.
  replace (skipn b s) with (skipn (b - a) (skipn a s))
    by (rewrite skipn_skipn; f_equal; lia).
  replace (c - a) with ((b - a) + (c - b)) by lia.
  generalize (skipn a s) as t, (b - a) as n, (c - b) as m.
  intros t n; revert t.
  induction n as [| n IH]; intros [| x t] m; simpl;
    rewrite ?firstn_nil; auto.
  f_equal. apply IH.
Qed.

Lemma slice_app (s : str) (a b c : Z) :
  (0 <= a <= b)%Z -> (b <= c)%Z -> (c <= Z.of_nat (length s))%Z ->
  slice s a b ++ slice s b c = slice s a c.
Proof.
  intros Hab Hbc Hc.
  rewrite !slice_nat by lia.
  apply firstn_skipn_split. lia.
Qed.

Lemma slice_empty (s : str) (a : Z) :
  (0 <= a <= Z.of_nat (length s))%Z -> slice s a a = [].
Proof.
  intros H. rewrite slice_nat by lia. rewrite Nat.sub_diag. reflexivity.
Qed.

Lemma slice_sliceFrom (s : str) (a : Z) :
  (0 <= a <= Z.of_nat (length s))%Z ->
  slice s 0 a ++ sliceFrom s a = s.
Proof.
  intros H. rewrite slice_nat by lia. unfold sliceFrom.
  rewrite sliceBound_in_range by lia.
  simpl. rewrite Nat.sub_0_r. apply firstn_skipn.
Qed.

Lemma slice_whole (s : str) : slice s 0 (Z.of_nat (length s)) = s.
Proof.
  rewrite slice_nat by lia. simpl.
  rewrite Nat.sub_0_r, Nat2Z.id. apply firstn_all.
Qed.

(** ** The stable sort *)

Section SortFacts.
Variable A : Type.
Variable before : A -> A -> bool.

Lemma insertSorted_perm (x : A) (l : list A) :
  Permutation (insertSorted before x l) (x :: l).
Proof.
  induction l as [| y l IH]; simpl; [reflexivity |].
  destruct (before x y); [reflexivity |].
  rewrite IH. apply perm_swap.
Qed.

Lemma jsSort_perm (l : list A) : Permutation (jsSort before l) l.
Proof.
  induction l as [| x l IH]; simpl; [reflexivity |].
  rewrite insertSorted_perm. now constructor.
Qed.

Lemma jsSort_In (l : list A) (x : A) : In x (jsSort before l) <-> In x l.
Proof.
  split; apply Permutation_in;
    [apply jsSort_perm | symmetry; apply jsSort_perm].
Qed.

Lemma jsSort_length (l : list A) : length (jsSort before l) = length l.
Proof. apply Permutation_length, jsSort_perm. Qed.

Hypothesis before_total :
  forall x y, before x y = false -> before y x = true.
Hypothesis before_trans :
  forall x y z, before x y = true -> before y z = true -> before x z = true.

Lemma insertSorted_sorted (x : A) (l : list A) :
  StronglySorted (fun a b => before a b = true) l ->
  StronglySorted (fun a b => before a b = true) (insertSorted before x l).
Proof.
  induction 1 as [| y l Hs IH Hy]; simpl.
  - repeat constructor.
  - destruct (before x y) eqn:E.
    + constructor; [now constructor |].
      constructor; [exact E |].
      rewrite Forall_forall in *. eauto.
    + constructor; [exact IH |].
      rewrite Forall_forall in *. intros z Hz.
      apply (Permutation_in _ (insertSorted_perm x l)) in Hz.
      destruct Hz as [<- | Hz]; auto.
Qed.

Lemma jsSort_sorted (l : list A) :
  StronglySorted (fun a b => before a b = true) (jsSort before l).
Proof.
  induction l as [| x l IH]; simpl.
  - constructor.
  - now apply insertSorted_sorted.
Qed.
End SortFacts.

Lemma In_firstn_inv (A : Type) (n : nat) (l : list A) (x : A) :
  In x (firstn n l) -> In x l.
Proof.
  revert l. induction n as [| n IH]; intros [| y l]; simpl; auto.
  - contradiction.
  - intros [H | H]; auto.
Qed.

Lemma StronglySorted_firstn (A : Type) (R : A -> A -> Prop) (n : nat)
  (l : list A) :
  StronglySorted R l -> StronglySorted R (firstn n l).
Proof.
  intros H; revert n.
  induction H as [| x l Hs IH Hx]; intros [| n]; simpl; try constructor.
  - apply IH.
  - rewrite Forall_forall in *. intros y Hy.
    apply Hx. eapply (In_nth_error) in Hy. destruct Hy as [k Hk].
    apply nth_error_In with (n := k).
    rewrite nth_error_firstn in Hk.
    destruct (k <? n); [exact Hk | discriminate].
Qed.

(** ** The highlight projector *)

Lemma ForallOrdPairs_perm (A : Type) (R : A -> A -> Prop) (l l' : list A) :
  (forall x y, R x y -> R y x) ->
  Permutation l l' -> ForallOrdPairs R l -> ForallOrdPairs R l'.
Proof.
  intros Hsym Hp.
  induction Hp as [| x l l' Hp IH | x y l | l l' l'' Hp1 IH1 Hp2 IH2];
    intros H; auto.
  - inversion H; subst. constructor; auto.
    eapply Permutation_Forall; eauto.
  - inversion H as [| ? ? Hy Hrest]; subst.
    inversion Hrest as [| ? ? Hx Hl]; subst.
    inversion Hy; subst.
    repeat constructor; auto.
Qed.

Lemma renderedText_snoc (segs : list HighlightedSegment)
  (seg : HighlightedSegment) :
  renderedText (segs ++ [seg]) = renderedText segs ++ segText seg.
Proof.
  unfold renderedText. rewrite map_app, concat_app. simpl.
  now rewrite app_nil_r.
Qed.

Lemma projectChunks_render (txt : str) (sorted : list TextChunk) :
  forall (segs : list HighlightedSegment) (cursor : Z),
    (0 <= cursor <= Z.of_nat (length txt))%Z ->
    Forall (exactChunk txt) sorted ->
    StronglySorted (fun a b => byStartOffset a b = true) sorted ->
    ForallOrdPairs disjointChunks sorted ->
    Forall (fun c => (cursor <= startOffset c)%Z) sorted ->
    let '(segs', cursor') := projectChunks txt sorted segs cursor in
    renderedText segs' = renderedText segs ++ slice txt cursor cursor'
    /\ (cursor <= cursor' <= Z.of_nat (length txt))%Z.
Proof.
  induction sorted as [| c rest IH]; intros segs cursor Hcur Hex Hsort Hdis Hge.
  - simpl. rewrite slice_empty by lia. rewrite app_nil_r. split; [auto | lia].
  - inversion Hex as [| ? ? [Hc1 [Hc2 Hc3]] Hex']; subst.
    inversion Hsort as [| ? ? Hsort' Hc_le]; subst.
    inversion Hdis as [| ? ? Hc_dis Hdis']; subst.
    inversion Hge as [| ? ? Hc_ge _]; subst.
    simpl.
    set (segs1 := if (cursor <? startOffset c)%Z then _ else segs).
    assert (H1 : renderedText segs1
                 = renderedText segs ++ slice txt cursor (startOffset c)).
    { subst segs1. destruct (Z.ltb_spec cursor (startOffset c)).
      - now rewrite renderedText_snoc.
      - replace (startOffset c) with cursor by lia.
        rewrite slice_empty by lia. now rewrite app_nil_r. }
    assert (Hnext : Forall (fun c' => (endOffset c <= startOffset c')%Z) rest).
    { rewrite Forall_forall in *. intros c' Hin.
      specialize (Hc_le c' Hin). specialize (Hc_dis c' Hin).
      destruct (Hex' c' Hin) as [Hs' _].
      unfold byStartOffset in Hc_le. apply Z.leb_le in Hc_le.
      destruct Hc_dis; lia. }
    specialize (IH (segs1 ++ [mkSegment (text c) true (Some (score c))])
                  (endOffset c)).
    destruct (projectChunks txt rest _ (endOffset c)) as [segs' cursor'].
    destruct IH as [IHr IHc]; auto; [lia |].
    split; [| lia].
    rewrite IHr, renderedText_snoc, H1. simpl. rewrite Hc3.
    rewrite <- !app_assoc. f_equal.
    rewrite app_assoc, slice_app by lia.
    apply slice_app; lia.
Qed.

Lemma byStartOffset_total (a b : TextChunk) :
  byStartOffset a b = false -> byStartOffset b a = true.
Proof.
  unfold byStartOffset. rewrite Z.leb_le, Z.leb_gt. lia.
Qed.

Lemma byStartOffset_trans (a b c : TextChunk) :
  byStartOffset a b = true -> byStartOffset b c = true ->
  byStartOffset a c = true.
Proof.
  unfold byStartOffset. rewrite !Z.leb_le. lia.
Qed.

Lemma disjointChunks_sym (a b : TextChunk) :
  disjointChunks a b -> disjointChunks b a.
Proof. unfold disjointChunks. tauto. Qed.

(** X31.  The segments reproduce the original text exactly when there is
    no chunk or the text is empty, and when the chunks lie inside the text,
    do not overlap each other, and each carries as its text exactly the
    text between its offsets. *)
Theorem computeHighlightedSegments_round_trip (txt : str)
  (results : list TextChunk) :
  (results = [] \/ txt = [] ->
   renderedText (computeHighlightedSegments txt results) = txt)
  /\ (Forall (exactChunk txt) results ->
      ForallOrdPairs disjointChunks results ->
      renderedText (computeHighlightedSegments txt results) = txt).
Proof.
  split.
  - intros [-> | ->]; unfold computeHighlightedSegments.
    + simpl. apply app_nil_r.
    + rewrite orb_true_r. reflexivity.
  - intros Hex Hdis. unfold computeHighlightedSegments.
    destruct ((length results =? 0) || (length txt =? 0)).
    + simpl. apply app_nil_r.
    + pose proof (jsSort_perm byStartOffset results) as Hperm.
      pose proof (@projectChunks_render txt (jsSort byStartOffset results)
                    [] 0%Z) as H.
      destruct (projectChunks txt (jsSort byStartOffset results) [] 0%Z)
        as [segs cursor].
      destruct H as [Hr Hc].
      * lia.
      * eapply Permutation_Forall; [symmetry; exact Hperm | exact Hex].
      * apply jsSort_sorted;
          [apply byStartOffset_total | apply byStartOffset_trans].
      * eapply ForallOrdPairs_perm;
          [apply disjointChunks_sym | symmetry; exact Hperm | exact Hdis].
      * eapply Permutation_Forall; [symmetry; exact Hperm |].
        eapply Forall_impl; [| exact Hex].
        intros c [Hc _]. simpl. lia.
      * simpl in Hr.
        destruct (Z.ltb_spec cursor (Z.of_nat (length txt))).
        -- rewrite renderedText_snoc, Hr. simpl.
           apply slice_sliceFrom. lia.
        -- rewrite Hr. replace cursor with (Z.of_nat (length txt)) by lia.
           apply slice_whole.
Qed.

(** C1 fails in the code.  On the chunks that [chunkBySentences] makes of
    ["Hello world. How are you?"], which are the ones that [searchInText]
    returns to the hook (lemma [searchInText_hello_world]), the second chunk
    covers the offsets 12 to 25 and carries the trimmed text: the projector
    writes the trimmed text and moves to offset 25, so the space at offset
    12 is lost and the segments spell ["Hello world.How are you?"]. *)
Lemma computeHighlightedSegments_loses_space :
  let txt := lit "Hello world. How are you?" in
  renderedText
    (computeHighlightedSegments txt (scoredChunks 1 (chunkBySentences txt)))
  = lit "Hello world.How are you?"
  /\ renderedText
       (computeHighlightedSegments txt (scoredChunks 1 (chunkBySentences txt)))
     <> txt.
Proof.
  split.
  - vm_compute. reflexivity.
  - vm_compute. discriminate.
Qed.

Lemma computeHighlightedSegments_round_trip_witness :
  let txt := lit "Hello world. How are you?" in
  let results := [ mkChunk (lit " How are you?") 12 25 0.5;
                   mkChunk (lit "Hello world.") 0 12 0.9 ] in
  Forall (exactChunk txt) results
  /\ ForallOrdPairs disjointChunks results
  /\ renderedText (computeHighlightedSegments txt results) = txt.
Proof.
  intros txt results.
  assert (Hex : Forall (exactChunk txt) results).
  { subst txt results.
    repeat (apply Forall_cons || apply Forall_nil);
      (split; [simpl; lia | split; [simpl; lia | reflexivity]]). }
  assert (Hdis : ForallOrdPairs disjointChunks results).
  { subst results.
    apply FOP_cons; [| apply FOP_cons; [apply Forall_nil | apply FOP_nil]].
    apply Forall_cons; [| apply Forall_nil].
    right. simpl. lia. }
  split; [exact Hex | split; [exact Hdis |]].
  exact (proj2 (computeHighlightedSegments_round_trip txt results) Hex Hdis).
Defined.

(** ** [cosineSimilarity] *)

Section Cosine.
Local Open Scope R_scope.

Lemma Reqb_true (x y : R) : Reqb x y = true <-> x = y.
Proof. unfold Reqb. destruct (Req_dec_T x y); split; congruence. Qed.

Lemma Rleb_true (x y : R) : Rleb x y = true <-> x <= y.
Proof. unfold Rleb. destruct (Rle_dec x y); split; auto; discriminate. Qed.

Lemma Rleb_false (x y : R) : Rleb x y = false <-> y < x.
Proof.
  unfold Rleb. destruct (Rle_dec x y); split; intros H;
    try discriminate; try lra; auto.
Qed.

(** The loop over the indices computes the three sums. *)
Lemma cosineLoop_from (a b pa pb : list R) (acc : CosineSums) :
  length a = length b -> length pa = length pb ->
  fold_left
    (fun acc i =>
       let ai := nth i (pa ++ a) 0 in
       let bi := nth i (pb ++ b) 0 in
       mkSums (dotProduct acc + ai * bi)
              (normA acc + ai * ai)
              (normB acc + bi * bi))
    (seq (length pa) (length a)) acc
  = mkSums (dotProduct acc + dot a b)
           (normA acc + dot a a)
           (normB acc + dot b b).
Proof.
  revert b pa pb acc.
  induction a as [| x a IH]; intros [| y b] pa pb acc Hab Hp;
    try discriminate.
  - simpl. destruct acc; simpl. f_equal; ring.
  - simpl seq. simpl fold_left.
    rewrite !app_nth2 by lia.
    replace (length pa - length pb)%nat with 0%nat by lia.
    rewrite Nat.sub_diag. simpl nth.
    replace (pa ++ x :: a) with ((pa ++ [x]) ++ a)
      by (now rewrite <- app_assoc).
    replace (pb ++ y :: b) with ((pb ++ [y]) ++ b)
      by (now rewrite <- app_assoc).
    replace (S (length pa)) with (length (pa ++ [x]))
      by (rewrite length_app; simpl; lia).
    rewrite IH.
    + simpl. f_equal; ring.
    + simpl in Hab. lia.
    + rewrite !length_app. simpl. lia.
Qed.

Lemma cosineLoop_sums (a b : list R) :
  length a = length b ->
  cosineLoop a b = mkSums (dot a b) (dot a a) (dot b b).
Proof.
  intros H. unfold cosineLoop.
  pose proof (@cosineLoop_from a b [] [] (mkSums 0 0 0) H eq_refl) as L.
  simpl in L. rewrite L. f_equal; ring.
Qed.

Lemma cosineSimilarity_degenerate (a b : list R) :
  a = [] \/ b = [] \/ length a <> length b ->
  cosineSimilarity a b = 0.
Proof.
  intros H. unfold cosineSimilarity.
  destruct a as [| x a], b as [| y b]; simpl; auto.
  destruct H as [H | [H | H]]; try discriminate.
  simpl in H.
  destruct (Nat.eqb_spec (length a) (length b)); [lia | reflexivity].
Qed.

Lemma cosineSimilarity_regular (a b : list R) :
  a <> [] -> b <> [] -> length a = length b ->
  cosineSimilarity a b
  = if Reqb (norm a * norm b) 0 then 0 else dot a b / (norm a * norm b).
Proof.
  intros Ha Hb H. unfold cosineSimilarity.
  rewrite cosineLoop_sums by exact H. simpl.
  destruct a as [| x a]; [congruence |].
  destruct b as [| y b]; [congruence |].
  simpl length in *. rewrite H, Nat.eqb_refl. reflexivity.
Qed.

End Cosine.

(** ** The lexical scores over the real numbers: their range *)

Section Ranking.
Local Open Scope R_scope.





End Ranking.


Section RankingExamples.
Local Open Scope R_scope.

Lemma cosineSimilarity_same : cosineSimilarity [1] [1] = 1.
Proof.
  rewrite cosineSimilarity_regular by (auto; discriminate).
  assert (Ha : norm [1] = 1).
  { unfold norm. simpl. replace (1 * 1 + 0) with 1 by ring. apply sqrt_1. }
  rewrite Ha.
  destruct (Reqb (1 * 1) 0) eqn:E.
  - apply Reqb_true in E. lra.
  - simpl. field.
Qed.

Lemma searchInText_hello_world :
  searchInText agreeingClient (lit "you") (lit "Hello world. How are you?")
    defaultOptions None
  = Fulfilled
      (scoredChunks 1 (chunkBySentences (lit "Hello world. How are you?"))).
Proof.
  unfold searchInText. simpl aborted. cbv iota.
  simpl chunkStrategy. cbv iota.
  rewrite chunkBySentences_two_sentences. simpl.
  unfold embeddingScoreAt. simpl. rewrite cosineSimilarity_same.
  rewrite (proj2 (Rleb_true 0.3 1)) by lra.
  simpl. unfold byScore. simpl.
  rewrite (proj2 (Rleb_true (1 - 1) 0)) by lra.
  reflexivity.
Qed.

End RankingExamples.

(** ** Failures of the ranking functions *)

Lemma rawChunksOf_strategy (opts : SearchInTextOptions) (txt : str) :
  match match chunkStrategy opts with Some c => c | None => Sentences end with
  | Paragraphs => chunkByParagraphs txt
  | Sentences => chunkBySentences txt
  end = rawChunksOf opts txt.
Proof.
  unfold rawChunksOf. destruct (chunkStrategy opts) as [[|] |]; reflexivity.
Qed.

Lemma length_eqb_0 (A : Type) (l : list A) :
  (length l =? 0) = match l with [] => true | _ => false end.
Proof. destruct l; reflexivity. Qed.

(** C6 (amended).  Without an embedding provider, and with a signal that is
    not aborted, [searchInText] fails with the error of the missing provider
    whenever the text yields at least one chunk, and returns the empty list
    when the text yields none; in neither case is a chunk ranked. *)
Theorem searchInText_without_provider (client : Client) (query txt : str)
  (opts : SearchInTextOptions) (signal : option bool) :
  embeddingProvider client = None ->
  aborted signal = false ->
  (rawChunksOf opts txt <> [] ->
   searchInText client query txt opts signal
   = Rejected (Error "Embedding provider not initialized for text search"))
  /\ (rawChunksOf opts txt = [] ->
      searchInText client query txt opts signal = Fulfilled []).
Proof.
  intros Hp Ha. unfold searchInText.
  rewrite Ha, rawChunksOf_strategy, Hp, length_eqb_0.
  split; intros H; destruct (rawChunksOf opts txt); congruence.
Qed.

Lemma searchInText_without_provider_witness :
  searchInText lexicalClient (lit "you") (lit "Hello world. How are you?")
    defaultOptions None
  = Rejected (Error "Embedding provider not initialized for text search")
  /\ searchInText lexicalClient (lit "you") (lit "   ") defaultOptions None
     = Fulfilled [].
Proof.
  split.
  - apply (proj1 (@searchInText_without_provider lexicalClient (lit "you")
                    (lit "Hello world. How are you?") defaultOptions None
                    eq_refl eq_refl)).
    vm_compute. discriminate.
  - apply (proj2 (@searchInText_without_provider lexicalClient (lit "you")
                    (lit "   ") defaultOptions None eq_refl eq_refl)).
    vm_compute. reflexivity.
Defined.

(** C6 (as stated) fails on the empty text: without an embedding provider
    [searchInText] returns the empty list and reports no error. *)
Lemma searchInText_empty_text_no_error :
  embeddingProvider lexicalClient = None
  /\ searchInText lexicalClient (lit "you") (lit "") defaultOptions None
     = Fulfilled [].
Proof. split; reflexivity. Qed.

(** C7 (amended).  When the collaborator answers with a number of vectors
    other than the number of candidates plus one, or with an empty query
    vector, [searchInText] fails with an error (["Invalid embeddings
    response"], respectively ["Empty query embedding"]), while
    [searchItems] catches its own error and returns the lexical ranking of
    the items. *)
Theorem invalid_embedding_response (client : Client) (p : EmbeddingProvider)
  (query : str) (embeddings : list (list R)) (signal : option bool) :
  embeddingProvider client = Some p ->
  initialized client = true ->
  aborted signal = false ->
  (forall items,
      embedMany p (query :: map itemText items) = Fulfilled embeddings ->
      invalidResponse (length items) embeddings ->
      searchItems client query items signal
      = Fulfilled (lexicalRank query items))
  /\ (forall txt opts,
         rawChunksOf opts txt <> [] ->
         embedMany p (query :: map rawText (rawChunksOf opts txt))
         = Fulfilled embeddings ->
         invalidResponse (length (rawChunksOf opts txt)) embeddings ->
         searchInText client query txt opts signal
         = Rejected (Error (if length embeddings
                                =? length (rawChunksOf opts txt) + 1
                            then "Empty query embedding"
                            else "Invalid embeddings response"))).
Proof.
  intros Hp Hi Ha. split.
  - intros items He Hinv. unfold searchItems.
    rewrite Ha, Hp, Hi, length_eqb_0.
    destruct items as [| it items].
    { unfold lexicalRank. destruct (_ =? 0); reflexivity. }
    unfold embeddingRank. rewrite He.
    destruct (Nat.eqb_spec (length embeddings) (length (it :: items) + 1))
      as [E | E]; simpl negb; cbv iota; [| reflexivity].
    destruct Hinv as [Hn | Hq]; [contradiction |].
    rewrite Hq. reflexivity.
  - intros txt opts Hne He Hinv. unfold searchInText.
    rewrite Ha, rawChunksOf_strategy, Hp, Hi, length_eqb_0.
    destruct (rawChunksOf opts txt) as [| c cs] eqn:Hc; [congruence |].
    rewrite He.
    replace (length (query :: map rawText (c :: cs)))
      with (length (c :: cs) + 1)
      by (simpl; rewrite length_map; lia).
    destruct (Nat.eqb_spec (length embeddings) (length (c :: cs) + 1))
      as [E | E]; simpl negb; cbv iota; [| reflexivity].
    destruct Hinv as [Hn | Hq]; [contradiction |].
    rewrite Hq. reflexivity.
Qed.

Lemma invalid_embedding_response_witness :
  searchItems silentClient (lit "cat") [catItem; dogItem] None
  = Fulfilled (lexicalRank (lit "cat") [catItem; dogItem])
  /\ searchInText silentClient (lit "you") (lit "Hello world. How are you?")
       defaultOptions None
     = Rejected (Error "Invalid embeddings response").
Proof.
  pose proof (@invalid_embedding_response silentClient silentProvider
                (lit "cat") [] None eq_refl eq_refl eq_refl) as [Hitems _].
  pose proof (@invalid_embedding_response silentClient silentProvider
                (lit "you") [] None eq_refl eq_refl eq_refl) as [_ Htext].
  split.
  - apply Hitems; [reflexivity | left; simpl; lia].
  - apply (Htext (lit "Hello world. How are you?") defaultOptions).
    + vm_compute. discriminate.
    + reflexivity.
    + left. vm_compute. discriminate.
Defined.

(** C7 (as stated) fails for [searchItems]: the collaborator answers a batch
    of a query and two items with no vector, and [searchItems] returns the
    lexical ranking. *)
Lemma searchItems_recovers_silently :
  embedMany silentProvider
    (lit "cat" :: map itemText [catItem; dogItem]) = Fulfilled []
  /\ invalidResponse (length [catItem; dogItem]) []
  /\ searchItems silentClient (lit "cat") [catItem; dogItem] None
     = Fulfilled (lexicalRank (lit "cat") [catItem; dogItem]).
Proof.
  split; [reflexivity | split; [left; simpl; lia | reflexivity]].
Qed.

(** ** Tokens of a text joined from parts *)

Lemma splitSpaces_no_space (s cur : str) (inSep : bool) :
  Forall (fun c => isSpace c = false) cur ->
  Forall (Forall (fun c => isSpace c = false)) (splitSpaces s cur inSep).
Proof.
  revert cur inSep. induction s as [| c s IH]; intros cur inSep Hcur; simpl.
  - repeat constructor. exact Hcur.
  - destruct (isSpace c) eqn:E.
    + destruct inSep; [apply IH; constructor |].
      constructor; [exact Hcur | apply IH; constructor].
    + apply IH. apply Forall_app. split; [exact Hcur |].
      repeat constructor. exact E.
Qed.

Lemma words_are_tokens (s w : str) : In w (words s) -> isToken w.
Proof.
  unfold words. intros H. apply filter_In in H. destruct H as [Hin Hlen].
  split.
  - destruct w; [discriminate | discriminate].
  - pose proof (@splitSpaces_no_space s [] false (Forall_nil _)) as Hs.
    rewrite Forall_forall in Hs. now apply Hs.
Qed.

Lemma tokenize_tokens (s w : str) : In w (tokenize s) -> isToken w.
Proof. apply words_are_tokens. Qed.

Lemma words_inSep (s : str) :
  filter (fun w => 0 <? length w) (splitSpaces s [] true) = words s.
Proof.
  unfold words. destruct s as [| c s]; simpl; [reflexivity |].
  destruct (isSpace c); reflexivity.
Qed.

(** Splitting a text made of two texts around a white-space character. *)
Lemma splitSpaces_around (a b cur : str) (sp : ascii) (inSep : bool) :
  isSpace sp = true ->
  (inSep = true -> cur = []) ->
  filter (fun w => 0 <? length w) (splitSpaces (a ++ sp :: b) cur inSep)
  = filter (fun w => 0 <? length w) (splitSpaces a cur inSep) ++ words b.
Proof.
  intros Hsp. revert cur inSep.
  induction a as [| c a IH]; intros cur inSep Hinv; simpl.
  - rewrite Hsp. destruct inSep.
    + rewrite (Hinv eq_refl). simpl. apply words_inSep.
    + simpl. destruct (0 <? length cur); simpl; now rewrite words_inSep.
  - destruct (isSpace c).
    + destruct inSep.
      * apply IH. auto.
      * simpl. destruct (0 <? length cur); simpl;
          [f_equal |]; apply IH; auto.
    + apply IH. discriminate.
Qed.

Lemma words_join (sp : ascii) (parts : list str) :
  isSpace sp = true ->
  words (join [sp] parts) = concat (map words parts).
Proof.
  intros Hsp. induction parts as [| p ps IH]; [reflexivity |].
  destruct ps as [| p' ps].
  - simpl. now rewrite app_nil_r.
  - change (join [sp] (p :: p' :: ps)) with (p ++ sp :: join [sp] (p' :: ps)).
    unfold words at 1.
    rewrite splitSpaces_around by (auto; discriminate).
    rewrite IH. reflexivity.
Qed.

Lemma map_join (f : ascii -> ascii) (sep : str) (parts : list str) :
  map f (join sep parts) = join (map f sep) (map (map f) parts).
Proof.
  induction parts as [| p ps IH]; [reflexivity |].
  destruct ps as [| p' ps]; [reflexivity |].
  change (join sep (p :: p' :: ps)) with (p ++ sep ++ join sep (p' :: ps)).
  rewrite !map_app, IH. reflexivity.
Qed.


Lemma tokenize_words (s : str) : tokenize s = words (map normChar s).
Proof.
  unfold tokenize, words, blankPunctuation, toLowerCase.
  now rewrite map_map.
Qed.

Lemma lowerChar_idempotent (c : ascii) : lowerChar (lowerChar c) = lowerChar c.
Proof.
  destruct c as [[] [] [] [] [] [] [] []]; reflexivity.
Qed.

Lemma toLowerCase_idempotent (s : str) :
  toLowerCase (toLowerCase s) = toLowerCase s.
Proof.
  unfold toLowerCase. rewrite map_map. apply map_ext.
  apply lowerChar_idempotent.
Qed.

Lemma tokenize_toLowerCase (s : str) : tokenize (toLowerCase s) = tokenize s.
Proof.
  unfold tokenize. now rewrite toLowerCase_idempotent.
Qed.

(** The tokens of parts joined by spaces are the tokens of the parts. *)
Lemma tokenize_join (parts : list str) :
  tokenize (join (lit " ") parts) = concat (map tokenize parts).
Proof.
  rewrite tokenize_words, map_join.
  change (map normChar (lit " ")) with [" "%char].
  rewrite words_join by reflexivity.
  rewrite map_map. f_equal. apply map_ext.
  intros p. symmetry. apply tokenize_words.
Qed.









(** ** The lexical fallback against the specification's rule *)

Section Lexical.
Local Open Scope R_scope.

Lemma setHas_In (words : list str) (w : str) :
  setHas words w = true <-> In w words.
Proof.
  unfold setHas. rewrite existsb_exists. split.
  - intros [x [Hx He]]. apply str_eqb_eq in He. now subst.
  - intros H. exists w. split; [exact H | now apply str_eqb_eq].
Qed.

Lemma newSet_from (words acc : list str) :
  NoDup acc ->
  let s := fold_left
             (fun acc w => if setHas acc w then acc else acc ++ [w])
             words acc in
  NoDup s /\ (forall w, In w s <-> In w acc \/ In w words).
Proof.
  revert acc. induction words as [| x words IH]; intros acc Hnd; simpl.
  - split; [exact Hnd | intros w; tauto].
  - destruct (setHas acc x) eqn:E.
    + destruct (IH acc Hnd) as [H1 H2]. split; [exact H1 |].
      intros w. rewrite H2. apply setHas_In in E.
      split; [tauto |]. intros [H | [<- | H]]; auto.
    + assert (Hx : ~ In x acc).
      { intros H. apply setHas_In in H. congruence. }
      destruct (IH (acc ++ [x])) as [H1 H2].
      { apply NoDup_app; [exact Hnd | repeat constructor; auto |].
        intros a Ha [<- | []]. contradiction. }
      split; [exact H1 |].
      intros w. rewrite H2, in_app_iff. simpl. tauto.
Qed.


Lemma newSet_In (words : list str) (w : str) :
  In w (newSet words) <-> In w words.
Proof.
  destruct (newSet_from words (NoDup_nil _)) as [_ H].
  unfold newSet. rewrite H. simpl. tauto.
Qed.












End Lexical.

(** ** The text-search controller *)

Lemma str_eqb_refl (a : str) : str_eqb a a = true.
Proof. now apply str_eqb_eq. Qed.

Module UseSearchFacts.
Import UseSearch.

Lemma useSearch_isCurrent_superseded (c : nat) (st : State) :
  superseded c st -> isCurrent c st = false.
Proof.
  intros [_ H]. unfold isCurrent.
  destruct (abortControllerRef st) as [c' |]; [| reflexivity].
  destruct (Nat.eqb_spec c' c); [subst; congruence | reflexivity].
Qed.

(** A superseded request that settles changes neither the results nor the
    current controller, and its [search] resolves to the empty list. *)
Lemma useSearch_searchResume_superseded (c : nat)
  (outcome : Completion (list TextChunk)) (st : State) :
  superseded c st ->
  results (fst (searchResume c outcome st)) = results st
  /\ snd (searchResume c outcome st) = []
  /\ superseded c (fst (searchResume c outcome st)).
Proof.
  intros H. pose proof (useSearch_isCurrent_superseded H) as Hc.
  unfold searchResume, searchFinally.
  destruct outcome as [chunks | err].
  - rewrite !Hc. simpl. auto.
  - destruct (isAbortError err); [rewrite Hc; simpl; auto |].
    replace (isCurrent c (reportError err (setError (Some err) st)))
      with (isCurrent c st) by reflexivity.
    rewrite Hc. simpl. auto.
Qed.

Lemma useSearch_searchResume_keeps_controllers (c : nat)
  (outcome : Completion (list TextChunk)) (st : State) :
  abortControllerRef (fst (searchResume c outcome st)) = abortControllerRef st
  /\ controllers (fst (searchResume c outcome st)) = controllers st.
Proof.
  unfold searchResume, searchFinally, isCurrent.
  destruct outcome as [chunks | err]; simpl.
  - destruct (abortControllerRef st) as [c' |] eqn:E; simpl; rewrite ?E; auto.
    destruct (c' =? c); simpl; rewrite ?E; auto.
  - destruct (isAbortError err); simpl;
      destruct (abortControllerRef st) as [c' |] eqn:E; simpl; rewrite ?E;
      auto;
      destruct (c' =? c); simpl; rewrite ?E; auto.
Qed.

Lemma useSearch_searchBegin_superseded (p : Props) (r : Render)
  (q : option str) (c : nat) (st : State) :
  superseded c st -> superseded c (fst (searchBegin p r q st)).
Proof.
  intros [Hlt Hne]. unfold searchBegin.
  destruct (client p); [| split; assumption].
  destruct (_ <? _); [split; assumption |].
  destruct (_ && _); [split; assumption |].
  unfold superseded. simpl. split; [lia |].
  intros H. injection H as H. lia.
Qed.

Lemma useSearch_settle_superseded (c c' : nat)
  (outcome : Completion (list TextChunk)) (st : State) :
  superseded c st -> superseded c (settle c' outcome st).
Proof.
  intros H. unfold settle, superseded.
  destruct (existsb _ _); [| exact H].
  destruct (useSearch_searchResume_keeps_controllers c' outcome
              (setInFlight
                 (filter (fun c0 => negb (callSignal c0 =? c')) (inFlight st))
                 st)) as [-> ->].
  exact H.
Qed.

Lemma useSearch_step_superseded (p : Props) (e : Event) (c : nat) (st : State) :
  superseded c st -> superseded c (step p e st).
Proof.
  intros H. destruct e; simpl.
  - unfold setQuery. destruct (_ <? _); exact H.
  - destruct (debounceTimerRef st); [| exact H].
    apply useSearch_searchBegin_superseded. exact H.
  - apply useSearch_searchBegin_superseded. exact H.
  - apply useSearch_settle_superseded. exact H.
  - exact H.
  - destruct (client p); [| exact H].
    destruct (_ && _); [| exact H].
    apply useSearch_searchBegin_superseded. exact H.
Qed.

Lemma useSearch_run_superseded (trace : list (Props * Event)) (c : nat)
  (st : State) :
  superseded c st -> superseded c (run trace st).
Proof.
  revert st. induction trace as [| [p e] trace IH]; intros st H; simpl.
  - exact H.
  - apply IH, useSearch_step_superseded, H.
Qed.

Lemma useSearch_settle_superseded_results (c : nat)
  (outcome : Completion (list TextChunk)) (st : State) :
  superseded c st -> results (settle c outcome st) = results st.
Proof.
  intros H. unfold settle.
  destruct (existsb _ _); [| reflexivity].
  set (st' := setInFlight _ st).
  assert (H' : superseded c st') by exact H.
  destruct (useSearch_searchResume_superseded outcome H') as [Hr _].
  exact Hr.
Qed.

(** Two searches issued one after the other: the first one is superseded. *)
(** A search that is issued gets a controller of its own, which becomes
    the current one, and a request in flight. *)
Lemma useSearch_issued (p : Props) (r : Render) (q : option str)
  (st st1 : State) (c : nat) :
  searchBegin p r q st = (st1, Awaiting c) ->
  c = controllers st
  /\ controllers st1 = S c
  /\ abortControllerRef st1 = Some c
  /\ existsb (fun k => callSignal k =? c) (inFlight st1) = true.
Proof.
  unfold searchBegin. intros H.
  destruct (client p); [| discriminate].
  destruct (_ <? _); [discriminate |].
  destruct (_ && _); [discriminate |].
  injection H as <- <-. simpl. rewrite Nat.eqb_refl. auto.
Qed.

Lemma useSearch_searchBegin_controllers (p : Props) (r : Render)
  (q : option str) (st : State) :
  controllers st <= controllers (fst (searchBegin p r q st)).
Proof.
  unfold searchBegin.
  destruct (client p); [| simpl; lia].
  destruct (_ <? _); [simpl; lia |].
  destruct (_ && _); simpl; lia.
Qed.

(** Controllers are never forgotten. *)
Lemma useSearch_step_controllers (p : Props) (e : Event) (st : State) :
  controllers st <= controllers (step p e st).
Proof.
  destruct e; simpl.
  - unfold setQuery. destruct (_ <? _); simpl; lia.
  - destruct (debounceTimerRef st); [| lia].
    apply (useSearch_searchBegin_controllers p (latestRender st) (Some s)
             (setTimer None st)).
  - apply useSearch_searchBegin_controllers.
  - unfold settle. destruct (existsb _ _); [| lia].
    destruct (useSearch_searchResume_keeps_controllers controller outcome
                (setInFlight
                   (filter (fun c0 => negb (callSignal c0 =? controller))
                      (inFlight st)) st)) as [_ ->].
    simpl. lia.
  - simpl. lia.
  - destruct (client p); [| lia].
    destruct (_ && _); [| lia].
    apply useSearch_searchBegin_controllers.
Qed.

Lemma useSearch_run_controllers (trace : list (Props * Event)) (st : State) :
  controllers st <= controllers (run trace st).
Proof.
  revert st. induction trace as [| [p e] trace IH]; intros st; simpl.
  - lia.
  - pose proof (useSearch_step_controllers p e st).
    specialize (IH (step p e st)). lia.
Qed.

(** Two searches issued one after the other, whatever happens between them:
    the first one is superseded. *)
Lemma useSearch_second_search_supersedes (p1 p2 : Props) (r1 r2 : Render)
  (q1 q2 : option str) (between : list (Props * Event))
  (st st1 st2 : State) (c1 c2 : nat) :
  searchBegin p1 r1 q1 st = (st1, Awaiting c1) ->
  searchBegin p2 r2 q2 (run between st1) = (st2, Awaiting c2) ->
  superseded c1 st2
  /\ abortControllerRef st2 = Some c2
  /\ existsb (fun c => callSignal c =? c2) (inFlight st2) = true.
Proof.
  intros H1 H2.
  destruct (@useSearch_issued _ _ _ _ _ _ H1) as [_ [Hn1 _]].
  destruct (@useSearch_issued _ _ _ _ _ _ H2) as [Hc2 [Hn2 [Hr2 Hin2]]].
  pose proof (useSearch_run_controllers between st1) as Hmono.
  split; [| auto]. split; [lia |].
  rewrite Hr2. intros H. injection H as H. lia.
Qed.

(** The current request commits the chunks it is fulfilled with. *)
Lemma useSearch_settle_current_commits (c : nat) (chunks : list TextChunk)
  (st : State) :
  abortControllerRef st = Some c ->
  existsb (fun k => callSignal k =? c) (inFlight st) = true ->
  results (settle c (Fulfilled chunks) st) = chunks
  /\ abortControllerRef (settle c (Fulfilled chunks) st) = Some c
  /\ controllers (settle c (Fulfilled chunks) st) = controllers st.
Proof.
  intros Hc Hin. unfold settle. rewrite Hin.
  unfold searchResume, searchFinally, isCurrent. simpl.
  rewrite !Hc, !Nat.eqb_refl. simpl. auto.
Qed.

Lemma useSearch_superseded_search_never_commits (p1 p2 : Props)
  (r1 r2 : Render) (q1 q2 : option str) (between : list (Props * Event))
  (st st1 st2 : State) (c1 c2 : nat) :
  searchBegin p1 r1 q1 st = (st1, Awaiting c1) ->
  searchBegin p2 r2 q2 (run between st1) = (st2, Awaiting c2) ->
  (forall trace outcome,
      results (settle c1 outcome (run trace st2)) = results (run trace st2)
      /\ snd (searchResume c1 outcome (run trace st2)) = [])
  /\ (forall p chunks outcome,
         results (run [(p, Settles c2 (Fulfilled chunks));
                       (p, Settles c1 outcome)] st2) = chunks).
Proof.
  intros H1 H2.
  destruct (@useSearch_second_search_supersedes _ _ _ _ _ _ _ _ _ _ _ _ H1 H2)
    as [Hs [Hc Hin]].
  split.
  - intros trace outcome.
    pose proof (useSearch_run_superseded trace Hs) as Hs'.
    split; [now apply useSearch_settle_superseded_results |].
    now destruct (useSearch_searchResume_superseded outcome Hs')
      as [_ [-> _]].
  - intros p chunks outcome. simpl.
    destruct (@useSearch_settle_current_commits c2 chunks st2 Hc Hin)
      as [Hr _].
    rewrite useSearch_settle_superseded_results; [exact Hr |].
    now apply useSearch_settle_superseded.
Qed.

(** A repeated [search]: the client is called at most once, and the second
    call finds the guard of the repeated query and returns the results that
    its function holds: those of the render that created the function, and
    so the chunks of the first search once that one has completed and the
    hook has rendered again. *)
Lemma useSearch_repeated_search (p : Props) (r : Render) (q : option str)
  (st : State) :
  let qq := match q with Some q' => q' | None => renderedQuery r end in
  let st1 := fst (searchBegin p r q st) in
  let st2 := fst (searchBegin p r q st1) in
  length (calls st2) <= S (length (calls st))
  /\ (forall c, snd (searchBegin p r q st) = Awaiting c ->
        searchBegin p r q st1 = (st1, Returned (renderedResults r))
        /\ forall chunks,
            let st1' := settle c (Fulfilled chunks) st1 in
            searchBegin p r q st1' = (st1', Returned (renderedResults r))
            /\ searchBegin p (latestRender st1') (Some qq) st1'
               = (st1', Returned chunks)).
Proof.
  intros qq. unfold searchBegin. fold qq.
  destruct (client p) as [cl |]; [| simpl; split; [lia | discriminate]].
  destruct (length qq <? minQueryLength p) eqn:Elen.
  { simpl. rewrite ?Elen. simpl. split; [lia | discriminate]. }
  destruct (str_eqb qq (lastQueryRef st) && str_eqb (text p) (lastTextRef st))
    eqn:Esame.
  { simpl. rewrite ?Elen, ?Esame. simpl. split; [lia | discriminate]. }
  simpl. rewrite ?Elen, !str_eqb_refl. simpl.
  split; [lia |].
  intros c Hc. injection Hc as <-. split; [reflexivity |].
  intros chunks. unfold settle. simpl. rewrite Nat.eqb_refl. simpl.
  unfold searchFinally, isCurrent. simpl. rewrite Nat.eqb_refl. simpl.
  rewrite ?Elen, !str_eqb_refl. split; reflexivity.
Qed.

End UseSearchFacts.

(** ** The item-selection controller *)

Module UseSelectFacts.
Import UseSelect.

Lemma useSelect_isCurrent_superseded (c : nat) (st : State) :
  superseded c st -> isCurrent c st = false.
Proof.
  intros [_ H]. unfold isCurrent.
  destruct (abortControllerRef st) as [c' |]; [| reflexivity].
  destruct (Nat.eqb_spec c' c); [subst; congruence | reflexivity].
Qed.

Lemma useSelect_searchResume_superseded (p : Props) (c : nat)
  (outcome : Completion (list RankedItem)) (st : State) :
  superseded c st ->
  results (fst (searchResume p c outcome st)) = results st
  /\ snd (searchResume p c outcome st) = []
  /\ superseded c (fst (searchResume p c outcome st)).
Proof.
  intros H. pose proof (useSelect_isCurrent_superseded H) as Hc.
  unfold searchResume, searchFinally.
  destruct outcome as [ranked | err].
  - rewrite !Hc. simpl. auto.
  - destruct (isAbortError err); [rewrite Hc; simpl; auto |].
    replace (isCurrent c (reportError err (setError (Some err) st)))
      with (isCurrent c st) by reflexivity.
    rewrite Hc. simpl. auto.
Qed.

Lemma useSelect_searchResume_keeps_controllers (p : Props) (c : nat)
  (outcome : Completion (list RankedItem)) (st : State) :
  abortControllerRef (fst (searchResume p c outcome st))
  = abortControllerRef st
  /\ controllers (fst (searchResume p c outcome st)) = controllers st.
Proof.
  unfold searchResume, searchFinally, isCurrent.
  destruct outcome as [ranked | err]; simpl.
  - destruct (abortControllerRef st) as [c' |] eqn:E; simpl; rewrite ?E; auto.
    destruct (c' =? c); simpl; rewrite ?E; auto.
  - destruct (isAbortError err); simpl;
      destruct (abortControllerRef st) as [c' |] eqn:E; simpl; rewrite ?E;
      auto;
      destruct (c' =? c); simpl; rewrite ?E; auto.
Qed.

Lemma useSelect_searchBegin_superseded (p : Props) (q : str) (c : nat)
  (st : State) :
  superseded c st -> superseded c (fst (searchBegin p q st)).
Proof.
  intros [Hlt Hne]. unfold searchBegin.
  destruct (client p); [| split; assumption].
  destruct (_ <? _); [split; assumption |].
  destruct (str_eqb _ _); [split; assumption |].
  unfold superseded. simpl. split; [lia |].
  intros H. injection H as H. lia.
Qed.

Lemma useSelect_settle_superseded (c c' : nat)
  (outcome : Completion (list RankedItem)) (st : State) :
  superseded c st -> superseded c (settle c' outcome st).
Proof.
  intros H. unfold settle, superseded.
  destruct (find _ _) as [call |]; [| exact H].
  destruct (useSelect_searchResume_keeps_controllers (callProps call) c' outcome
              (setInFlight
                 (filter (fun c0 => negb (callSignal c0 =? c')) (inFlight st))
                 st)) as [-> ->].
  exact H.
Qed.

Lemma useSelect_select_superseded (p : Props) (it : option SearchItem) (c : nat)
  (st : State) :
  superseded c st -> superseded c (select p it st).
Proof.
  intros H. unfold select, superseded.
  destruct (controlledSelected p), (closeOnSelect p); exact H.
Qed.

Lemma useSelect_step_superseded (p : Props) (e : Event) (c : nat) (st : State) :
  superseded c st -> superseded c (step p e st).
Proof.
  intros H. destruct e; simpl.
  - unfold setQuery. destruct (_ <? _); [exact H |].
    destruct (_ && _); exact H.
  - destruct (debounceTimerRef st); [| exact H].
    apply useSelect_searchBegin_superseded. exact H.
  - apply useSelect_settle_superseded. exact H.
  - apply useSelect_select_superseded. exact H.
  - exact H.
  - exact H.
  - unfold toggle. destruct (isOpen st); exact H.
  - unfold clear. destruct (allowClear p); [| exact H].
    apply (useSelect_select_superseded p None) in H. exact H.
  - exact H.
  - exact H.
  - unfold selectHighlighted. destruct (_ && _); [| exact H].
    destruct (nth_error _ _); [| exact H].
    apply useSelect_select_superseded. exact H.
  - destruct (client p); [| exact H].
    destruct (_ <=? _); [| exact H].
    apply useSelect_searchBegin_superseded. exact H.
Qed.

Lemma useSelect_run_superseded (trace : list (Props * Event)) (c : nat)
  (st : State) :
  superseded c st -> superseded c (run trace st).
Proof.
  revert st. induction trace as [| [p e] trace IH]; intros st H; simpl.
  - exact H.
  - apply IH, useSelect_step_superseded, H.
Qed.

Lemma useSelect_settle_superseded_results (c : nat)
  (outcome : Completion (list RankedItem)) (st : State) :
  superseded c st -> results (settle c outcome st) = results st.
Proof.
  intros H. unfold settle.
  destruct (find _ _) as [call |]; [| reflexivity].
  set (st' := setInFlight _ st).
  assert (H' : superseded c st') by exact H.
  destruct (useSelect_searchResume_superseded (callProps call) outcome H')
    as [Hr _].
  exact Hr.
Qed.

Lemma useSelect_issued (p : Props) (q : str) (st st1 : State) (c : nat) :
  searchBegin p q st = (st1, Awaiting c) ->
  c = controllers st
  /\ controllers st1 = S c
  /\ abortControllerRef st1 = Some c
  /\ find (fun k => callSignal k =? c) (inFlight st1) = Some (mkCall q p c).
Proof.
  unfold searchBegin. intros H.
  destruct (client p); [| discriminate].
  destruct (_ <? _); [discriminate |].
  destruct (str_eqb _ _); [discriminate |].
  injection H as <- <-. simpl. rewrite Nat.eqb_refl. auto.
Qed.

Lemma useSelect_searchBegin_controllers (p : Props) (q : str) (st : State) :
  controllers st <= controllers (fst (searchBegin p q st)).
Proof.
  unfold searchBegin.
  destruct (client p); [| simpl; lia].
  destruct (_ <? _); [simpl; lia |].
  destruct (str_eqb _ _); simpl; lia.
Qed.

Lemma useSelect_select_controllers (p : Props) (it : option SearchItem)
  (st : State) :
  controllers (select p it st) = controllers st.
Proof.
  unfold select. destruct (controlledSelected p), (closeOnSelect p);
    reflexivity.
Qed.

Lemma useSelect_step_controllers (p : Props) (e : Event) (st : State) :
  controllers st <= controllers (step p e st).
Proof.
  destruct e; cbn [step].
  - unfold setQuery. destruct (_ <? _); [simpl; lia |].
    destruct (_ && _); simpl; lia.
  - destruct (debounceTimerRef st); [| lia].
    apply (useSelect_searchBegin_controllers p s (setTimer None st)).
  - unfold settle. destruct (find _ _) as [call |]; [| lia].
    destruct (useSelect_searchResume_keeps_controllers (callProps call)
                controller outcome
                (setInFlight
                   (filter (fun c0 => negb (callSignal c0 =? controller))
                      (inFlight st)) st)) as [_ ->].
    simpl. lia.
  - rewrite useSelect_select_controllers. lia.
  - simpl. lia.
  - simpl. lia.
  - unfold toggle. destruct (isOpen st); simpl; lia.
  - unfold clear. destruct (allowClear p); [| lia].
    change (controllers (clearSearch (select p None st)))
      with (controllers (select p None st)).
    rewrite useSelect_select_controllers. lia.
  - simpl. lia.
  - simpl. lia.
  - unfold selectHighlighted. destruct (_ && _); [| lia].
    destruct (nth_error _ _); [| lia].
    rewrite useSelect_select_controllers. lia.
  - destruct (client p); [| lia].
    destruct (_ <=? _); [| lia].
    apply useSelect_searchBegin_controllers.
Qed.

Lemma useSelect_run_controllers (trace : list (Props * Event)) (st : State) :
  controllers st <= controllers (run trace st).
Proof.
  revert st. induction trace as [| [p e] trace IH]; intros st; simpl.
  - lia.
  - pose proof (useSelect_step_controllers p e st).
    specialize (IH (step p e st)). lia.
Qed.

Lemma useSelect_second_search_supersedes (p1 p2 : Props) (q1 q2 : str)
  (between : list (Props * Event)) (st st1 st2 : State) (c1 c2 : nat) :
  searchBegin p1 q1 st = (st1, Awaiting c1) ->
  searchBegin p2 q2 (run between st1) = (st2, Awaiting c2) ->
  superseded c1 st2
  /\ abortControllerRef st2 = Some c2
  /\ find (fun c => callSignal c =? c2) (inFlight st2)
     = Some (mkCall q2 p2 c2).
Proof.
  intros H1 H2.
  destruct (@useSelect_issued _ _ _ _ _ H1) as [_ [Hn1 _]].
  destruct (@useSelect_issued _ _ _ _ _ H2) as [Hc2 [Hn2 [Hr2 Hin2]]].
  pose proof (useSelect_run_controllers between st1) as Hmono.
  split; [| auto]. split; [lia |].
  rewrite Hr2. intros H. injection H as H. lia.
Qed.

Lemma useSelect_settle_current_commits (c : nat) (call : Call)
  (ranked : list RankedItem) (st : State) :
  abortControllerRef st = Some c ->
  find (fun k => callSignal k =? c) (inFlight st) = Some call ->
  results (settle c (Fulfilled ranked) st) = threshold (callProps call) ranked.
Proof.
  intros Hc Hin. unfold settle. rewrite Hin.
  unfold searchResume, searchFinally, isCurrent. simpl.
  rewrite !Hc, !Nat.eqb_refl. simpl. auto.
Qed.

Lemma useSelect_superseded_search_never_commits (p1 p2 : Props)
  (q1 q2 : str) (between : list (Props * Event))
  (st st1 st2 : State) (c1 c2 : nat) :
  searchBegin p1 q1 st = (st1, Awaiting c1) ->
  searchBegin p2 q2 (run between st1) = (st2, Awaiting c2) ->
  (forall trace p outcome,
      results (settle c1 outcome (run trace st2)) = results (run trace st2)
      /\ snd (searchResume p c1 outcome (run trace st2)) = [])
  /\ (forall p ranked outcome,
         results (run [(p, Settles c2 (Fulfilled ranked));
                       (p, Settles c1 outcome)] st2)
         = threshold p2 ranked).
Proof.
  intros H1 H2.
  destruct (@useSelect_second_search_supersedes _ _ _ _ _ _ _ _ _ _ H1 H2)
    as [Hs [Hc Hin]].
  split.
  - intros trace p outcome.
    pose proof (useSelect_run_superseded trace Hs) as Hs'.
    split; [now apply useSelect_settle_superseded_results |].
    now destruct (useSelect_searchResume_superseded p outcome Hs')
      as [_ [-> _]].
  - intros p ranked outcome. simpl.
    pose proof (@useSelect_settle_current_commits c2 _ ranked st2 Hc Hin)
      as Hr.
    rewrite useSelect_settle_superseded_results; [exact Hr |].
    now apply useSelect_settle_superseded.
Qed.

(** A repeated [search]: the client is called at most once; the second call
    finds the guard of the repeated query and returns the empty list, also
    once the first call has committed its ranking. *)
Lemma useSelect_repeated_search (p : Props) (q : str) (st : State) :
  let st1 := fst (searchBegin p q st) in
  let st2 := fst (searchBegin p q st1) in
  length (calls st2) <= S (length (calls st))
  /\ (forall c, snd (searchBegin p q st) = Awaiting c ->
        searchBegin p q st1 = (st1, Returned [])
        /\ forall ranked,
            results (settle c (Fulfilled ranked) st1) = threshold p ranked
            /\ searchBegin p q (settle c (Fulfilled ranked) st1)
               = (settle c (Fulfilled ranked) st1, Returned [])).
Proof.
  unfold searchBegin.
  destruct (client p) as [cl |]; [| simpl; split; [lia | discriminate]].
  destruct (length q <? minQueryLength p) eqn:Elen.
  { simpl. rewrite ?Elen. simpl. split; [lia | discriminate]. }
  destruct (str_eqb q (lastQueryRef st)) eqn:Esame.
  { simpl. rewrite ?Elen, ?Esame. simpl. split; [lia | discriminate]. }
  simpl. rewrite ?Elen, !str_eqb_refl. simpl.
  split; [lia |].
  intros c Hc. injection Hc as <-. split; [reflexivity |].
  intros ranked. unfold settle. simpl. rewrite Nat.eqb_refl. simpl.
  unfold searchFinally, isCurrent. simpl. rewrite Nat.eqb_refl. simpl.
  rewrite ?Elen, !str_eqb_refl. auto.
Qed.

End UseSelectFacts.

(** ** The controllers: superseded searches, repeated searches, options *)

(** C3.  In both controllers, once a second search has been issued while
    the first one is in flight, whatever happened in between, the first one
    never commits: whatever happens to the controller afterwards, when the
    client call of the first search settles, with a value or with a failure,
    the results stay as they are and its [search] resolves to the empty
    list.  In particular the results committed by the second search are
    still there after the first one has settled. *)
Theorem superseded_search_never_commits :
  (forall (p1 p2 : UseSearch.Props) (r1 r2 : UseSearch.Render)
          (q1 q2 : option str)
          (between : list (UseSearch.Props * UseSearch.Event))
          (st st1 st2 : UseSearch.State) (c1 c2 : nat),
      UseSearch.searchBegin p1 r1 q1 st = (st1, Awaiting c1) ->
      UseSearch.searchBegin p2 r2 q2 (UseSearch.run between st1)
      = (st2, Awaiting c2) ->
      (forall trace outcome,
          UseSearch.results
            (UseSearch.settle c1 outcome (UseSearch.run trace st2))
          = UseSearch.results (UseSearch.run trace st2)
          /\ snd (UseSearch.searchResume c1 outcome
                    (UseSearch.run trace st2)) = [])
      /\ (forall p chunks outcome,
             UseSearch.results
               (UseSearch.run
                  [(p, UseSearch.Settles c2 (Fulfilled chunks));
                   (p, UseSearch.Settles c1 outcome)] st2)
             = chunks))
  /\ (forall (p1 p2 : UseSelect.Props) (q1 q2 : str)
             (between : list (UseSelect.Props * UseSelect.Event))
             (st st1 st2 : UseSelect.State) (c1 c2 : nat),
         UseSelect.searchBegin p1 q1 st = (st1, Awaiting c1) ->
         UseSelect.searchBegin p2 q2 (UseSelect.run between st1)
         = (st2, Awaiting c2) ->
         (forall trace p outcome,
             UseSelect.results
               (UseSelect.settle c1 outcome (UseSelect.run trace st2))
             = UseSelect.results (UseSelect.run trace st2)
             /\ snd (UseSelect.searchResume p c1 outcome
                       (UseSelect.run trace st2)) = [])
         /\ (forall p ranked outcome,
                UseSelect.results
                  (UseSelect.run
                     [(p, UseSelect.Settles c2 (Fulfilled ranked));
                      (p, UseSelect.Settles c1 outcome)] st2)
                = UseSelect.threshold p2 ranked)).
Proof.
  split.
  - intros. eapply UseSearchFacts.useSearch_superseded_search_never_commits;
      eassumption.
  - intros. eapply UseSelectFacts.useSelect_superseded_search_never_commits;
      eassumption.
Qed.

Lemma superseded_search_never_commits_witness :
  (forall chunks outcome,
      UseSearch.results
        (UseSearch.run
           [(searchProps, UseSearch.Settles 1 (Fulfilled chunks));
            (searchProps, UseSearch.Settles 0 outcome)]
           (UseSearch.issue searchProps (lit "world")
              (UseSearch.setQuery searchProps (lit "world")
                 (UseSearch.issue searchProps (lit "you")
                    (UseSearch.initial [])))))
      = chunks)
  /\ (forall ranked outcome,
         UseSelect.results
           (UseSelect.run
              [(selectProps, UseSelect.Settles 1 (Fulfilled ranked));
               (selectProps, UseSelect.Settles 0 outcome)]
              (UseSelect.issue selectProps (lit "dog")
                 (UseSelect.setQuery selectProps (lit "dog")
                    (UseSelect.issue selectProps (lit "cat")
                       (UseSelect.initial [])))))
         = UseSelect.threshold selectProps ranked).
Proof.
  split.
  - intros chunks outcome.
    apply (proj2 (proj1 superseded_search_never_commits
                    searchProps searchProps
                    (UseSearch.latestRender (UseSearch.initial []))
                    (UseSearch.latestRender (UseSearch.initial []))
                    (Some (lit "you")) (Some (lit "world"))
                    [(searchProps, UseSearch.SetQuery (lit "world"))]
                    (UseSearch.initial []) _ _ 0 1 eq_refl eq_refl)).
  - intros ranked outcome.
    apply (proj2 (proj2 superseded_search_never_commits
                    selectProps selectProps (lit "cat") (lit "dog")
                    [(selectProps, UseSelect.SetQuery (lit "dog"))]
                    (UseSelect.initial []) _ _ 0 1 eq_refl eq_refl)).
Defined.

(** C4 (amended).  Two calls of [search] in a row with the same query (and,
    for the text search, the same text) call the client at most once.  When
    the first call issued a request, the second one finds the guard of the
    repeated query: in [useSearch] it returns the results held by the
    [search] function, those of the render that created it; they are the
    chunks of the first search once that one has completed and the call
    goes through the function of the render that followed.  In [useSelect]
    it returns the empty list, also once the first search has completed and
    committed its ranking. *)
Theorem repeated_search_calls_client_once :
  (forall (p : UseSearch.Props) (r : UseSearch.Render) (q : option str)
          (st : UseSearch.State),
      let qq := match q with
                | Some q' => q'
                | None => UseSearch.renderedQuery r
                end in
      let st1 := fst (UseSearch.searchBegin p r q st) in
      let st2 := fst (UseSearch.searchBegin p r q st1) in
      length (UseSearch.calls st2) <= S (length (UseSearch.calls st))
      /\ (forall c,
             snd (UseSearch.searchBegin p r q st) = Awaiting c ->
             UseSearch.searchBegin p r q st1
             = (st1, Returned (UseSearch.renderedResults r))
             /\ forall chunks,
                 let st1' := UseSearch.settle c (Fulfilled chunks) st1 in
                 UseSearch.searchBegin p r q st1'
                 = (st1', Returned (UseSearch.renderedResults r))
                 /\ UseSearch.searchBegin p (UseSearch.latestRender st1')
                      (Some qq) st1'
                    = (st1', Returned chunks)))
  /\ (forall (p : UseSelect.Props) (q : str) (st : UseSelect.State),
         let st1 := fst (UseSelect.searchBegin p q st) in
         let st2 := fst (UseSelect.searchBegin p q st1) in
         length (UseSelect.calls st2) <= S (length (UseSelect.calls st))
         /\ (forall c,
                snd (UseSelect.searchBegin p q st) = Awaiting c ->
                UseSelect.searchBegin p q st1 = (st1, Returned [])
                /\ forall ranked,
                    UseSelect.results
                      (UseSelect.settle c (Fulfilled ranked) st1)
                    = UseSelect.threshold p ranked
                    /\ UseSelect.searchBegin p q
                         (UseSelect.settle c (Fulfilled ranked) st1)
                       = (UseSelect.settle c (Fulfilled ranked) st1,
                          Returned []))).
Proof.
  split.
  - exact UseSearchFacts.useSearch_repeated_search.
  - exact UseSelectFacts.useSelect_repeated_search.
Qed.

Lemma repeated_search_calls_client_once_witness :
  (let st1 := UseSearch.issue searchProps (lit "you") (UseSearch.initial [])
   in
   forall chunks,
     let st1' := UseSearch.settle 0 (Fulfilled chunks) st1 in
     UseSearch.searchBegin searchProps (UseSearch.latestRender st1')
       (Some (lit "you")) st1'
     = (st1', Returned chunks))
  /\ (let st1 := UseSelect.issue selectProps (lit "cat")
                   (UseSelect.initial []) in
      UseSelect.searchBegin selectProps (lit "cat") st1
      = (st1, Returned [])).
Proof.
  split.
  - intros st1 chunks.
    exact (proj2 (proj2 (proj2 (proj1 repeated_search_calls_client_once
                                  searchProps
                                  (UseSearch.latestRender
                                     (UseSearch.initial []))
                                  (Some (lit "you")) (UseSearch.initial []))
                           0 eq_refl) chunks)).
  - exact (proj1 (proj2 (proj2 repeated_search_calls_client_once
                           selectProps (lit "cat") (UseSelect.initial []))
                    0 eq_refl)).
Defined.

Lemma threshold_selectProps (ranked : list RankedItem) :
  UseSelect.threshold selectProps ranked = ranked.
Proof.
  unfold UseSelect.threshold, Rltb. simpl.
  rewrite (proj2 (Rleb_true 0 0)) by lra. reflexivity.
Qed.

(** C4 (as stated) fails for [useSelect]: the first search for ["cat"]
    completes and commits its ranking of the two items, and the second call
    with the same query returns the empty list, not that ranking. *)
Lemma useSelect_repeated_search_returns_nothing :
  let st1 := fst (UseSelect.searchBegin selectProps (lit "cat")
                    (UseSelect.initial [])) in
  let st1' := UseSelect.settle 0 (Fulfilled catRanking) st1 in
  UseSelect.results st1' = catRanking
  /\ snd (UseSelect.searchBegin selectProps (lit "cat") st1') = Returned []
  /\ @Returned RankedItem [] <> Returned catRanking.
Proof.
  split; [| split].
  - simpl. apply threshold_selectProps.
  - reflexivity.
  - discriminate.
Qed.

(** C10.  In [useSelect], when the dropdown is open and the query is the
    empty string, the options are the items of the props, in their order,
    each with score 1, whatever the committed results are. *)
Theorem displayOptions_open_empty_query (p : UseSelect.Props)
  (st : UseSelect.State) :
  UseSelect.isOpen st = true ->
  UseSelect.query st = [] ->
  UseSelect.displayOptions p st
  = map (fun it => mkRanked it 1) (UseSelect.items p).
Proof.
  intros Hopen Hquery. unfold UseSelect.displayOptions.
  rewrite Hopen, Hquery. reflexivity.
Qed.

Lemma displayOptions_open_empty_query_witness :
  let st := UseSelect.run
              [(selectProps, UseSelect.SetQuery (lit "cat"));
               (selectProps, UseSelect.TimerFires);
               (selectProps, UseSelect.Settles 0 (Fulfilled catRanking));
               (selectProps, UseSelect.Select None);
               (selectProps, UseSelect.Open)]
              (UseSelect.initial []) in
  UseSelect.results st = catRanking
  /\ UseSelect.displayOptions selectProps st
     = [mkRanked catItem 1; mkRanked dogItem 1].
Proof.
  intros st. split.
  - subst st. simpl. apply threshold_selectProps.
  - exact (@displayOptions_open_empty_query selectProps st eq_refl eq_refl).
Defined.

(** * Further properties *)

Unset Implicit Arguments.

(** ** Trimming *)

Lemma dropWhile_nil_iff (p : ascii -> bool) (s : str) :
  dropWhile p s = [] <-> forallb p s = true.
Proof.
  induction s as [| c s IH]; simpl; [tauto |].
  destruct (p c); simpl; [exact IH |].
  split; discriminate.
Qed.

Lemma forallb_rev (p : ascii -> bool) (s : str) :
  forallb p (rev s) = forallb p s.
Proof.
  induction s as [| c s IH]; [reflexivity |].
  simpl. rewrite forallb_app, IH. simpl.
  rewrite andb_true_r. apply andb_comm.
Qed.

Lemma dropWhile_head (p : ascii -> bool) (s : str) (c : ascii) (t : str) :
  dropWhile p s = c :: t -> p c = false.
Proof.
  induction s as [| x s IH]; simpl; [discriminate |].
  destruct (p x) eqn:E; [exact IH |].
  intros H. injection H as <- _. exact E.
Qed.

Lemma dropWhile_all_or_suffix (p : ascii -> bool) (s : str) :
  forallb p (dropWhile p s) = true -> forallb p s = true.
Proof.
  induction s as [| c s IH]; simpl; [auto |].
  destruct (p c) eqn:E; simpl; [exact IH |].
  rewrite E. discriminate.
Qed.

(** A text trims to nothing exactly when it is white space only. *)
Lemma trim_nil_iff (s : str) : trim s = [] <-> forallb isSpace s = true.
Proof.
  unfold trim, trimEnd, trimStart. split.
  - intros H.
    assert (H' : dropWhile isSpace (rev (dropWhile isSpace s)) = []).
    { apply (f_equal (@rev ascii)) in H. rewrite rev_involutive in H.
      exact H. }
    apply dropWhile_nil_iff in H'. rewrite forallb_rev in H'.
    now apply dropWhile_all_or_suffix.
  - intros H. apply dropWhile_nil_iff in H. rewrite H. reflexivity.
Qed.

Lemma trim_nonempty (s : str) (c : ascii) :
  In c s -> isSpace c = false -> trim s <> [].
Proof.
  intros Hin Hc H. apply trim_nil_iff in H.
  rewrite forallb_forall in H. specialize (H c Hin). congruence.
Qed.

(** ** The sentence chunker: its chunks tile the text *)

Lemma takeWhile_dropWhile (p : ascii -> bool) (s : str) :
  takeWhile p s ++ dropWhile p s = s.
Proof.
  induction s as [| c s IH]; simpl; [reflexivity |].
  destruct (p c); simpl; [now rewrite IH | reflexivity].
Qed.

Lemma takeWhile_all (p : ascii -> bool) (s : str) :
  forallb p (takeWhile p s) = true.
Proof.
  induction s as [| c s IH]; simpl; [reflexivity |].
  destruct (p c) eqn:E; simpl; [now rewrite E | reflexivity].
Qed.

Lemma isTerminator_not_space (c : ascii) :
  isTerminator c = true -> isSpace c = false.
Proof.
  destruct c as [[] [] [] [] [] [] [] []]; vm_compute; intros H;
    try reflexivity; discriminate H.
Qed.

(** A match is a prefix of the text it was found in and holds a sentence
    terminator. *)
Lemma matchSentence_prefix (s m rest : str) :
  matchSentence s = Some (m, rest) ->
  s = m ++ rest /\ exists c, In c m /\ isTerminator c = true.
Proof.
  unfold matchSentence.
  set (notTerm := fun c => negb (isTerminator c)).
  pose proof (takeWhile_dropWhile notTerm s) as H1.
  pose proof (takeWhile_dropWhile isTerminator (dropWhile notTerm s)) as H2.
  pose proof (takeWhile_all isTerminator (dropWhile notTerm s)) as H3.
  destruct (takeWhile isTerminator (dropWhile notTerm s)) as [| c terms];
    [discriminate |].
  intros H. injection H as <- <-. split.
  - rewrite <- app_assoc, H2. now rewrite H1.
  - exists c. split; [apply in_or_app; right; now left |].
    simpl in H3. now apply andb_prop in H3.
Qed.

(** No match: the text holds no sentence terminator. *)
Lemma matchSentence_none (s : str) :
  matchSentence s = None -> forallb (fun c => negb (isTerminator c)) s = true.
Proof.
  unfold matchSentence.
  set (notTerm := fun c => negb (isTerminator c)).
  pose proof (takeWhile_dropWhile notTerm s) as H1.
  pose proof (takeWhile_all notTerm s) as H2.
  destruct (dropWhile notTerm s) as [| c rest] eqn:E.
  - intros _. rewrite app_nil_r in H1. now rewrite <- H1.
  - simpl. pose proof (dropWhile_head _ _ _ _ E) as Hc. unfold notTerm in Hc.
    apply negb_false_iff in Hc. rewrite Hc. discriminate.
Qed.

Lemma pushSentences_app (ms : list RegExpMatch) (chunks : list RawChunk) :
  pushSentences ms chunks = chunks ++ pushSentences ms [].
Proof.
  revert chunks. induction ms as [| m ms IH]; intros chunks; simpl.
  - now rewrite app_nil_r.
  - destruct (0 <? length (trim (matched m))).
    + rewrite IH. simpl. rewrite (IH [_]). now rewrite <- app_assoc.
    + apply IH.
Qed.

Lemma last_map_Some (A : Type) (x : A) (xs : list A) :
  exists y, last (map Some (x :: xs)) None = Some y.
Proof.
  revert x. induction xs as [| z xs IH]; intros x.
  - now exists x.
  - destruct (IH z) as [y Hy]. exists y. exact Hy.
Qed.

Lemma lastEndOr_cons (pos : Z) (c : RawChunk) (cs : list RawChunk) :
  lastEndOr pos (c :: cs) = lastEndOr (rawEnd c) cs.
Proof.
  unfold lastEndOr. destruct cs as [| r cs]; [reflexivity |].
  change (last (map Some (c :: r :: cs)) None)
    with (last (map Some (r :: cs)) None).
  destruct (last_map_Some _ r cs) as [y ->]. reflexivity.
Qed.

Lemma tilesFrom_app (txt : str) (pos : Z) (cs ds : list RawChunk) :
  tilesFrom txt pos cs -> tilesFrom txt (lastEndOr pos cs) ds ->
  tilesFrom txt pos (cs ++ ds).
Proof.
  revert pos. induction cs as [| c cs IH]; intros pos Hc Hd.
  - exact Hd.
  - rewrite lastEndOr_cons in Hd.
    destruct Hc as [H1 [H2 [H3 [H4 H5]]]].
    simpl. repeat split; auto; try lia.
Qed.

Lemma lastEndOr_app (pos : Z) (cs ds : list RawChunk) :
  lastEndOr pos (cs ++ ds) = lastEndOr (lastEndOr pos cs) ds.
Proof.
  revert pos. induction cs as [| c cs IH]; intros pos; [reflexivity |].
  rewrite <- app_comm_cons, !lastEndOr_cons. apply IH.
Qed.

Lemma tilesFrom_lastEnd (txt : str) (pos : Z) (cs : list RawChunk) :
  (pos <= Z.of_nat (length txt))%Z -> tilesFrom txt pos cs ->
  (pos <= lastEndOr pos cs <= Z.of_nat (length txt))%Z.
Proof.
  revert pos. induction cs as [| c cs IH]; intros pos Hp H.
  - unfold lastEndOr. simpl. lia.
  - destruct H as [H1 [H2 [H3 [H4 H5]]]].
    rewrite lastEndOr_cons.
    assert (Hc : (rawEnd c <= Z.of_nat (length txt))%Z) by lia.
    specialize (IH (rawEnd c) Hc H5). lia.
Qed.

Lemma slice_of_skipn (txt m rest : str) (index : nat) :
  skipn index txt = m ++ rest -> index <= length txt ->
  slice txt (Z.of_nat index) (Z.of_nat (index + length m)) = m
  /\ skipn (index + length m) txt = rest
  /\ index + length m <= length txt.
Proof.
  intros H Hi.
  assert (Hlen : length txt = index + (length m + length rest)).
  { rewrite <- length_app, <- H, length_skipn. lia. }
  split; [| split; [| lia]].
  - rewrite slice_nat by lia. rewrite !Nat2Z.id.
    replace (index + length m - index) with (length m) by lia.
    rewrite H. rewrite firstn_app, Nat.sub_diag, firstn_all. simpl.
    apply app_nil_r.
  - rewrite Nat.add_comm, <- skipn_skipn, H.
    rewrite skipn_app, Nat.sub_diag, skipn_all. reflexivity.
Qed.

(** The chunks pushed for the matches found from [index] on tile the text
    from there, and with enough fuel no sentence terminator is left after
    them. *)
Lemma sentence_chunks_tile (txt : str) (fuel index : nat) :
  index <= length txt ->
  let cs := pushSentences (matchAllFrom fuel index (skipn index txt)) [] in
  tilesFrom txt (Z.of_nat index) cs
  /\ (length txt - index < fuel ->
      forallb (fun c => negb (isTerminator c))
        (sliceFrom txt (lastEndOr (Z.of_nat index) cs)) = true).
Proof.
  revert index. induction fuel as [| fuel IH]; intros index Hi; simpl.
  - split; [exact I | lia].
  - destruct (matchSentence (skipn index txt)) as [[m rest] |] eqn:E.
    + destruct (matchSentence_prefix _ _ _ E) as [Hs [c [Hc Ht]]].
      destruct (slice_of_skipn _ _ _ _ Hs Hi) as [Hm [Hrest Hle]].
      assert (Hlen : 0 < length m)
        by (destruct m; [contradiction | simpl; lia]).
      pose proof (trim_nonempty _ _ Hc (isTerminator_not_space _ Ht)) as Hne.
      simpl. destruct (trim m) as [| t1 t] eqn:Et; [congruence |].
      cbn [length Nat.ltb Nat.leb].
      rewrite pushSentences_app. simpl.
      specialize (IH (index + length m) Hle). rewrite Hrest in IH.
      destruct IH as [IH1 IH2]. split.
      * simpl. rewrite Hm, Et.
        repeat split; try lia; [discriminate | exact IH1].
      * intros Hf. rewrite lastEndOr_cons. simpl. apply IH2. lia.
    + simpl. split; [exact I |].
      intros _. unfold lastEndOr, sliceFrom. simpl.
      rewrite sliceBound_in_range by lia. rewrite Nat2Z.id.
      now apply matchSentence_none.
Qed.

Lemma sliceFrom_nat (s : str) (a : Z) :
  (0 <= a <= Z.of_nat (length s))%Z -> sliceFrom s a = skipn (Z.to_nat a) s.
Proof.
  intros H. unfold sliceFrom. now rewrite sliceBound_in_range by lia.
Qed.

Lemma slice_to_end (s : str) (a : Z) :
  (0 <= a <= Z.of_nat (length s))%Z ->
  slice s a (Z.of_nat (length s)) = sliceFrom s a.
Proof.
  intros H. rewrite slice_nat by lia. rewrite sliceFrom_nat by lia.
  rewrite Nat2Z.id. apply firstn_all2. rewrite length_skipn. lia.
Qed.

Lemma sliceFrom_end (s : str) : sliceFrom s (Z.of_nat (length s)) = [].
Proof.
  rewrite sliceFrom_nat by lia. rewrite Nat2Z.id. apply skipn_all.
Qed.

Lemma forallb_firstn (p : ascii -> bool) (n : nat) (s : str) :
  forallb p s = true -> forallb p (firstn n s) = true.
Proof.
  revert s. induction n as [| n IH]; intros [| c s]; simpl; auto.
  intros H. apply andb_prop in H. destruct H as [-> H]. now apply IH.
Qed.

Lemma forallb_skipn (p : ascii -> bool) (n : nat) (s : str) :
  forallb p s = true -> forallb p (skipn n s) = true.
Proof.
  revert s. induction n as [| n IH]; intros [| c s]; simpl; auto.
  intros H. apply andb_prop in H. destruct H as [_ H]. now apply IH.
Qed.

(** The chunks of [chunkBySentences] tile the text from its start:
    the first chunk starts at 0, each chunk starts where the one before it
    ended, every chunk spans at least one character, ends inside the text
    and carries the non-empty trimmed text of its span; what follows the
    last chunk is white space only. *)
Lemma chunkBySentences_tiling (txt : str) :
  tilesFrom txt 0 (chunkBySentences txt)
  /\ forallb isSpace (sliceFrom txt (lastEndOr 0 (chunkBySentences txt)))
     = true.
Proof.
  pose proof (sentence_chunks_tile txt (S (length txt)) 0 (Nat.le_0_l _))
    as [Ht Hn].
  simpl skipn in Ht, Hn. change (Z.of_nat 0) with 0%Z in Ht, Hn.
  unfold chunkBySentences.
  change (matchAll txt) with (matchAllFrom (S (length txt)) 0 txt).
  set (cs := pushSentences (matchAllFrom (S (length txt)) 0 txt) []) in *.
  fold (lastEndOr 0 cs).
  pose proof (tilesFrom_lastEnd txt 0 cs ltac:(lia) Ht) as Hle.
  destruct (Z.ltb_spec (lastEndOr 0 cs) (Z.of_nat (length txt))) as [Hlt | Hge].
  - destruct (trim (sliceFrom txt (lastEndOr 0 cs))) as [| r1 r] eqn:Er.
    + simpl. split; [exact Ht |]. now apply trim_nil_iff.
    + cbn [length Nat.ltb Nat.leb]. split.
      * apply tilesFrom_app; [exact Ht |]. simpl.
        rewrite slice_to_end by lia. rewrite Er.
        repeat split; try lia. discriminate.
      * rewrite lastEndOr_app. unfold lastEndOr at 1. simpl.
        now rewrite sliceFrom_end.
  - split; [exact Ht |].
    replace (lastEndOr 0 cs) with (Z.of_nat (length txt)) by lia.
    now rewrite sliceFrom_end.
Qed.

(** X1.  The chunks of [chunkBySentences] tile the text from its start:
    the first chunk starts at 0, each chunk starts where the one before it
    ended, every chunk spans at least one character, ends inside the text
    and carries the non-empty trimmed text of its span; what follows the
    last chunk is white space only. *)
Theorem chunkBySentences_tiles (txt : str) :
  tilesFrom txt 0 (chunkBySentences txt)
  /\ forallb isSpace (sliceFrom txt (lastEndOr 0 (chunkBySentences txt)))
     = true.
Proof. exact (chunkBySentences_tiling txt). Qed.

(** X2.  [chunkBySentences] returns no chunk exactly for the texts that
    are white space only (the empty text among them). *)
Theorem chunkBySentences_nil_iff (txt : str) :
  chunkBySentences txt = [] <-> forallb isSpace txt = true.
Proof.
  pose proof (chunkBySentences_tiling txt) as [Ht Hs]. split.
  - intros H. rewrite H in Hs. unfold lastEndOr in Hs. simpl in Hs.
    rewrite sliceFrom_nat in Hs by lia. exact Hs.
  - intros Hall. destruct (chunkBySentences txt) as [| c cs]; [reflexivity |].
    exfalso. destruct Ht as [H1 [H2 [H3 [H4 _]]]].
    apply H4. rewrite H3. apply trim_nil_iff.
    rewrite slice_nat by lia.
    now apply forallb_firstn, forallb_skipn.
Qed.

(** ** Highlighting trimmed chunks keeps every visible character *)

Lemma visible_app (a b : str) : visible (a ++ b) = visible a ++ visible b.
Proof. apply filter_app. Qed.

Lemma visible_dropWhile (s : str) : visible (dropWhile isSpace s) = visible s.
Proof.
  induction s as [| c s IH]; simpl; [reflexivity |].
  destruct (isSpace c) eqn:E; simpl; [exact IH | now rewrite E].
Qed.

Lemma visible_rev (s : str) : visible (rev s) = rev (visible s).
Proof.
  induction s as [| c s IH]; simpl; [reflexivity |].
  rewrite visible_app, IH. simpl.
  destruct (negb (isSpace c)); simpl; [reflexivity | now rewrite app_nil_r].
Qed.

(** Trimming removes white space only. *)
Lemma visible_trim (s : str) : visible (trim s) = visible s.
Proof.
  unfold trim, trimEnd, trimStart.
  rewrite visible_rev, visible_dropWhile, visible_rev, rev_involutive.
  apply visible_dropWhile.
Qed.

Lemma visible_renderedText_snoc (segs : list HighlightedSegment)
  (seg : HighlightedSegment) :
  visible (renderedText (segs ++ [seg]))
  = visible (renderedText segs) ++ visible (segText seg).
Proof. now rewrite renderedText_snoc, visible_app. Qed.

Lemma projectChunks_visible (txt : str) (sorted : list TextChunk) :
  forall (segs : list HighlightedSegment) (cursor : Z),
    (0 <= cursor <= Z.of_nat (length txt))%Z ->
    Forall (trimmedChunk txt) sorted ->
    StronglySorted (fun a b => byStartOffset a b = true) sorted ->
    ForallOrdPairs disjointChunks sorted ->
    Forall (fun c => (cursor <= startOffset c)%Z) sorted ->
    visible (renderedText (fst (projectChunks txt sorted segs cursor)))
    = visible (renderedText segs)
      ++ visible (slice txt cursor (snd (projectChunks txt sorted segs cursor)))
    /\ (cursor <= snd (projectChunks txt sorted segs cursor)
        <= Z.of_nat (length txt))%Z.
Proof.
  induction sorted as [| c rest IH];
    intros segs cursor Hcur Hex Hsort Hdis Hge.
  - simpl. rewrite slice_empty by lia. simpl. rewrite app_nil_r.
    split; [auto | lia].
  - inversion Hex as [| ? ? [Hc1 [Hc2 Hc3]] Hex']; subst.
    inversion Hsort as [| ? ? Hsort' Hc_le]; subst.
    inversion Hdis as [| ? ? Hc_dis Hdis']; subst.
    inversion Hge as [| ? ? Hc_ge _]; subst.
    simpl.
    set (segs1 := if (cursor <? startOffset c)%Z then _ else segs).
    assert (H1 : visible (renderedText segs1)
                 = visible (renderedText segs)
                   ++ visible (slice txt cursor (startOffset c))).
    { subst segs1. destruct (Z.ltb_spec cursor (startOffset c)).
      - now rewrite visible_renderedText_snoc.
      - replace (startOffset c) with cursor by lia.
        rewrite slice_empty by lia. simpl. now rewrite app_nil_r. }
    assert (Hnext : Forall (fun c' => (endOffset c <= startOffset c')%Z) rest).
    { rewrite Forall_forall in *. intros c' Hin.
      specialize (Hc_le c' Hin). specialize (Hc_dis c' Hin).
      destruct (Hex' c' Hin) as [Hs' _].
      unfold byStartOffset in Hc_le. apply Z.leb_le in Hc_le.
      destruct Hc_dis; lia. }
    specialize (IH (segs1 ++ [mkSegment (text c) true (Some (score c))])
                  (endOffset c) ltac:(lia) Hex' Hsort' Hdis' Hnext).
    destruct IH as [IHr IHc].
    set (cursor' := snd (projectChunks txt rest _ (endOffset c))) in *.
    split; [| lia].
    rewrite IHr, visible_renderedText_snoc, H1. simpl segText.
    rewrite Hc3, visible_trim.
    rewrite <- !app_assoc. f_equal.
    rewrite <- !visible_app. f_equal.
    rewrite app_assoc, slice_app by lia.
    apply slice_app; lia.
Qed.

(** Highlighting chunks that lie inside the text, do not overlap and carry
    the trimmed text of their span loses white space only. *)
Lemma highlight_keeps_visible (txt : str) (results : list TextChunk) :
  Forall (trimmedChunk txt) results ->
  ForallOrdPairs disjointChunks results ->
  visible (renderedText (computeHighlightedSegments txt results))
  = visible txt.
Proof.
  intros Hex Hdis. unfold computeHighlightedSegments.
  destruct ((length results =? 0) || (length txt =? 0)).
  { unfold renderedText. simpl. now rewrite app_nil_r. }
  pose proof (jsSort_perm byStartOffset results) as Hperm.
  pose proof (projectChunks_visible txt (jsSort byStartOffset results)
                [] 0%Z) as H.
  destruct (projectChunks txt (jsSort byStartOffset results) [] 0%Z)
    as [segs cursor].
  simpl fst in H. simpl snd in H.
  destruct H as [Hr Hc].
  - lia.
  - eapply Permutation_Forall; [symmetry; exact Hperm | exact Hex].
  - apply jsSort_sorted;
      [apply byStartOffset_total | apply byStartOffset_trans].
  - eapply ForallOrdPairs_perm;
      [apply disjointChunks_sym | symmetry; exact Hperm | exact Hdis].
  - eapply Permutation_Forall; [symmetry; exact Hperm |].
    eapply Forall_impl; [| exact Hex].
    intros c [Hc _]. simpl. lia.
  - simpl in Hr.
    destruct (Z.ltb_spec cursor (Z.of_nat (length txt))).
    + rewrite visible_renderedText_snoc, Hr. simpl segText.
      rewrite <- visible_app. f_equal. apply slice_sliceFrom. lia.
    + rewrite Hr. replace cursor with (Z.of_nat (length txt)) by lia.
      now rewrite slice_whole.
Qed.

(** ** What [searchInText] returns *)

(** A fulfilled [searchInText] returns nothing, or the chunks of the text
    with their scores, filtered, sorted and cut. *)
Lemma searchInText_fulfilled (client : Client) (query txt : str)
  (opts : SearchInTextOptions) (signal : option bool)
  (cs : list TextChunk) :
  searchInText client query txt opts signal = Fulfilled cs ->
  cs = []
  \/ exists (embeddings : list (list R)) (q : list R),
      cs = sliceTo
             (jsSort byScore
                (filter (fun c => Rleb (minScoreOf opts) (score c))
                   (mapi (fun r i =>
                            withScore r (embeddingScoreAt embeddings q (i + 1)))
                      (rawChunksOf opts txt))))
             (maxResultsOf opts).
Proof.
  unfold searchInText. rewrite rawChunksOf_strategy.
  destruct (aborted signal); [discriminate |].
  destruct (length _ =? 0).
  { intros H. injection H as <-. now left. }
  destruct (embeddingProvider client) as [p |]; [| discriminate].
  destruct (initialized client); [| discriminate].
  destruct (embedMany p _) as [embeddings | e]; [| discriminate].
  destruct (negb _); [discriminate |].
  destruct (nth_error embeddings 0) as [q |]; [| discriminate].
  destruct (length q =? 0); [discriminate |].
  intros H. injection H as <-. right. exists embeddings, q. reflexivity.
Qed.

Lemma In_mapFrom (A B : Type) (f : A -> nat -> B) (xs : list A) (i : nat)
  (y : B) :
  In y (mapFrom f i xs) -> exists x k, In x xs /\ y = f x k.
Proof.
  revert i. induction xs as [| x xs IH]; intros i; simpl; [tauto |].
  intros [<- | H].
  - exists x, i. auto.
  - destruct (IH _ H) as [x' [k [Hx Hy]]]. exists x', k. auto.
Qed.

Lemma mapFrom_length (A B : Type) (f : A -> nat -> B) (xs : list A)
  (i : nat) :
  length (mapFrom f i xs) = length xs.
Proof.
  revert i. induction xs as [| x xs IH]; intros i; simpl; auto.
Qed.

Lemma ForallOrdPairs_mapFrom (A B : Type) (Ra : A -> A -> Prop)
  (Rb : B -> B -> Prop) (f : A -> nat -> B) (xs : list A) (i : nat) :
  (forall a b j k, Ra a b -> Rb (f a j) (f b k)) ->
  ForallOrdPairs Ra xs -> ForallOrdPairs Rb (mapFrom f i xs).
Proof.
  intros Hf H. revert i.
  induction H as [| x xs Hx Hxs IH]; intros i; simpl; constructor.
  - rewrite Forall_forall in *. intros y Hy.
    destruct (In_mapFrom _ _ _ _ _ _ Hy) as [x' [k [Hin ->]]]. auto.
  - apply IH.
Qed.

Lemma ForallOrdPairs_filter (A : Type) (Ra : A -> A -> Prop)
  (p : A -> bool) (xs : list A) :
  ForallOrdPairs Ra xs -> ForallOrdPairs Ra (filter p xs).
Proof.
  induction 1 as [| x xs Hx Hxs IH]; simpl; [constructor |].
  destruct (p x); [| exact IH].
  constructor; [| exact IH].
  rewrite Forall_forall in *. intros y Hy.
  apply filter_In in Hy. now apply Hx.
Qed.

Lemma ForallOrdPairs_firstn (A : Type) (Ra : A -> A -> Prop) (n : nat)
  (xs : list A) :
  ForallOrdPairs Ra xs -> ForallOrdPairs Ra (firstn n xs).
Proof.
  intros H. revert n.
  induction H as [| x xs Hx Hxs IH]; intros [| n]; simpl; try constructor.
  - rewrite Forall_forall in *. intros y Hy.
    apply Hx. eapply In_firstn_inv. exact Hy.
  - apply IH.
Qed.

Lemma tilesFrom_chunks (txt : str) (pos : Z) (cs : list RawChunk) :
  (0 <= pos)%Z -> tilesFrom txt pos cs ->
  Forall (fun r => (pos <= rawStart r < rawEnd r)%Z
                   /\ (rawEnd r <= Z.of_nat (length txt))%Z
                   /\ rawText r = trim (slice txt (rawStart r) (rawEnd r))) cs
  /\ ForallOrdPairs (fun a b => (rawEnd a <= rawStart b)%Z) cs.
Proof.
  revert pos. induction cs as [| c cs IH]; intros pos Hp H.
  - split; constructor.
  - destruct H as [H1 [H2 [H3 [H4 H5]]]].
    destruct (IH (rawEnd c) ltac:(lia) H5) as [IHa IHb]. split.
    + constructor; [rewrite H1; repeat split; auto; lia |].
      eapply Forall_impl; [| exact IHa]. simpl.
      intros r [Hr1 [Hr2 Hr3]]. repeat split; auto; lia.
    + constructor; [| exact IHb].
      eapply Forall_impl; [| exact IHa]. simpl.
      intros r [Hr1 _]. lia.
Qed.

(** ** The paragraph chunker: its chunks lie in the text, in order *)

Lemma startsWith_spec (s sub : str) :
  startsWith s sub = true <-> exists rest, s = sub ++ rest.
Proof.
  revert s. induction sub as [| p sub IH]; intros s; simpl.
  - destruct s; (split; [intros _; eexists; reflexivity | reflexivity]).
  - destruct s as [| c s]; simpl.
    + split; [discriminate | intros [rest H]; discriminate].
    + destruct (ascii_dec c p) as [-> | Hne].
      * rewrite IH. split; intros [rest H]; exists rest; congruence.
      * split; [discriminate | intros [rest H]; congruence].
Qed.

Lemma occursInOrder_weaken (pre s : str) (paras : list str) :
  occursInOrder s paras -> occursInOrder (pre ++ s) paras.
Proof.
  destruct paras as [| p ps]; simpl; [trivial |].
  intros (pre0 & rest & -> & H).
  exists (pre ++ pre0), rest. rewrite <- app_assoc. auto.
Qed.

Lemma occursInOrder_tail (s p : str) (ps : list str) :
  occursInOrder s (p :: ps) -> occursInOrder s ps.
Proof.
  simpl. intros (pre & rest & -> & H).
  rewrite app_assoc. apply occursInOrder_weaken, H.
Qed.

(** [indexOf] finds a piece that occurs, at its first occurrence. *)
Lemma indexOfFrom_found (sub : str) (pre : str) :
  forall (s rest : str) (pos : nat),
    s = pre ++ sub ++ rest ->
    exists (i : nat) (pre' rest' mid : str),
      indexOfFrom s sub pos = Z.of_nat (pos + i)
      /\ s = pre' ++ sub ++ rest'
      /\ length pre' = i
      /\ rest' = mid ++ rest.
Proof.
  induction pre as [| x pre IH]; intros s rest pos Hs.
  - exists 0, [], rest, []. simpl in Hs.
    assert (Hst : startsWith s sub = true)
      by (apply startsWith_spec; exists rest; exact Hs).
    destruct s; simpl in *; rewrite Hst, Nat.add_0_r; auto.
  - destruct (startsWith s sub) eqn:Hst.
    + apply startsWith_spec in Hst. destruct Hst as [rest' Hr].
      assert (Hmid : exists mid, rest' = mid ++ rest).
      { rewrite Hr in Hs. rewrite (app_assoc (x :: pre)) in Hs.
        apply app_eq_app in Hs. destruct Hs as [l [[H1 H2] | [H1 H2]]].
        - apply (f_equal (@length ascii)) in H1.
          rewrite !length_app in H1. simpl in H1. lia.
        - exists l. exact H2. }
      destruct Hmid as [mid Hmid].
      exists 0, [], rest', mid.
      assert (Hst : startsWith s sub = true)
        by (apply startsWith_spec; exists rest'; exact Hr).
      destruct s; simpl in *; rewrite Hst, Nat.add_0_r; auto.
    + destruct s as [| c s]; [discriminate |].
      injection Hs as -> Hs.
      destruct (IH s rest (S pos) Hs) as (i & pre' & rest' & mid & H1 & H2
                                          & H3 & H4).
      exists (S i), (x :: pre'), rest', mid.
      change (indexOfFrom (x :: s) sub pos)
        with (if startsWith (x :: s) sub then Z.of_nat pos
              else indexOfFrom s sub (S pos)).
      rewrite Hst, H1. repeat split; simpl; try congruence.
      f_equal. lia.
Qed.

Lemma splitParagraphs_occur (s : str) :
  forall (cur : str) (inSep : bool),
    (inSep = true -> cur = []) ->
    exists (pre p rest : str) (ps : list str),
      splitParagraphs s cur inSep = (cur ++ p) :: ps
      /\ s = pre ++ p ++ rest
      /\ occursInOrder rest ps
      /\ (inSep = false -> pre = []).
Proof.
  induction s as [| c s IH]; intros cur inSep Hcur.
  - exists [], [], [], []. simpl. rewrite app_nil_r. auto.
  - assert (Hgo : exists (p rest : str) (ps : list str),
               splitParagraphs s (cur ++ [c]) false = (cur ++ c :: p) :: ps
               /\ c :: s = [] ++ (c :: p) ++ rest
               /\ occursInOrder rest ps).
    { destruct (IH (cur ++ [c]) false ltac:(discriminate))
        as (pre & p & rest & ps & H1 & H2 & H3 & H4).
      rewrite (H4 eq_refl) in H2. exists p, rest, ps.
      rewrite H1, <- app_assoc. simpl in *. subst s. auto. }
    simpl splitParagraphs.
    destruct (isNewline c) eqn:Ec.
    + destruct inSep.
      * destruct (IH [] true ltac:(reflexivity))
          as (pre & p & rest & ps & H1 & H2 & H3 & _).
        exists (c :: pre), p, rest, ps. rewrite (Hcur eq_refl), H1.
        simpl. subst s. repeat split; auto. discriminate.
      * destruct s as [| c2 s2].
        { destruct Hgo as (p & rest & ps & H1 & H2 & H3).
          exists [], (c :: p), rest, ps. auto. }
        destruct (isNewline c2) eqn:Ec2.
        { destruct (IH [] true ltac:(reflexivity))
            as (pre & p & rest & ps & H1 & H2 & H3 & _).
          exists [], [], (c :: c2 :: s2), (p :: ps).
          rewrite app_nil_r, H1. simpl. repeat split; auto.
          exists (c :: pre), rest. simpl. split; [congruence | exact H3]. }
        destruct Hgo as (p & rest & ps & H1 & H2 & H3).
        exists [], (c :: p), rest, ps. auto.
    + destruct Hgo as (p & rest & ps & H1 & H2 & H3).
      exists [], (c :: p), rest, ps. auto.
Qed.

Lemma ForallOrdPairs_snoc (A : Type) (before : A -> A -> Prop)
  (l : list A) (x : A) :
  ForallOrdPairs before l -> Forall (fun y => before y x) l ->
  ForallOrdPairs before (l ++ [x]).
Proof.
  induction 1 as [| y l Hy Hl IH]; intros Hx; simpl.
  - constructor; constructor.
  - inversion Hx as [| y' l' Hyx Hlx]; subst.
    constructor; [| apply IH, Hlx].
    apply Forall_app. split; [exact Hy | constructor; [exact Hyx |]].
    constructor.
Qed.

Lemma pushParagraphs_chunks (txt : str) (paras : list str) :
  forall (o : nat) (chunks : list RawChunk),
    o <= length txt ->
    occursInOrder (skipn o txt) paras ->
    Forall (spansText txt) chunks ->
    ForallOrdPairs (fun a b => (rawEnd a <= rawStart b)%Z) chunks ->
    Forall (fun c => (rawEnd c <= Z.of_nat o)%Z) chunks ->
    let cs := pushParagraphs txt paras (Z.of_nat o) chunks in
    Forall (spansText txt) cs
    /\ ForallOrdPairs (fun a b => (rawEnd a <= rawStart b)%Z) cs.
Proof.
  induction paras as [| para paras IH]; intros o chunks Ho Hocc Hsp Hord Hend.
  - simpl. auto.
  - simpl pushParagraphs.
    destruct (Nat.ltb_spec 0 (length (trim para))) as [Hne | He].
    2:{ apply IH; auto. eapply occursInOrder_tail, Hocc. }
    destruct Hocc as (pre & rest & Hs & Hrest).
    unfold indexOf. rewrite Nat2Z.id, (Nat.min_l o) by exact Ho.
    destruct (indexOfFrom_found para pre (skipn o txt) rest o Hs)
      as (i & pre' & rest' & mid & H1 & H2 & H3 & H4).
    rewrite H1.
    assert (Hsk : skipn (o + i) txt = para ++ rest').
    { replace (o + i) with (i + o) by lia.
      rewrite <- skipn_skipn, H2, <- H3.
      rewrite skipn_app, Nat.sub_diag, skipn_all. reflexivity. }
    assert (Hoi : o + i <= length txt).
    { apply (f_equal (@length ascii)) in H2.
      rewrite length_skipn, !length_app in H2. lia. }
    destruct (slice_of_skipn txt para rest' (o + i) Hsk Hoi)
      as (Hslice & Hskip & Hle).
    assert (Hpara : 0 < length para).
    { destruct para; [simpl in Hne; lia | simpl; lia]. }
    replace (Z.of_nat (o + i) + Z.of_nat (length para))%Z
      with (Z.of_nat (o + i + length para)) by lia.
    apply IH.
    + exact Hle.
    + rewrite Hskip, H4. apply occursInOrder_weaken, Hrest.
    + apply Forall_app. split; [exact Hsp |].
      constructor; [| constructor].
      unfold spansText. simpl. rewrite Hslice.
      repeat split; try lia.
      intros E. rewrite E in Hne. simpl in Hne. lia.
    + apply ForallOrdPairs_snoc; [exact Hord |].
      eapply Forall_impl; [| exact Hend]. simpl. intros c Hc. lia.
    + apply Forall_app. split.
      * eapply Forall_impl; [| exact Hend]. simpl. intros c Hc. lia.
      * constructor; [simpl; lia | constructor].
Qed.

Lemma chunkByParagraphs_spans (txt : str) :
  Forall (spansText txt) (chunkByParagraphs txt)
  /\ ForallOrdPairs (fun a b => (rawEnd a <= rawStart b)%Z)
       (chunkByParagraphs txt).
Proof.
  unfold chunkByParagraphs.
  destruct (splitParagraphs_occur txt [] false ltac:(discriminate))
    as (pre & p & rest & ps & H1 & H2 & H3 & H4).
  rewrite H1. simpl app.
  apply (pushParagraphs_chunks txt (p :: ps) 0 []); try constructor.
  - lia.
  - simpl. exists pre, rest. auto.
Qed.

(** X3.  Every chunk of [chunkByParagraphs] spans at least one character
    inside the text and carries the trimmed text of its span, which is
    never empty; the chunks follow one another in the text without
    overlap. *)
Theorem chunkByParagraphs_chunks (txt : str) :
  Forall (fun c =>
            (0 <= rawStart c < rawEnd c)%Z
            /\ (rawEnd c <= Z.of_nat (length txt))%Z
            /\ rawText c = trim (slice txt (rawStart c) (rawEnd c))
            /\ rawText c <> [])
    (chunkByParagraphs txt)
  /\ ForallOrdPairs (fun a b => (rawEnd a <= rawStart b)%Z)
       (chunkByParagraphs txt).
Proof. exact (chunkByParagraphs_spans txt). Qed.
Lemma rawChunksOf_chunks (opts : SearchInTextOptions) (txt : str) :
  Forall (fun r => (0 <= rawStart r < rawEnd r)%Z
                   /\ (rawEnd r <= Z.of_nat (length txt))%Z
                   /\ rawText r = trim (slice txt (rawStart r) (rawEnd r)))
    (rawChunksOf opts txt)
  /\ ForallOrdPairs (fun a b => (rawEnd a <= rawStart b)%Z)
       (rawChunksOf opts txt).
Proof.
  assert (Hs : rawChunksOf opts txt = chunkBySentences txt
               \/ rawChunksOf opts txt = chunkByParagraphs txt).
  { unfold rawChunksOf. destruct (chunkStrategy opts) as [[|] |]; auto. }
  destruct Hs as [-> | ->].
  - destruct (chunkBySentences_tiling txt) as [Ht _].
    exact (tilesFrom_chunks _ _ _ (Z.le_refl 0) Ht).
  - destruct (chunkByParagraphs_spans txt) as [Ha Hb].
    split; [| exact Hb].
    eapply Forall_impl; [| exact Ha]. unfold spansText. simpl. tauto.
Qed.

(** The chunks that [searchInText] returns lie inside the text, do not
    overlap and carry the trimmed text of their span. *)
Lemma searchInText_chunks (client : Client) (query txt : str)
  (opts : SearchInTextOptions) (signal : option bool)
  (cs : list TextChunk) :
  searchInText client query txt opts signal = Fulfilled cs ->
  Forall (trimmedChunk txt) cs /\ ForallOrdPairs disjointChunks cs.
Proof.
  intros H.
  destruct (searchInText_fulfilled _ _ _ _ _ _ H) as [-> | [embs [q ->]]].
  { split; constructor. }
  destruct (rawChunksOf_chunks opts txt) as [Ha Hb].
  unfold sliceTo, mapi. split.
  - rewrite Forall_forall. intros c Hc.
    apply In_firstn_inv in Hc. apply jsSort_In in Hc.
    apply filter_In in Hc. destruct Hc as [Hc _].
    destruct (In_mapFrom _ _ _ _ _ _ Hc) as [r [k [Hr ->]]].
    rewrite Forall_forall in Ha. specialize (Ha r Hr).
    unfold trimmedChunk, withScore. simpl. tauto.
  - apply ForallOrdPairs_firstn.
    eapply ForallOrdPairs_perm;
      [apply disjointChunks_sym | symmetry; apply jsSort_perm |].
    apply ForallOrdPairs_filter.
    eapply ForallOrdPairs_mapFrom; [| exact Hb].
    intros a b j k Hab. left. exact Hab.
Qed.

(** X4.  Highlighting the chunks that [searchInText] returned for a text,
    under either chunk strategy, keeps every character of the text that is
    not white space, in its order: the segments differ from the text by
    white space only. *)
Theorem searchInText_highlight_keeps_visible (client : Client)
  (query txt : str) (opts : SearchInTextOptions) (signal : option bool)
  (cs : list TextChunk) :
  searchInText client query txt opts signal = Fulfilled cs ->
  visible (renderedText (computeHighlightedSegments txt cs)) = visible txt.
Proof.
  intros H.
  destruct (searchInText_chunks _ _ _ _ _ _ H) as [Ha Hb].
  now apply highlight_keeps_visible.
Qed.

Lemma searchInText_highlight_keeps_visible_witness :
  let txt := lit "Hello world. How are you?" in
  let cs := scoredChunks 1 (chunkBySentences txt) in
  renderedText (computeHighlightedSegments txt cs)
  = lit "Hello world.How are you?"
  /\ visible (renderedText (computeHighlightedSegments txt cs)) = visible txt.
Proof.
  intros txt cs. split.
  - vm_compute. reflexivity.
  - apply (searchInText_highlight_keeps_visible agreeingClient (lit "you")
             txt defaultOptions None cs).
    exact searchInText_hello_world.
Defined.

(** ** [tokenize]: the shape of the tokens *)

Lemma normChar_class (c : ascii) :
  isSpace (normChar c) = true \/ isLowerWordChar (normChar c) = true.
Proof.
  destruct c as [[] [] [] [] [] [] [] []]; vm_compute; auto.
Qed.

Lemma splitSpaces_chars (s cur : str) (inSep : bool) (w : str) (c : ascii) :
  In w (splitSpaces s cur inSep) -> In c w ->
  (In c s \/ In c cur) /\ isSpace c = false \/ In c cur.
Proof.
  revert cur inSep. induction s as [| x s IH]; intros cur inSep Hw Hc.
  - simpl in Hw. destruct Hw as [<- | []]. now right.
  - simpl in Hw. destruct (isSpace x) eqn:E.
    + destruct inSep.
      * destruct (IH _ _ Hw Hc) as [[[H | []] Hs] | []].
        left. split; [left; now right | exact Hs].
      * destruct Hw as [<- | Hw]; [now right |].
        destruct (IH _ _ Hw Hc) as [[[H | []] Hs] | []].
        left. split; [left; now right | exact Hs].
    + destruct (IH _ _ Hw Hc) as [[[H | H] Hs] | H].
      * left. split; [left; now right | exact Hs].
      * apply in_app_or in H. destruct H as [H | [<- | []]].
        -- now right.
        -- left. split; [left; now left | exact E].
      * apply in_app_or in H. destruct H as [H | [<- | []]].
        -- now right.
        -- left. split; [left; now left | exact E].
Qed.

(** The tokens of a text are not empty and made of the characters [a-z],
    [0-9] and [_]. *)
Lemma tokenize_shape (s w : str) :
  In w (tokenize s) -> w <> [] /\ forallb isLowerWordChar w = true.
Proof.
  intros H. split; [exact (proj1 (tokenize_tokens _ _ H)) |].
  rewrite tokenize_words in H. unfold words in H.
  apply filter_In in H. destruct H as [H _].
  apply forallb_forall. intros c Hc.
  destruct (splitSpaces_chars _ _ _ _ _ H Hc) as [[[Hin | []] Hs] | []].
  apply in_map_iff in Hin. destruct Hin as [c0 [<- _]].
  destruct (normChar_class c0) as [Hsp | Hw]; [congruence | exact Hw].
Qed.

Lemma normChar_fixes_token_char (c : ascii) :
  isLowerWordChar c = true -> normChar c = c /\ isSpace c = false.
Proof.
  destruct c as [[] [] [] [] [] [] [] []]; vm_compute; intros H;
    try discriminate H; auto.
Qed.

Lemma splitSpaces_no_space_input (s cur : str) :
  forallb (fun c => negb (isSpace c)) s = true ->
  splitSpaces s cur false = [cur ++ s].
Proof.
  revert cur. induction s as [| c s IH]; intros cur H; simpl.
  - now rewrite app_nil_r.
  - simpl in H. apply andb_prop in H. destruct H as [Hc Hs].
    apply negb_true_iff in Hc. rewrite Hc.
    rewrite IH by exact Hs. now rewrite <- app_assoc.
Qed.

(** A token is its own single token. *)
Lemma tokenize_token (w : str) :
  w <> [] -> forallb isLowerWordChar w = true -> tokenize w = [w].
Proof.
  intros Hne Hw. rewrite tokenize_words.
  assert (Hmap : map normChar w = w).
  { rewrite forallb_forall in Hw.
    rewrite <- (map_id w) at 2. apply map_ext_in.
    intros c Hc. apply normChar_fixes_token_char. now apply Hw. }
  rewrite Hmap. unfold words.
  rewrite splitSpaces_no_space_input.
  - simpl. destruct w; [congruence | reflexivity].
  - apply forallb_forall. intros c Hc. rewrite forallb_forall in Hw.
    apply negb_true_iff. now apply normChar_fixes_token_char, Hw.
Qed.

(** X5.  Every token that [tokenize] returns is a non-empty string of the
    characters [a-z], [0-9] and [_]. *)
Theorem tokenize_tokens_are_words (s w : str) :
  In w (tokenize s) -> w <> [] /\ forallb isLowerWordChar w = true.
Proof. apply tokenize_shape. Qed.

Lemma tokenize_tokens_are_words_witness :
  tokenize (lit "Hello, World_2!") = [lit "hello"; lit "world_2"]
  /\ lit "world_2" <> [] /\ forallb isLowerWordChar (lit "world_2") = true.
Proof.
  split; [vm_compute; reflexivity |].
  apply (tokenize_tokens_are_words (lit "Hello, World_2!") (lit "world_2")).
  vm_compute. right. left. reflexivity.
Defined.

(** X6.  Tokenizing is stable: the tokens of a text, joined by spaces and
    tokenized again, are the same tokens; and the case of the text does not
    matter. *)
Theorem tokenize_round_trip (s : str) :
  tokenize (join (lit " ") (tokenize s)) = tokenize s
  /\ tokenize (toLowerCase s) = tokenize s.
Proof.
  split; [| apply tokenize_toLowerCase].
  rewrite tokenize_join.
  assert (H : forall ws, (forall w, In w ws -> tokenize w = [w]) ->
                         concat (map tokenize ws) = ws).
  { induction ws as [| w ws IH]; intros Hw; [reflexivity |].
    simpl. rewrite (Hw w) by now left. simpl. f_equal.
    apply IH. intros w' Hin. apply Hw. now right. }
  apply H. intros w Hw.
  destruct (tokenize_shape _ _ Hw). now apply tokenize_token.
Qed.

(** ** [cosineSimilarity]: symmetry *)

Section CosineMore.
Local Open Scope R_scope.

Lemma dot_comm (a b : list R) : dot a b = dot b a.
Proof.
  revert b. induction a as [| x a IH]; intros [| y b]; simpl; auto.
  rewrite IH. ring.
Qed.

Lemma cosineSimilarity_cases (a b : list R) :
  (a = [] \/ b = [] \/ length a <> length b)
  \/ (a <> [] /\ b <> [] /\ length a = length b).
Proof.
  destruct a as [| x a]; [left; auto |].
  destruct b as [| y b]; [left; auto |].
  destruct (Nat.eq_dec (length (x :: a)) (length (y :: b))).
  - right. repeat split; auto; discriminate.
  - left. auto.
Qed.

(** X7.  [cosineSimilarity] is symmetric in its two vectors. *)
Theorem cosineSimilarity_symmetric (a b : list R) :
  cosineSimilarity a b = cosineSimilarity b a.
Proof.
  destruct (cosineSimilarity_cases a b) as [H | [Ha [Hb Hl]]].
  - rewrite (@cosineSimilarity_degenerate a b H).
    symmetry. apply cosineSimilarity_degenerate.
    destruct H as [H | [H | H]]; auto.
  - rewrite !cosineSimilarity_regular by auto.
    rewrite (dot_comm a b), (Rmult_comm (norm a) (norm b)). reflexivity.
Qed.

End CosineMore.

(** ** The stable sort keeps equal elements in their order *)

Lemma insertSorted_filter (A : Type) (before : A -> A -> bool)
  (P : A -> bool) (x : A) (l : list A) :
  (forall a b, P a = true -> P b = true -> before a b = true) ->
  filter P (insertSorted before x l) = filter P (x :: l).
Proof.
  intros HP. induction l as [| y l IH]; [reflexivity |].
  simpl insertSorted. destruct (before x y) eqn:E; [reflexivity |].
  simpl. simpl in IH. rewrite IH.
  destruct (P x) eqn:Ex, (P y) eqn:Ey; try reflexivity.
  rewrite (HP x y Ex Ey) in E. discriminate.
Qed.

(** Elements that the comparator does not tell apart come out of the sort
    in the order they went in. *)
Lemma jsSort_stable (A : Type) (before : A -> A -> bool) (P : A -> bool)
  (l : list A) :
  (forall a b, P a = true -> P b = true -> before a b = true) ->
  filter P (jsSort before l) = filter P l.
Proof.
  intros HP. induction l as [| x l IH]; [reflexivity |].
  simpl jsSort. rewrite insertSorted_filter by exact HP.
  simpl. now rewrite IH.
Qed.

(** ** [searchItems]: what becomes of the items *)

Section SearchItemsMore.
Local Open Scope R_scope.

Lemma map_item_mapFrom (g : SearchItem -> nat -> R) (xs : list SearchItem)
  (i : nat) :
  map item (mapFrom (fun it k => mkRanked it (g it k)) i xs) = xs.
Proof.
  revert i. induction xs as [| x xs IH]; intros i; simpl; [reflexivity |].
  now rewrite IH.
Qed.

Lemma map_item_ranked (g : SearchItem -> R) (xs : list SearchItem) :
  map item (map (fun it => mkRanked it (g it)) xs) = xs.
Proof.
  rewrite map_map. simpl. apply map_id.
Qed.

(** The lexical ranking: the items with their fallback scores, sorted
    unless the query has no token. *)
Lemma lexicalRank_fallback (query : str) (items : list SearchItem) :
  lexicalRank query items
  = (if length (newSet (tokenize query)) =? 0
     then map (fun it => mkRanked it (fallbackScore query it)) items
     else jsSort byItemScore
            (map (fun it => mkRanked it (fallbackScore query it)) items)).
Proof.
  unfold lexicalRank, fallbackScore.
  destruct (length (newSet (tokenize query)) =? 0); reflexivity.
Qed.

Lemma lexicalRank_items (query : str) (items : list SearchItem) :
  Permutation (map item (lexicalRank query items)) items.
Proof.
  rewrite lexicalRank_fallback.
  destruct (length (newSet (tokenize query)) =? 0).
  - now rewrite map_item_ranked.
  - rewrite (Permutation_map item (jsSort_perm byItemScore _)).
    now rewrite map_item_ranked.
Qed.

(** X10.  A ranking returned by [searchItems] holds every item exactly once:
    its items are a permutation of the items given, on the embedding path
    as on the lexical one. *)
Theorem searchItems_ranks_every_item (client : Client) (query : str)
  (items : list SearchItem) (signal : option bool) (rs : list RankedItem) :
  searchItems client query items signal = Fulfilled rs ->
  Permutation (map item rs) items /\ length rs = length items.
Proof.
  intros H.
  assert (Hperm : Permutation (map item rs) items).
  { revert H. unfold searchItems.
    destruct (length items =? 0) eqn:E0.
    { intros H. injection H as <-.
      destruct items; [constructor | discriminate]. }
    destruct (aborted signal); [discriminate |].
    assert (Hlex : Fulfilled (lexicalRank query items) = Fulfilled rs ->
                   Permutation (map item rs) items).
    { intros H. injection H as <-. apply lexicalRank_items. }
    destruct (embeddingProvider client) as [p |]; [| exact Hlex].
    destruct (initialized client); [| exact Hlex].
    destruct (embeddingRank p query items) as [scored | err] eqn:E.
    - intros H. injection H as <-. revert E. unfold embeddingRank.
      destruct (embedMany p _) as [embeddings | e]; [| discriminate].
      destruct (negb _); [discriminate |].
      destruct (nth_error embeddings 0) as [q |]; [| discriminate].
      destruct (length q =? 0); [discriminate |].
      intros H. injection H as <-.
      rewrite (Permutation_map item (jsSort_perm byItemScore _)).
      unfold mapi.
      now rewrite (map_item_mapFrom
                     (fun it i =>
                        Rmin (embeddingScoreAt embeddings q (i + 1)
                              + keywordBoost (toLowerCase query)
                                  (tokenize query)
                                  match nth_error (map itemText items) i with
                                  | Some t => toLowerCase t
                                  | None => []
                                  end it) 1)).
    - destruct (isAbortError err); [discriminate | exact Hlex]. }
  split; [exact Hperm |].
  rewrite <- (length_map item). now apply Permutation_length.
Qed.

Lemma searchItems_ranks_every_item_witness :
  Permutation
    (map item (lexicalRank (lit "dog") [catItem; dogItem]))
    [catItem; dogItem]
  /\ length (lexicalRank (lit "dog") [catItem; dogItem]) = 2%nat.
Proof.
  exact (searchItems_ranks_every_item lexicalClient (lit "dog")
           [catItem; dogItem] None _ eq_refl).
Defined.

Lemma filter_map_ranked (g : SearchItem -> R) (P : R -> bool)
  (xs : list SearchItem) :
  map item (filter (fun r => P (itemScore r))
              (map (fun it => mkRanked it (g it)) xs))
  = filter (fun it => P (g it)) xs.
Proof.
  induction xs as [| x xs IH]; simpl; [reflexivity |].
  destruct (P (g x)); simpl; now rewrite IH.
Qed.

(** X11.  Without an embedding provider every item of the ranking carries
    its fallback score, and the items that share a score stay in the order
    in which they were given. *)
Theorem searchItems_fallback_stable (client : Client) (query : str)
  (items : list SearchItem) (signal : option bool) (rs : list RankedItem) :
  embeddingProvider client = None ->
  searchItems client query items signal = Fulfilled rs ->
  Forall (fun r => itemScore r = fallbackScore query (item r)) rs
  /\ forall s,
      map item (filter (fun r => Reqb (itemScore r) s) rs)
      = filter (fun it => Reqb (fallbackScore query it) s) items.
Proof.
  intros Hp. unfold searchItems. rewrite Hp.
  destruct (length items =? 0) eqn:E0.
  { intros H. injection H as <-.
    destruct items; [split; [constructor | reflexivity] | discriminate]. }
  destruct (aborted signal); [discriminate |].
  intros H. injection H as <-. rewrite lexicalRank_fallback.
  assert (Hscores : Forall (fun r => itemScore r = fallbackScore query (item r))
                      (map (fun it => mkRanked it (fallbackScore query it))
                         items)).
  { apply Forall_forall. intros r Hr. apply in_map_iff in Hr.
    destruct Hr as [it [<- _]]. reflexivity. }
  destruct (length (newSet (tokenize query)) =? 0).
  - split; [exact Hscores |]. intros s.
    apply (filter_map_ranked (fallbackScore query) (fun x => Reqb x s)).
  - split.
    + eapply Permutation_Forall; [symmetry; apply jsSort_perm | exact Hscores].
    + intros s. rewrite jsSort_stable.
      * apply (filter_map_ranked (fallbackScore query) (fun x => Reqb x s)).
      * intros a b Ha Hb. apply Reqb_true in Ha. apply Reqb_true in Hb.
        unfold byItemScore. apply Rleb_true. lra.
Qed.

Lemma searchItems_fallback_stable_witness :
  Forall (fun r => itemScore r = fallbackScore (lit "bird") (item r))
    (lexicalRank (lit "bird") [dogItem; catItem])
  /\ forall s,
      map item (filter (fun r => Reqb (itemScore r) s)
                  (lexicalRank (lit "bird") [dogItem; catItem]))
      = filter (fun it => Reqb (fallbackScore (lit "bird") it) s)
          [dogItem; catItem].
Proof.
  exact (searchItems_fallback_stable lexicalClient (lit "bird")
           [dogItem; catItem] None _ eq_refl eq_refl).
Defined.

End SearchItemsMore.

(** ** The lexical fallback: queries without words, full matches *)

Section FallbackMore.
Local Open Scope R_scope.

Lemma splitSpaces_all_space (s : str) (inSep : bool) :
  forallb isSpace s = true ->
  filter (fun w => 0 <? length w) (splitSpaces s [] inSep) = [].
Proof.
  revert inSep. induction s as [| c s IH]; intros inSep H; [reflexivity |].
  simpl in H. apply andb_prop in H. destruct H as [Hc Hs].
  simpl. rewrite Hc. destruct inSep; simpl; now apply IH.
Qed.

Lemma normChar_blank (c : ascii) :
  isWordChar (lowerChar c) = false -> isSpace (normChar c) = true.
Proof.
  destruct c as [[] [] [] [] [] [] [] []]; vm_compute; intros H;
    try discriminate H; reflexivity.
Qed.

(** A text without a letter, a digit or an underscore has no token. *)
Lemma tokenize_no_word (s : str) :
  forallb (fun c => negb (isWordChar (lowerChar c))) s = true ->
  tokenize s = [].
Proof.
  intros H. rewrite tokenize_words. apply splitSpaces_all_space.
  rewrite forallb_forall in *. intros c Hc.
  apply in_map_iff in Hc. destruct Hc as [c0 [<- Hc0]].
  apply normChar_blank. specialize (H c0 Hc0).
  now apply negb_true_iff in H.
Qed.

(** X12.  Without an embedding provider, a query that holds no letter, no
    digit and no underscore (the empty query among them) ranks nothing:
    [searchItems] returns the items in the order given, each with score
    0. *)
Theorem searchItems_query_without_words (client : Client) (query : str)
  (items : list SearchItem) (signal : option bool) :
  embeddingProvider client = None ->
  aborted signal = false ->
  forallb (fun c => negb (isWordChar (lowerChar c))) query = true ->
  searchItems client query items signal
  = Fulfilled (map (fun it => mkRanked it 0) items).
Proof.
  intros Hp Ha Hq. unfold searchItems. rewrite Hp, Ha.
  destruct items as [| it items]; [reflexivity |].
  cbn [length Nat.eqb]. unfold lexicalRank.
  rewrite (tokenize_no_word _ Hq). reflexivity.
Qed.

Lemma searchItems_query_without_words_witness :
  searchItems lexicalClient (lit "?! ...") [dogItem; catItem] None
  = Fulfilled [mkRanked dogItem 0; mkRanked catItem 0].
Proof.
  apply (searchItems_query_without_words lexicalClient (lit "?! ...")
           [dogItem; catItem] None); reflexivity.
Defined.

Lemma matchScore_all_one (f : str -> R) (words : list str) (m : R) :
  (forall w, In w words -> f w = 1) ->
  fold_left (fun m w => m + f w) words m = m + INR (length words).
Proof.
  revert m. induction words as [| w ws IH]; intros m H.
  - simpl. ring.
  - cbn [fold_left]. rewrite IH by (intros w' Hw'; apply H; now right).
    rewrite (H w) by now left.
    change (length (w :: ws)) with (S (length ws)). rewrite S_INR. ring.
Qed.

(** X13.  In the lexical fallback an item gets the score 1 when every token
    of the query is a token of its label, of its description or of one of
    its keywords. *)
Theorem fallbackScore_full_match (query : str) (it : SearchItem) :
  tokenize query <> [] ->
  (forall t, In t (tokenize query) ->
             exists part, In part (itemParts it) /\ In t (tokenize part)) ->
  fallbackScore query it = 1.
Proof.
  intros Hne Hall. unfold fallbackScore.
  assert (Hne' : newSet (tokenize query) <> []).
  { intros H. destruct (tokenize query) as [| t ts] eqn:E; [congruence |].
    assert (Hin : In t (newSet (t :: ts))) by (apply newSet_In; now left).
    rewrite H in Hin. contradiction. }
  destruct (newSet (tokenize query)) as [| t ts] eqn:Eset; [congruence |].
  cbn [length Nat.eqb]. unfold lexicalScore.
  rewrite matchScore_all_one.
  - rewrite Rplus_0_l.
    assert (Hpos : 0 < INR (length (t :: ts))) by (apply lt_0_INR; simpl; lia).
    replace (INR (length (t :: ts)) / INR (length (t :: ts))) with 1
      by (field; lra).
    apply Rmin_left. lra.
  - intros w Hw. unfold wordCredit.
    assert (Hq : In w (tokenize query)).
    { apply (proj1 (newSet_In (tokenize query) w)). rewrite Eset. exact Hw. }
    destruct (Hall w Hq) as [part [Hpart Ht]].
    assert (Hin : In w (newSet (tokenize
                                  (toLowerCase
                                     (join (lit " ") (itemParts it)))))).
    { apply newSet_In. rewrite tokenize_toLowerCase, tokenize_join.
      apply in_concat. exists (tokenize part). split; [| exact Ht].
      now apply in_map. }
    apply setHas_In in Hin. rewrite Hin. lra.
Qed.

Lemma fallbackScore_full_match_witness :
  fallbackScore (lit "Dog, dog!") dogItem = 1.
Proof.
  apply fallbackScore_full_match.
  - vm_compute. discriminate.
  - intros t Ht. exists (lit "Dog"). split; [now left |].
    vm_compute in Ht. vm_compute.
    destruct Ht as [<- | [<- | []]]; now left.
Defined.

End FallbackMore.

(** ** Cancellation and failures of the collaborator *)

(** X14.  [searchItems] with at least one item: an aborted signal makes it
    reject with an [AbortError] before anything else; when the collaborator
    rejects, an [AbortError] is passed on and every other failure is
    replaced by the lexical ranking.  With no item it returns the empty
    list, aborted or not. *)
Theorem searchItems_cancellation (client : Client) (query : str)
  (items : list SearchItem) (signal : option bool) :
  (items = [] -> searchItems client query items signal = Fulfilled [])
  /\ (items <> [] -> aborted signal = true ->
      searchItems client query items signal
      = Rejected (AbortError "Search aborted"))
  /\ (forall p e,
         items <> [] -> aborted signal = false ->
         embeddingProvider client = Some p -> initialized client = true ->
         embedMany p (query :: map itemText items) = Rejected e ->
         searchItems client query items signal
         = if isAbortError e then Rejected e
           else Fulfilled (lexicalRank query items)).
Proof.
  unfold searchItems. rewrite length_eqb_0. repeat split.
  - intros ->. reflexivity.
  - intros Hne Ha. rewrite Ha. destruct items; [congruence | reflexivity].
  - intros p e Hne Ha Hp Hi He. rewrite Ha, Hp, Hi.
    destruct items as [| it items]; [congruence |].
    unfold embeddingRank. rewrite He. reflexivity.
Qed.

Lemma searchItems_cancellation_witness :
  searchItems lexicalClient (lit "cat") [] (Some true) = Fulfilled []
  /\ searchItems lexicalClient (lit "cat") [catItem] (Some true)
     = Rejected (AbortError "Search aborted")
  /\ searchItems (mkClient (Some abortingProvider) true) (lit "cat")
       [catItem] None
     = Rejected (AbortError "The operation was aborted").
Proof.
  split; [| split].
  - apply (proj1 (searchItems_cancellation lexicalClient (lit "cat") []
                    (Some true))). reflexivity.
  - apply (proj1 (proj2 (searchItems_cancellation lexicalClient (lit "cat")
                           [catItem] (Some true)))).
    + discriminate.
    + reflexivity.
  - apply (proj2 (proj2 (searchItems_cancellation
                           (mkClient (Some abortingProvider) true)
                           (lit "cat") [catItem] None))
             abortingProvider (AbortError "The operation was aborted")).
    + discriminate.
    + reflexivity.
    + reflexivity.
    + reflexivity.
    + reflexivity.
Defined.

(** X15.  [searchInText] has no fallback: an aborted signal makes it reject
    with an [AbortError] whatever the text and the client are, and a
    rejection of the collaborator, of any kind, is the rejection of
    [searchInText]. *)
Theorem searchInText_propagates (client : Client) (query txt : str)
  (opts : SearchInTextOptions) (signal : option bool) :
  (aborted signal = true ->
   searchInText client query txt opts signal
   = Rejected (AbortError "Search aborted"))
  /\ (forall p e,
         aborted signal = false ->
         rawChunksOf opts txt <> [] ->
         embeddingProvider client = Some p -> initialized client = true ->
         embedMany p (query :: map rawText (rawChunksOf opts txt))
         = Rejected e ->
         searchInText client query txt opts signal = Rejected e).
Proof.
  unfold searchInText. rewrite rawChunksOf_strategy, length_eqb_0. split.
  - intros Ha. rewrite Ha. reflexivity.
  - intros p e Ha Hne Hp Hi He. rewrite Ha, Hp, Hi.
    destruct (rawChunksOf opts txt) as [| c cs]; [congruence |].
    rewrite He. reflexivity.
Qed.

Lemma searchInText_propagates_witness :
  searchInText lexicalClient (lit "you") (lit "") defaultOptions (Some true)
  = Rejected (AbortError "Search aborted")
  /\ searchInText (mkClient (Some failingProvider) true) (lit "you")
       (lit "Hello world. How are you?") defaultOptions None
     = Rejected (Error "model crashed").
Proof.
  split.
  - apply (proj1 (searchInText_propagates lexicalClient (lit "you") (lit "")
                    defaultOptions (Some true))). reflexivity.
  - apply (proj2 (searchInText_propagates
                    (mkClient (Some failingProvider) true) (lit "you")
                    (lit "Hello world. How are you?") defaultOptions None)
             failingProvider (Error "model crashed")).
    + reflexivity.
    + vm_compute. discriminate.
    + reflexivity.
    + reflexivity.
    + reflexivity.
Defined.

(** ** [searchInText]: the size and the origin of the results *)

Lemma sliceBound_le (len : nat) (n : Z) :
  (0 <= n)%Z -> sliceBound len n <= Z.to_nat n.
Proof.
  intros H. unfold sliceBound. destruct (Z.ltb_spec n 0); lia.
Qed.

(** X16.  A result of [searchInText] holds at most [maxResults] chunks
    (when that bound is not negative) and never more than the text has
    chunks, and each of them is a chunk of the text under the strategy in
    force, with its text and its offsets unchanged. *)
Theorem searchInText_results_bounded (client : Client) (query txt : str)
  (opts : SearchInTextOptions) (signal : option bool)
  (cs : list TextChunk) :
  searchInText client query txt opts signal = Fulfilled cs ->
  ((0 <= maxResultsOf opts)%Z ->
   length cs <= Z.to_nat (maxResultsOf opts))
  /\ length cs <= length (rawChunksOf opts txt)
  /\ Forall (fun c => exists r, In r (rawChunksOf opts txt)
                                /\ c = withScore r (score c)) cs.
Proof.
  intros H.
  destruct (searchInText_fulfilled _ _ _ _ _ _ H) as [-> | [embs [q ->]]].
  { repeat split; simpl; try lia. constructor. }
  unfold sliceTo. repeat split.
  - intros Hmax. rewrite length_firstn.
    pose proof (sliceBound_le
                  (length (jsSort byScore
                             (filter (fun c => Rleb (minScoreOf opts) (score c))
                                (mapi (fun r i =>
                                         withScore r
                                           (embeddingScoreAt embs q (i + 1)))
                                   (rawChunksOf opts txt)))))
                  (maxResultsOf opts) Hmax).
    lia.
  - rewrite length_firstn, jsSort_length.
    pose proof (filter_length_le
                  (fun c => Rleb (minScoreOf opts) (score c))
                  (mapi (fun r i =>
                           withScore r (embeddingScoreAt embs q (i + 1)))
                     (rawChunksOf opts txt))) as Hf.
    unfold mapi in *. rewrite mapFrom_length in Hf. lia.
  - rewrite Forall_forall. intros c Hc.
    apply In_firstn_inv in Hc. apply jsSort_In in Hc.
    apply filter_In in Hc. destruct Hc as [Hc _].
    destruct (In_mapFrom _ _ _ _ _ _ Hc) as [r [k [Hr ->]]].
    exists r. split; [exact Hr | reflexivity].
Qed.

Lemma searchInText_results_bounded_witness :
  let cs := scoredChunks 1 (chunkBySentences (lit "Hello world. How are you?"))
  in
  length cs <= 5
  /\ length cs
     <= length (rawChunksOf defaultOptions (lit "Hello world. How are you?"))
  /\ Forall (fun c =>
               exists r,
                 In r (rawChunksOf defaultOptions
                         (lit "Hello world. How are you?"))
                 /\ c = withScore r (score c)) cs.
Proof.
  intros cs.
  destruct (searchInText_results_bounded agreeingClient (lit "you")
              (lit "Hello world. How are you?") defaultOptions None cs
              searchInText_hello_world) as [H1 [H2 H3]].
  split; [apply H1; discriminate | split; [exact H2 | exact H3]].
Defined.

(** ** The highlight projector: the highlighted segments *)

Lemma projectChunks_highlights (txt : str) (sorted : list TextChunk) :
  forall (segs : list HighlightedSegment) (cursor : Z),
    filter isHighlight (fst (projectChunks txt sorted segs cursor))
    = filter isHighlight segs
      ++ map (fun c => mkSegment (text c) true (Some (score c))) sorted
    /\ length (fst (projectChunks txt sorted segs cursor))
       <= length segs + 2 * length sorted.
Proof.
  induction sorted as [| c rest IH]; intros segs cursor.
  - simpl. rewrite app_nil_r. split; [reflexivity | lia].
  - simpl projectChunks.
    set (segs1 := if (cursor <? startOffset c)%Z then _ else segs).
    assert (H1 : filter isHighlight segs1 = filter isHighlight segs
                 /\ length segs1 <= length segs + 1).
    { subst segs1. destruct (cursor <? startOffset c)%Z.
      - rewrite filter_app, length_app. simpl. rewrite app_nil_r.
        split; [reflexivity | lia].
      - split; [reflexivity | lia]. }
    destruct H1 as [H1 H2].
    destruct (IH (segs1 ++ [mkSegment (text c) true (Some (score c))])
                (endOffset c)) as [IHf IHl].
    rewrite IHf. rewrite filter_app, H1. simpl.
    rewrite <- app_assoc. split; [reflexivity |].
    rewrite length_app in IHl. simpl in IHl. simpl. lia.
Qed.

(** X17.  When there are chunks and the text is not empty, the highlighted
    segments are the chunks, each exactly once with its text and its score,
    in the order of their start offsets; with [n] chunks there are at most
    [2 n + 1] segments. *)
Theorem computeHighlightedSegments_highlights (txt : str)
  (results : list TextChunk) :
  results <> [] -> txt <> [] ->
  filter isHighlight (computeHighlightedSegments txt results)
  = map (fun c => mkSegment (text c) true (Some (score c)))
      (jsSort byStartOffset results)
  /\ length (computeHighlightedSegments txt results)
     <= 2 * length results + 1.
Proof.
  intros Hr Ht. unfold computeHighlightedSegments.
  destruct results as [| r results]; [congruence |].
  destruct txt as [| t txt]; [congruence |].
  cbn [length Nat.eqb orb].
  destruct (projectChunks_highlights (t :: txt)
              (jsSort byStartOffset (r :: results)) [] 0%Z) as [Hf Hl].
  rewrite jsSort_length in Hl.
  destruct (projectChunks (t :: txt) (jsSort byStartOffset (r :: results))
              [] 0%Z) as [segs cursor].
  simpl fst in Hf, Hl. simpl filter in Hf. simpl length in Hl.
  destruct (cursor <? _)%Z.
  - rewrite filter_app, length_app. simpl. rewrite app_nil_r.
    split; [exact Hf | simpl in *; lia].
  - split; [exact Hf | simpl in *; lia].
Qed.

Lemma computeHighlightedSegments_highlights_witness :
  let txt := lit "Hello world. How are you?" in
  let results := [ mkChunk (lit "How are you?") 12 25 0.5;
                   mkChunk (lit "Hello world.") 0 12 0.9 ] in
  filter isHighlight (computeHighlightedSegments txt results)
  = [ mkSegment (lit "Hello world.") true (Some 0.9%R);
      mkSegment (lit "How are you?") true (Some 0.5%R) ]
  /\ length (computeHighlightedSegments txt results) <= 5.
Proof.
  intros txt results.
  destruct (computeHighlightedSegments_highlights txt results) as [H1 H2].
  - discriminate.
  - discriminate.
  - split; [| exact H2]. rewrite H1. reflexivity.
Defined.

(** ** The controller of [useSearch]: the debounce, the flag and the guards *)

Module UseSearchMore.
Import UseSearch.

Lemma useSearch_setQuery_refs (p : Props) (q : str) (st : State) :
  calls (setQuery p q st) = calls st
  /\ lastQueryRef (setQuery p q st) = lastQueryRef st
  /\ lastTextRef (setQuery p q st) = lastTextRef st
  /\ controllers (setQuery p q st) = controllers st
  /\ abortControllerRef (setQuery p q st) = abortControllerRef st
  /\ inFlight (setQuery p q st) = inFlight st
  /\ isSearching (setQuery p q st) = isSearching st
  /\ query (setQuery p q st) = q
  /\ debounceTimerRef (setQuery p q st)
     = if length q <? minQueryLength p then None else Some q.
Proof.
  unfold setQuery. destruct (_ <? _); simpl; auto 10.
Qed.

Lemma useSearch_typing_refs (p : Props) (qs : list str) (q : str) :
  forall st,
    let st1 := run (useSearchTyping p (qs ++ [q])) st in
    calls st1 = calls st
    /\ lastQueryRef st1 = lastQueryRef st
    /\ lastTextRef st1 = lastTextRef st
    /\ controllers st1 = controllers st
    /\ query st1 = q
    /\ debounceTimerRef st1
       = if length q <? minQueryLength p then None else Some q.
Proof.
  induction qs as [| q0 qs IH]; intros st; simpl.
  - destruct (useSearch_setQuery_refs p q st)
      as (H1 & H2 & H3 & H4 & _ & _ & _ & H5 & H6). auto 10.
  - destruct (useSearch_setQuery_refs p q0 st)
      as (H1 & H2 & H3 & H4 & _).
    destruct (IH (setQuery p q0 st)) as (I1 & I2 & I3 & I4 & I5 & I6).
    rewrite I1, I2, I3, I4, H1, H2, H3, H4. auto 10.
Qed.

Lemma useSearch_run_app (t1 t2 : list (Props * Event)) (st : State) :
  run (t1 ++ t2) st = run t2 (run t1 st).
Proof.
  revert st. induction t1 as [| [p e] t1 IH]; intros st; simpl; auto.
Qed.

Lemma cons_neq_self (A : Type) (x : A) (l : list A) : l <> x :: l.
Proof.
  intros H. apply (f_equal (@length A)) in H. simpl in H. lia.
Qed.

(** X18.  A burst of [setQuery] calls is coalesced: when the timer fires
    after the queries [qs] and then [q] were typed, the client has been
    called at most once more, with the last query [q] and the text of the
    props; it is called exactly when there is a client, [q] is long
    enough, and [q] and the text are not those of the request before. *)
Theorem useSearch_debounce_coalesces (p : Props) (qs : list str) (q : str)
  (st : State) :
  let st' := run (useSearchTyping p (qs ++ [q]) ++ [(p, TimerFires)]) st in
  (calls st' = calls st
   \/ calls st' = mkCall q (text p) (controllers st) :: calls st)
  /\ (calls st' = mkCall q (text p) (controllers st) :: calls st
      <-> client p <> None
          /\ minQueryLength p <= length q
          /\ ~ (q = lastQueryRef st /\ text p = lastTextRef st))
  /\ query st' = q
  /\ debounceTimerRef st' = None.
Proof.
  intros st'. subst st'. rewrite useSearch_run_app.
  destruct (useSearch_typing_refs p qs q st)
    as (H1 & H2 & H3 & H4 & H5 & H6).
  set (st1 := run (useSearchTyping p (qs ++ [q])) st) in *.
  cbn [run step]. rewrite H6.
  destruct (Nat.ltb_spec (length q) (minQueryLength p)) as [Hshort | Hlong].
  { rewrite H1, H5, H6. split; [left; reflexivity |].
    split; [| split; reflexivity].
    split.
    - intros H. exfalso. exact (cons_neq_self _ _ _ H).
    - intros (_ & Hlen & _). lia. }
  unfold searchBegin.
  destruct (client p) as [cl |] eqn:Ecl.
  2:{ simpl. rewrite H1, H5. split; [left; reflexivity |].
      split; [| split; reflexivity].
      split.
      - intros H. exfalso. exact (cons_neq_self _ _ _ H).
      - intros (Hc & _). congruence. }
  destruct (Nat.ltb_spec (length q) (minQueryLength p)) as [Hs | _];
    [lia |].
  replace (lastQueryRef (setTimer None st1)) with (lastQueryRef st)
    by (symmetry; exact H2).
  replace (lastTextRef (setTimer None st1)) with (lastTextRef st)
    by (symmetry; exact H3).
  destruct (str_eqb q (lastQueryRef st) && str_eqb (text p) (lastTextRef st))
    eqn:Esame.
  - simpl. rewrite H1, H5. split; [left; reflexivity |].
    split; [| split; reflexivity].
    apply andb_true_iff in Esame. destruct Esame as [Eq Et].
    apply str_eqb_eq in Eq. apply str_eqb_eq in Et.
    split.
    + intros H. exfalso. exact (cons_neq_self _ _ _ H).
    + intros (_ & _ & Hn). exfalso. apply Hn. split; assumption.
  - simpl. rewrite H1, H4, H5. split; [right; reflexivity |].
    split; [| split; reflexivity].
    split; [| reflexivity].
    intros _. split; [discriminate |]. split; [exact Hlong |].
    intros [Eq Et].
    apply andb_false_iff in Esame. destruct Esame as [E | E].
    + apply (proj2 (str_eqb_eq _ _)) in Eq. congruence.
    + apply (proj2 (str_eqb_eq _ _)) in Et. congruence.
Qed.

(** *** The flag [isSearching] *)

Lemma existsb_filter_other (c d : nat) (l : list Call) :
  d <> c ->
  existsb (fun k => callSignal k =? d)
    (filter (fun k => negb (callSignal k =? c)) l)
  = existsb (fun k => callSignal k =? d) l.
Proof.
  intros Hne. induction l as [| k l IH]; simpl; [reflexivity |].
  destruct (Nat.eqb_spec (callSignal k) c) as [E | E]; simpl.
  - rewrite IH. destruct (Nat.eqb_spec (callSignal k) d); [lia | reflexivity].
  - rewrite IH. reflexivity.
Qed.

Lemma existsb_filter_same (c : nat) (l : list Call) :
  existsb (fun k => callSignal k =? c)
    (filter (fun k => negb (callSignal k =? c)) l) = false.
Proof.
  induction l as [| k l IH]; simpl; [reflexivity |].
  destruct (Nat.eqb_spec (callSignal k) c) as [E | E]; simpl; [exact IH |].
  rewrite IH. destruct (Nat.eqb_spec (callSignal k) c); [lia | reflexivity].
Qed.

Lemma useSearch_searchResume_flag (c : nat)
  (outcome : Completion (list TextChunk)) (st : State) :
  let st' := fst (searchResume c outcome st) in
  isSearching st' = (if isCurrent c st then false else isSearching st)
  /\ abortControllerRef st' = abortControllerRef st
  /\ inFlight st' = inFlight st.
Proof.
  unfold searchResume, searchFinally, isCurrent.
  destruct outcome as [chunks | err]; [| destruct (isAbortError err)];
    simpl;
    destruct (abortControllerRef st) as [d |] eqn:Ed; simpl; rewrite ?Ed;
    auto;
    destruct (d =? c); simpl; rewrite ?Ed; auto.
Qed.

Lemma useSearch_searchBegin_flag (p : Props) (r : Render) (q : option str)
  (st : State) :
  isSearching st = useSearchPending st ->
  isSearching (fst (searchBegin p r q st))
  = useSearchPending (fst (searchBegin p r q st)).
Proof.
  intros H. unfold searchBegin.
  destruct (client p); [| exact H].
  destruct (_ <? _); [exact H |].
  destruct (_ && _); [exact H |].
  unfold useSearchPending. simpl. rewrite Nat.eqb_refl. reflexivity.
Qed.

Lemma useSearch_step_flag (p : Props) (e : Event) (st : State) :
  isSearching st = useSearchPending st ->
  isSearching (step p e st) = useSearchPending (step p e st).
Proof.
  intros H. destruct e; cbn [step].
  - unfold setQuery. destruct (_ <? _); exact H.
  - destruct (debounceTimerRef st); [| exact H].
    apply useSearch_searchBegin_flag. exact H.
  - apply useSearch_searchBegin_flag. exact H.
  - unfold settle.
    destruct (existsb _ (inFlight st)) eqn:Ein; [| exact H].
    set (st0 := setInFlight _ st).
    destruct (useSearch_searchResume_flag controller outcome st0)
      as (Hf & Hc & Hi).
    unfold useSearchPending. rewrite Hf, Hc, Hi.
    unfold isCurrent. subst st0. cbn [abortControllerRef inFlight
      isSearching setInFlight].
    unfold useSearchPending in H.
    destruct (abortControllerRef st) as [d |]; [| exact H].
    destruct (Nat.eqb_spec d controller) as [E | E].
    + subst d. symmetry. apply existsb_filter_same.
    + rewrite existsb_filter_other by exact E. exact H.
  - exact H.
  - destruct (client p); [| exact H].
    destruct (_ && _); [| exact H].
    apply useSearch_searchBegin_flag. exact H.
Qed.

Lemma useSearch_isSearching_invariant (initialQuery : str)
  (trace : list (Props * Event)) :
  isSearching (run trace (initial initialQuery))
  = useSearchPending (run trace (initial initialQuery)).
Proof.
  assert (H : isSearching (initial initialQuery)
              = useSearchPending (initial initialQuery)) by reflexivity.
  revert H. generalize (initial initialQuery).
  induction trace as [| [p e] trace IH]; intros st H; simpl.
  - exact H.
  - apply IH, useSearch_step_flag, H.
Qed.

(** *** What [clear] and [setQuery] leave running *)

Lemma useSearch_edit_refs (p : Props) (e : Event) (st : State) :
  useSearchEdit e ->
  abortControllerRef (step p e st) = abortControllerRef st
  /\ inFlight (step p e st) = inFlight st
  /\ reportedResults (step p e st) = reportedResults st
  /\ abortedControllers (step p e st) = abortedControllers st
  /\ calls (step p e st) = calls st.
Proof.
  destruct e; simpl; try contradiction; intros _.
  - unfold setQuery. destruct (_ <? _); simpl; auto.
  - auto.
Qed.

Lemma useSearch_edits_refs (trace : list (Props * Event)) :
  forall st,
    Forall (fun pe => useSearchEdit (snd pe)) trace ->
    abortControllerRef (run trace st) = abortControllerRef st
    /\ inFlight (run trace st) = inFlight st
    /\ reportedResults (run trace st) = reportedResults st
    /\ abortedControllers (run trace st) = abortedControllers st
    /\ calls (run trace st) = calls st.
Proof.
  induction trace as [| [p e] trace IH]; intros st H; simpl; [auto |].
  inversion H as [| pe l He Hl]; subst. simpl in He.
  destruct (useSearch_edit_refs p e st He) as (H1 & H2 & H3 & H4 & H5).
  destruct (IH (step p e st) Hl) as (I1 & I2 & I3 & I4 & I5).
  rewrite I1, I2, I3, I4, I5. auto.
Qed.

(** X19.  Neither [clear] nor [setQuery] cancels the request in flight:
    whatever the user clears and types after a request was issued, no
    controller is aborted, and when that request is fulfilled its chunks
    become the results and are reported to [onResults]. *)
Theorem useSearch_edits_do_not_cancel (edits : list (Props * Event))
  (c : nat) (chunks : list TextChunk) (st : State) :
  abortControllerRef st = Some c ->
  useSearchPending st = true ->
  Forall (fun pe => useSearchEdit (snd pe)) edits ->
  let st1 := run edits st in
  let st2 := settle c (Fulfilled chunks) st1 in
  abortedControllers st1 = abortedControllers st
  /\ calls st1 = calls st
  /\ results st2 = chunks
  /\ reportedResults st2 = chunks :: reportedResults st.
Proof.
  intros Hc Hp He st1 st2.
  destruct (useSearch_edits_refs edits st He) as (H1 & H2 & H3 & H4 & H5).
  fold st1 in H1, H2, H3, H4, H5.
  unfold useSearchPending in Hp. rewrite Hc in Hp.
  split; [exact H4 |]. split; [exact H5 |].
  subst st2. unfold settle. rewrite H2, Hp.
  unfold searchResume, searchFinally, isCurrent. simpl.
  rewrite !H1, !Hc, !Nat.eqb_refl. simpl.
  rewrite H3. auto.
Qed.

Lemma useSearch_edits_do_not_cancel_witness :
  let st := issue searchProps (lit "you") (initial []) in
  let chunks := [mkChunk (lit "How are you?") 12 25 1] in
  let st1 := run [(searchProps, Clear); (searchProps, SetQuery (lit "h"))]
               st in
  let st2 := settle 0 (Fulfilled chunks) st1 in
  abortedControllers st1 = abortedControllers st
  /\ calls st1 = calls st
  /\ results st2 = chunks
  /\ reportedResults st2 = chunks :: reportedResults st.
Proof.
  intros st chunks.
  apply (useSearch_edits_do_not_cancel
           [(searchProps, Clear); (searchProps, SetQuery (lit "h"))]
           0 chunks st eq_refl eq_refl).
  repeat constructor.
Defined.

(** X20.  A query that failed is not sent again.  When the request of
    [search q] is rejected, the results stay those from before and the
    flag is cleared; an error other than a cancellation is kept and
    reported, a cancellation is not.  Because the query was recorded
    before the call, a later [search q] over the same text finds the guard
    of the repeated query and calls nothing. *)
Theorem useSearch_failed_query_not_retried (p : Props) (r r' : Render)
  (q : str) (st st1 : State) (c : nat) (err : JsError) :
  searchBegin p r (Some q) st = (st1, Awaiting c) ->
  let st2 := settle c (Rejected err) st1 in
  searchBegin p r' (Some q) st2 = (st2, Returned (renderedResults r'))
  /\ calls st2 = calls st1
  /\ results st2 = results st
  /\ isSearching st2 = false
  /\ (isAbortError err = false ->
      error st2 = Some err /\ reportedErrors st2 = err :: reportedErrors st)
  /\ (isAbortError err = true ->
      error st2 = None /\ reportedErrors st2 = reportedErrors st).
Proof.
  intros H st2. subst st2. unfold searchBegin in *.
  destruct (client p) as [cl |] eqn:Ecl; [| discriminate].
  destruct (length q <? minQueryLength p) eqn:Elen; [discriminate |].
  destruct (_ && _); [discriminate |].
  injection H as <- <-.
  unfold settle. simpl. rewrite Nat.eqb_refl. simpl.
  unfold searchFinally, isCurrent.
  destruct (isAbortError err) eqn:Eab; simpl; rewrite Nat.eqb_refl; simpl;
    rewrite ?Elen, !str_eqb_refl; simpl;
    repeat split; try reflexivity; try discriminate.
Qed.

Lemma useSearch_failed_query_not_retried_witness :
  let r := latestRender (initial []) in
  let st1 := issue searchProps (lit "you") (initial []) in
  let st2 := settle 0 (Rejected (Error "model crashed")) st1 in
  searchBegin searchProps r (Some (lit "you")) st2 = (st2, Returned [])
  /\ calls st2 = calls st1
  /\ results st2 = []
  /\ isSearching st2 = false
  /\ error st2 = Some (Error "model crashed")
  /\ reportedErrors st2 = [Error "model crashed"].
Proof.
  intros r st1 st2.
  destruct (useSearch_failed_query_not_retried searchProps r r (lit "you")
              (initial []) st1 0 (Error "model crashed") eq_refl)
    as (H1 & H2 & H3 & H4 & H5 & _).
  destruct (H5 eq_refl) as [H6 H7].
  exact (conj H1 (conj H2 (conj H3 (conj H4 (conj H6 H7))))).
Defined.

(** X21.  A change of the text is searched again.  After the query [q] was
    typed and its request issued, the effect of a render with another text
    calls the client with [q] and the new text and aborts the request
    before, whose answer is then never committed; run again without a
    further change of the text, the effect does nothing. *)
Theorem useSearch_text_change_researches (p p' : Props) (q : str)
  (st : State) :
  client p <> None -> client p' <> None ->
  minQueryLength p <= length q -> minQueryLength p' <= length q ->
  q <> lastQueryRef st \/ text p <> lastTextRef st ->
  text p' <> text p ->
  let st1 := run [(p, SetQuery q); (p, TimerFires)] st in
  let st2 := step p' TextChanged st1 in
  calls st2
  = mkCall q (text p') (S (controllers st))
      :: mkCall q (text p) (controllers st) :: calls st
  /\ abortedControllers st2 = controllers st :: abortedControllers st1
  /\ (forall outcome,
         results (settle (controllers st) outcome st2) = results st2)
  /\ step p' TextChanged st2 = st2.
Proof.
  intros Hcl Hcl' Hlen Hlen' Hnew Htext.
  destruct (client p) as [cl |] eqn:Ecl; [| congruence].
  destruct (client p') as [cl' |] eqn:Ecl'; [| congruence].
  assert (Elen : (length q <? minQueryLength p) = false)
    by (apply Nat.ltb_ge; exact Hlen).
  assert (Elen' : (length q <? minQueryLength p') = false)
    by (apply Nat.ltb_ge; exact Hlen').
  assert (Ege' : (minQueryLength p' <=? length q) = true)
    by (apply Nat.leb_le; exact Hlen').
  assert (Esame : str_eqb q (lastQueryRef st)
                  && str_eqb (text p) (lastTextRef st) = false).
  { apply andb_false_iff.
    destruct Hnew as [H | H]; [left | right];
      (destruct (str_eqb _ _) eqn:E; [| reflexivity]);
      apply str_eqb_eq in E; congruence. }
  assert (Etext : str_eqb (text p') (text p) = false).
  { destruct (str_eqb (text p') (text p)) eqn:E; [| reflexivity].
    apply str_eqb_eq in E. congruence. }
  intros st1 st2.
  assert (E1 : st1 = issue p q (setTimer None (setTimer (Some q)
                 (setTimer None (setQueryInternal q st))))).
  { subst st1. cbn [run step]. unfold setQuery. rewrite Elen.
    cbn [debounceTimerRef setTimer]. unfold searchBegin. rewrite Ecl, Elen.
    cbn [lastQueryRef lastTextRef setTimer setQueryInternal].
    rewrite Esame. reflexivity. }
  clearbody st1. subst st1.
  assert (E2 : st2 = issue p' q
                 (issue p q (setTimer None (setTimer (Some q)
                    (setTimer None (setQueryInternal q st)))))).
  { subst st2. cbn [step]. rewrite Ecl'.
    cbn [query lastTextRef issue setTimer setQueryInternal].
    rewrite Ege', Etext. cbn [andb negb]. unfold searchBegin.
    rewrite Ecl'.
    cbn [query lastQueryRef lastTextRef issue latestRender
         setTimer setQueryInternal].
    rewrite Elen', str_eqb_refl, Etext. reflexivity. }
  clearbody st2. subst st2.
  split; [reflexivity |].
  split; [reflexivity |].
  split.
  - intros outcome.
    apply UseSearchFacts.useSearch_settle_superseded_results.
    unfold superseded. simpl. split; [lia |].
    intros H. injection H as H. lia.
  - cbn [step]. rewrite Ecl'.
    cbn [query lastTextRef issue setTimer setQueryInternal].
    rewrite Ege', str_eqb_refl. reflexivity.
Qed.

Lemma useSearch_text_change_researches_witness :
  let p' := mkProps (Some agreeingClient) (lit "How are you? Fine.")
              2 300 5 0.3 Sentences in
  let st1 := run [(searchProps, SetQuery (lit "you"));
                  (searchProps, TimerFires)] (initial []) in
  let st2 := step p' TextChanged st1 in
  calls st2
  = [mkCall (lit "you") (lit "How are you? Fine.") 1;
     mkCall (lit "you") (lit "Hello world. How are you?") 0]
  /\ abortedControllers st2 = [0]
  /\ (forall outcome, results (settle 0 outcome st2) = results st2)
  /\ step p' TextChanged st2 = st2.
Proof.
  intros p'.
  apply (useSearch_text_change_researches searchProps p' (lit "you")
           (initial [])); simpl; try lia; try discriminate.
  left. discriminate.
Defined.

End UseSearchMore.

(** ** The controller of [useSelect]: the ranking shown and the keyboard *)

Module UseSelectMore.
Import UseSelect UseSelectInput.

Lemma StronglySorted_filter (A : Type) (before : A -> A -> Prop)
  (f : A -> bool) (l : list A) :
  StronglySorted before l -> StronglySorted before (filter f l).
Proof.
  induction 1 as [| x l Hs IH Hx]; simpl; [constructor |].
  destruct (f x); [| exact IH].
  constructor; [exact IH |].
  rewrite Forall_forall in *. intros y Hy.
  apply filter_In in Hy. apply Hx, Hy.
Qed.

Lemma threshold_facts (p : Props) (ranked : list RankedItem) :
  (0 < minScore p ->
   Forall (fun r => minScore p <= itemScore r) (threshold p ranked))%R
  /\ ((0 < maxResults p)%Z ->
      length (threshold p ranked) <= Z.to_nat (maxResults p))
  /\ ((minScore p <= 0)%R -> (maxResults p <= 0)%Z ->
      threshold p ranked = ranked)
  /\ (forall before : RankedItem -> RankedItem -> Prop,
         StronglySorted before ranked ->
         StronglySorted before (threshold p ranked))
  /\ incl (threshold p ranked) ranked.
Proof.
  unfold threshold, Rltb.
  set (kept := if negb (Rleb (minScore p) 0) then _ else ranked).
  assert (Hk1 : (0 < minScore p)%R ->
                Forall (fun r => (minScore p <= itemScore r)%R) kept).
  { intros Hpos. subst kept.
    rewrite (proj2 (Rleb_false (minScore p) 0) Hpos). simpl.
    rewrite Forall_forall. intros r Hr. apply filter_In in Hr.
    apply Rleb_true, Hr. }
  assert (Hk2 : (minScore p <= 0)%R -> kept = ranked).
  { intros Hle. subst kept.
    rewrite (proj2 (Rleb_true (minScore p) 0) Hle). reflexivity. }
  assert (Hk3 : forall before : RankedItem -> RankedItem -> Prop,
             StronglySorted before ranked -> StronglySorted before kept).
  { intros before Hs. subst kept.
    destruct (negb _); [apply StronglySorted_filter |]; exact Hs. }
  assert (Hk4 : incl kept ranked).
  { subst kept. destruct (negb _); [| apply incl_refl].
    intros r Hr. apply filter_In in Hr. apply Hr. }
  clearbody kept.
  destruct (Z.ltb_spec 0 (maxResults p)) as [Hmax | Hmax].
  - unfold sliceTo. repeat split.
    + intros Hpos. specialize (Hk1 Hpos). rewrite Forall_forall in *.
      intros r Hr. apply Hk1. eapply In_firstn_inv, Hr.
    + intros _. rewrite length_firstn.
      pose proof (sliceBound_le (length kept) (maxResults p)). lia.
    + intros _ H. lia.
    + intros before Hs. apply StronglySorted_firstn, Hk3, Hs.
    + intros r Hr. apply Hk4. eapply In_firstn_inv, Hr.
  - repeat split; auto. intros H. lia.
Qed.

(** X22.  What [useSelect] commits of a ranking.  When the current request
    is fulfilled, the results are the ranking the client gave, cut by the
    options of the render that issued the request: with a positive
    [minScore] no result scores below it, with a positive [maxResults]
    there are at most that many, with neither the ranking is kept whole;
    the results are always taken from the ranking, in its order. *)
Theorem useSelect_commits_thresholded (c : nat) (k : Call)
  (ranked : list RankedItem) (st : State) :
  abortControllerRef st = Some c ->
  find (fun k => callSignal k =? c) (inFlight st) = Some k ->
  let p := callProps k in
  let rs := results (settle c (Fulfilled ranked) st) in
  ((0 < minScore p)%R ->
   Forall (fun r => (minScore p <= itemScore r)%R) rs)
  /\ ((0 < maxResults p)%Z -> length rs <= Z.to_nat (maxResults p))
  /\ ((minScore p <= 0)%R -> (maxResults p <= 0)%Z -> rs = ranked)
  /\ (forall before : RankedItem -> RankedItem -> Prop,
         StronglySorted before ranked -> StronglySorted before rs)
  /\ incl rs ranked.
Proof.
  intros Hc Hk p rs.
  assert (E : rs = threshold p ranked).
  { subst rs. unfold settle. rewrite Hk.
    unfold searchResume, searchFinally, isCurrent. simpl.
    rewrite !Hc, !Nat.eqb_refl. reflexivity. }
  rewrite E. apply threshold_facts.
Qed.

Lemma useSelect_commits_thresholded_witness :
  let p := mkProps (Some lexicalClient) [catItem; dogItem] 1 200 1 0.5
             None true true in
  let ranked := [mkRanked catItem 1; mkRanked dogItem 0] in
  let rs := results (settle 0 (Fulfilled ranked)
                       (issue p (lit "cat") (initial []))) in
  Forall (fun r => (0.5 <= itemScore r)%R) rs
  /\ length rs <= 1
  /\ incl rs ranked.
Proof.
  intros p ranked rs.
  destruct (useSelect_commits_thresholded 0 (mkCall (lit "cat") p 0) ranked
              (issue p (lit "cat") (initial [])) eq_refl eq_refl)
    as (H1 & H2 & _ & _ & H5).
  split; [apply H1; simpl; lra |].
  split; [apply H2; simpl; lia | exact H5].
Defined.

(** X23.  A change of the items is not searched again.  Once the query [q]
    has been sent, the effect that runs when the items change calls
    [search] with the same query, which its guard drops: under any later
    props the effect changes nothing, and the request in flight commits the
    ranking of the items it was issued with. *)
Theorem useSelect_items_change_not_searched (p p' : Props) (q : str)
  (st : State) :
  client p <> None -> minQueryLength p <= length q ->
  q <> lastQueryRef st ->
  let st1 := run [(p, SetQuery q); (p, TimerFires)] st in
  calls st1 = mkCall q p (controllers st) :: calls st
  /\ step p' ItemsChanged st1 = st1
  /\ (forall ranked,
        results (settle (controllers st) (Fulfilled ranked)
                   (step p' ItemsChanged st1))
        = threshold p ranked).
Proof.
  intros Hcl Hlen Hnew.
  destruct (client p) as [cl |] eqn:Ecl; [| congruence].
  assert (Elen : (length q <? minQueryLength p) = false)
    by (apply Nat.ltb_ge; exact Hlen).
  assert (Esame : str_eqb q (lastQueryRef st) = false).
  { destruct (str_eqb q (lastQueryRef st)) eqn:E; [| reflexivity].
    apply str_eqb_eq in E. congruence. }
  intros st1.
  assert (E1 : exists st0,
             st1 = issue p q st0 /\ query st0 = q
             /\ controllers st0 = controllers st /\ calls st0 = calls st).
  { subst st1. cbn [run step]. unfold setQuery. rewrite Elen.
    destruct ((0 <? length q) && negb (isOpen st));
      cbn [debounceTimerRef setTimer setIsOpen]; unfold searchBegin;
      rewrite Ecl, Elen;
      cbn [lastQueryRef setTimer setQueryInternal setIsOpen];
      rewrite Esame; eexists; (split; [reflexivity |]); auto. }
  destruct E1 as (st0 & E1 & Eq & Ec & Ek).
  clearbody st1. subst st1.
  assert (E2 : step p' ItemsChanged (issue p q st0) = issue p q st0).
  { cbn [step]. destruct (client p') as [cl' |] eqn:Ecl'; [| reflexivity].
    cbn [query issue]. rewrite Eq.
    destruct (Nat.leb_spec (minQueryLength p') (length q)) as [H | H];
      [| reflexivity].
    unfold searchBegin. rewrite Ecl'.
    rewrite (proj2 (Nat.ltb_ge _ _) H).
    cbn [lastQueryRef issue]. rewrite str_eqb_refl. reflexivity. }
  split; [simpl; rewrite Ec, Ek; reflexivity |].
  split; [exact E2 |].
  intros ranked. rewrite E2. unfold settle. simpl.
  rewrite <- Ec, !Nat.eqb_refl. simpl.
  unfold searchFinally, isCurrent. simpl. rewrite Nat.eqb_refl. reflexivity.
Qed.

Lemma useSelect_items_change_not_searched_witness :
  let p' := mkProps (Some lexicalClient) [dogItem] 1 200 0 0
              None true true in
  let st1 := run [(selectProps, SetQuery (lit "cat"));
                  (selectProps, TimerFires)] (initial []) in
  calls st1 = [mkCall (lit "cat") selectProps 0]
  /\ step p' ItemsChanged st1 = st1
  /\ (forall ranked,
        results (settle 0 (Fulfilled ranked) (step p' ItemsChanged st1))
        = threshold selectProps ranked).
Proof.
  intros p'.
  apply (useSelect_items_change_not_searched selectProps p' (lit "cat")
           (initial [])); simpl; try lia; discriminate.
Defined.

(** *** The highlighted option and the keyboard *)

Lemma displayOptions_setHighlightedIndex (p : Props) (i : Z) (st : State) :
  displayOptions p (setHighlightedIndex i st) = displayOptions p st.
Proof. reflexivity. Qed.

Lemma setHighlightedIndex_same (st : State) :
  setHighlightedIndex (highlightedIndex st) st = st.
Proof. destruct st. reflexivity. Qed.

Lemma setHighlightedIndex_twice (i j : Z) (st : State) :
  setHighlightedIndex j (setHighlightedIndex i st) = setHighlightedIndex j st.
Proof. reflexivity. Qed.

(** X24.  The arrows walk the options in a ring.  While the highlighted
    index is one of the [n] options shown, [highlightNext] moves it to the
    next index modulo [n] and [highlightPrevious] to the one before, and
    each undoes the other. *)
Theorem useSelect_highlight_ring (p : Props) (st : State) :
  let n := Z.of_nat (length (displayOptions p st)) in
  let i := highlightedIndex st in
  (0 <= i < n)%Z ->
  highlightedIndex (highlightNext p st) = ((i + 1) mod n)%Z
  /\ highlightedIndex (highlightPrevious p st) = ((i - 1) mod n)%Z
  /\ highlightPrevious p (highlightNext p st) = st
  /\ highlightNext p (highlightPrevious p st) = st.
Proof.
  intros n i Hi.
  assert (Hnext : highlightedIndex (highlightNext p st)
                  = ((i + 1) mod n)%Z).
  { unfold highlightNext. fold n i. cbn [highlightedIndex setHighlightedIndex].
    destruct (Z.leb_spec (n - 1) i) as [H | H].
    - replace (i + 1)%Z with n by lia. rewrite Z.mod_same by lia.
      reflexivity.
    - rewrite Z.mod_small by lia. reflexivity. }
  assert (Hprev : highlightedIndex (highlightPrevious p st)
                  = ((i - 1) mod n)%Z).
  { unfold highlightPrevious. fold n i.
    cbn [highlightedIndex setHighlightedIndex].
    destruct (Z.leb_spec i 0) as [H | H].
    - replace (i - 1)%Z with (n - 1 + -1 * n)%Z by lia.
      rewrite Z.mod_add by lia. rewrite Z.mod_small by lia. reflexivity.
    - rewrite Z.mod_small by lia. reflexivity. }
  split; [exact Hnext |]. split; [exact Hprev |].
  split.
  - unfold highlightPrevious.
    rewrite Hnext. unfold highlightNext.
    rewrite displayOptions_setHighlightedIndex, setHighlightedIndex_twice.
    fold n i.
    replace (if ((i + 1) mod n <=? 0)%Z then (n - 1)%Z
             else ((i + 1) mod n - 1)%Z) with i.
    + apply setHighlightedIndex_same.
    + destruct (Z.eq_dec i (n - 1)) as [E | E].
      * replace (i + 1)%Z with n by lia. rewrite Z.mod_same by lia.
        simpl. lia.
      * rewrite Z.mod_small by lia.
        destruct (Z.leb_spec (i + 1) 0); lia.
  - unfold highlightNext.
    rewrite Hprev. unfold highlightPrevious.
    rewrite displayOptions_setHighlightedIndex, setHighlightedIndex_twice.
    fold n i.
    replace (if (n - 1 <=? (i - 1) mod n)%Z then 0%Z
             else ((i - 1) mod n + 1)%Z) with i.
    + apply setHighlightedIndex_same.
    + destruct (Z.eq_dec i 0) as [E | E].
      * subst i. rewrite E.
        replace (0 - 1)%Z with (n - 1 + -1 * n)%Z by lia.
        rewrite Z.mod_add by lia. rewrite Z.mod_small by lia.
        destruct (Z.leb_spec (n - 1) (n - 1)); lia.
      * rewrite Z.mod_small by lia.
        destruct (Z.leb_spec (n - 1) (i - 1)); lia.
Qed.

Lemma useSelect_highlight_ring_witness :
  let st := setHighlightedIndex 1 (open (initial [])) in
  highlightedIndex (highlightNext selectProps st) = 0%Z
  /\ highlightedIndex (highlightPrevious selectProps st) = 0%Z
  /\ highlightPrevious selectProps (highlightNext selectProps st) = st
  /\ highlightNext selectProps (highlightPrevious selectProps st) = st.
Proof.
  intros st.
  apply (useSelect_highlight_ring selectProps st). simpl. lia.
Defined.

Lemma onKeyDown_ArrowDown (p : Props) (st : State) :
  onKeyDown p (lit "ArrowDown") st
  = if negb (isOpen st) then open st else highlightNext p st.
Proof. reflexivity. Qed.

Lemma onKeyDown_Enter (p : Props) (st : State) :
  onKeyDown p (lit "Enter") st
  = if isOpen st && (0 <=? highlightedIndex st)%Z
    then selectHighlighted p st
    else st.
Proof. reflexivity. Qed.

Lemma pressKeys_app (p : Props) (k1 k2 : list str) (st : State) :
  pressKeys p (k1 ++ k2) st = pressKeys p k2 (pressKeys p k1 st).
Proof. apply fold_left_app. Qed.

Lemma pressKeys_down (p : Props) (st : State) (j : nat) :
  isOpen st = true -> highlightedIndex st = (-1)%Z ->
  j < length (displayOptions p st) ->
  pressKeys p (repeat (lit "ArrowDown") (S j)) st
  = setHighlightedIndex (Z.of_nat j) st.
Proof.
  intros Ho Hi. induction j as [| j IH]; intros Hj.
  - cbn [repeat pressKeys fold_left]. rewrite onKeyDown_ArrowDown, Ho.
    cbn [negb]. unfold highlightNext. rewrite Hi.
    destruct (_ <=? _)%Z; reflexivity.
  - replace (repeat (lit "ArrowDown") (S (S j)))
      with (repeat (lit "ArrowDown") (S j) ++ [lit "ArrowDown"])
      by (symmetry; apply (repeat_cons (S j))).
    rewrite pressKeys_app, IH by lia.
    cbn [pressKeys fold_left]. rewrite onKeyDown_ArrowDown.
    cbn [isOpen setHighlightedIndex]. rewrite Ho. cbn [negb].
    unfold highlightNext.
    rewrite displayOptions_setHighlightedIndex, setHighlightedIndex_twice.
    cbn [highlightedIndex setHighlightedIndex].
    destruct (Z.leb_spec (Z.of_nat (length (displayOptions p st)) - 1)
                (Z.of_nat j)) as [H | H]; [lia |].
    f_equal. lia.
Qed.

(** X25.  Choosing with the keyboard.  On a closed dropdown, the key
    ArrowDown opens it, [k + 1] further ArrowDown keys highlight the option
    at index [k] of those shown, and Enter selects the item of that option:
    it is reported to [onSelect], its label becomes the query, nothing
    stays highlighted, the dropdown closes when [closeOnSelect] is set, and
    an uncontrolled hook holds the item as [selected]. *)
Theorem useSelect_keyboard_selects (p : Props) (st : State) (k : nat)
  (r : RankedItem) :
  isOpen st = false ->
  nth_error (displayOptions p (open st)) k = Some r ->
  let keys := lit "ArrowDown" :: repeat (lit "ArrowDown") (S k)
              ++ [lit "Enter"] in
  let st' := pressKeys p keys st in
  reportedSelections st' = Some (item r) :: reportedSelections st
  /\ query st' = label (item r)
  /\ highlightedIndex st' = (-1)%Z
  /\ isOpen st' = negb (closeOnSelect p)
  /\ (controlledSelected p = None -> selected p st' = Some (item r))
  /\ calls st' = calls st.
Proof.
  intros Ho Hr keys st'.
  assert (Hk : k < length (displayOptions p (open st))).
  { apply nth_error_Some. congruence. }
  assert (E : st' = select p (Some (item r))
                      (setHighlightedIndex (Z.of_nat k) (open st))).
  { subst st' keys. cbn [pressKeys fold_left].
    rewrite onKeyDown_ArrowDown, Ho. cbn [negb].
    change (fold_left (fun s key => onKeyDown p key s) ?l ?s)
      with (pressKeys p l s).
    rewrite pressKeys_app, pressKeys_down by (auto; reflexivity).
    cbn [pressKeys fold_left]. rewrite onKeyDown_Enter.
    cbn [isOpen highlightedIndex setHighlightedIndex open setIsOpen].
    rewrite (proj2 (Z.leb_le 0 (Z.of_nat k))) by lia. cbn [andb].
    unfold selectHighlighted.
    rewrite displayOptions_setHighlightedIndex.
    cbn [highlightedIndex setHighlightedIndex].
    rewrite (proj2 (Z.leb_le 0 (Z.of_nat k))) by lia.
    rewrite (proj2 (Z.ltb_lt (Z.of_nat k) _)) by lia.
    cbn [andb]. rewrite Nat2Z.id, Hr. reflexivity. }
  rewrite E. unfold select, selected.
  destruct (controlledSelected p) as [s |]; destruct (closeOnSelect p);
    simpl; repeat split; try reflexivity; try discriminate.
Qed.

Lemma useSelect_keyboard_selects_witness :
  let st' := pressKeys selectProps
               [lit "ArrowDown"; lit "ArrowDown"; lit "ArrowDown";
                lit "Enter"] (initial []) in
  reportedSelections st' = [Some dogItem]
  /\ query st' = lit "Dog"
  /\ highlightedIndex st' = (-1)%Z
  /\ isOpen st' = false
  /\ selected selectProps st' = Some dogItem.
Proof.
  intros st'.
  destruct (useSelect_keyboard_selects selectProps (initial []) 1
              (mkRanked dogItem 1) eq_refl eq_refl)
    as (H1 & H2 & H3 & H4 & H5 & _).
  exact (conj H1 (conj H2 (conj H3 (conj H4 (H5 eq_refl))))).
Defined.

(** *** [clear] and [select] *)

(** X26.  [clear] forgets the query that was sent.  After the query [q] has
    been searched, typing [q] again sends nothing; after [clear], with
    [allowClear] set, the query and the results are empty, an uncontrolled
    selection is dropped, [onSelect] is told so, and a non-empty [q] typed
    again is sent again.  Without [allowClear], [clear] changes nothing. *)
Theorem useSelect_clear_resets_guard (p : Props) (q : str) (st : State) :
  client p <> None -> minQueryLength p <= length q -> q <> [] ->
  lastQueryRef st = q ->
  let typed := [(p, SetQuery q); (p, TimerFires)] in
  calls (run typed st) = calls st
  /\ (allowClear p = false -> step p Clear st = st)
  /\ (allowClear p = true ->
      let st1 := step p Clear st in
      query st1 = [] /\ results st1 = []
      /\ reportedSelections st1 = None :: reportedSelections st
      /\ (controlledSelected p = None -> selected p st1 = None)
      /\ calls (run typed st1) = mkCall q p (controllers st) :: calls st).
Proof.
  intros Hcl Hlen Hq Hlast.
  destruct (client p) as [cl |] eqn:Ecl; [| congruence].
  assert (Elen : (length q <? minQueryLength p) = false)
    by (apply Nat.ltb_ge; exact Hlen).
  assert (Enil : str_eqb q [] = false).
  { destruct (str_eqb q []) eqn:E; [| reflexivity].
    apply str_eqb_eq in E. congruence. }
  intros typed. subst typed. split; [| split].
  - cbn [run step]. unfold setQuery. rewrite Elen.
    destruct ((0 <? length q) && negb (isOpen st));
      cbn [debounceTimerRef setTimer setIsOpen]; unfold searchBegin;
      rewrite Ecl, Elen;
      cbn [lastQueryRef setTimer setQueryInternal setIsOpen];
      rewrite Hlast, str_eqb_refl; reflexivity.
  - intros Ha. cbn [step]. unfold clear. rewrite Ha. reflexivity.
  - intros Ha st1. subst st1. cbn [step]. unfold clear. rewrite Ha.
    split; [reflexivity |]. split; [reflexivity |].
    split; [unfold clearSearch, select;
            destruct (controlledSelected p), (closeOnSelect p);
            reflexivity |].
    split.
    { intros Hc. unfold selected, clearSearch, select. rewrite Hc.
      destruct (closeOnSelect p); reflexivity. }
    cbn [run step]. unfold setQuery. rewrite Elen.
    set (st1 := clearSearch (select p None st)).
    assert (Hl1 : lastQueryRef st1 = []) by reflexivity.
    assert (Hc1 : controllers st1 = controllers st).
    { subst st1. unfold clearSearch, select.
      destruct (controlledSelected p), (closeOnSelect p); reflexivity. }
    assert (Hk1 : calls st1 = calls st).
    { subst st1. unfold clearSearch, select.
      destruct (controlledSelected p), (closeOnSelect p); reflexivity. }
    clearbody st1.
    destruct ((0 <? length q) && negb (isOpen st1));
      cbn [debounceTimerRef setTimer setIsOpen]; unfold searchBegin;
      rewrite Ecl, Elen;
      cbn [lastQueryRef setTimer setQueryInternal setIsOpen];
      rewrite Hl1, Enil; simpl; rewrite Hc1, Hk1; reflexivity.
Qed.

Lemma useSelect_clear_resets_guard_witness :
  let typed := [(selectProps, SetQuery (lit "cat"));
                (selectProps, TimerFires)] in
  let st := run typed (initial []) in
  let st1 := step selectProps Clear st in
  calls (run typed st) = calls st
  /\ query st1 = [] /\ results st1 = []
  /\ calls (run typed st1)
     = [mkCall (lit "cat") selectProps 1; mkCall (lit "cat") selectProps 0].
Proof.
  intros typed st st1.
  destruct (useSelect_clear_resets_guard selectProps (lit "cat") st)
    as (H1 & _ & H3); try discriminate; try reflexivity.
  - simpl. lia.
  - destruct (H3 eq_refl) as (H4 & H5 & _ & _ & H6).
    exact (conj H1 (conj H4 (conj H5 H6))).
Defined.

(** X27.  [select] neither searches nor stops the debounce.  When an item
    is selected while a typed query [q] still waits for its timer, the
    query shown becomes the label of the item, and the timer then sends
    [q], the text that was typed, not the label. *)
Theorem useSelect_select_keeps_timer (p : Props) (q : str)
  (it : SearchItem) (st : State) :
  client p <> None -> minQueryLength p <= length q ->
  q <> lastQueryRef st ->
  let st1 := run [(p, SetQuery q); (p, Select (Some it))] st in
  let st2 := step p TimerFires st1 in
  calls st1 = calls st
  /\ debounceTimerRef st1 = Some q
  /\ query st2 = label it
  /\ calls st2 = mkCall q p (controllers st) :: calls st
  /\ lastQueryRef st2 = q.
Proof.
  intros Hcl Hlen Hnew.
  destruct (client p) as [cl |] eqn:Ecl; [| congruence].
  assert (Elen : (length q <? minQueryLength p) = false)
    by (apply Nat.ltb_ge; exact Hlen).
  assert (Esame : str_eqb q (lastQueryRef st) = false).
  { destruct (str_eqb q (lastQueryRef st)) eqn:E; [| reflexivity].
    apply str_eqb_eq in E. congruence. }
  intros st1 st2. subst st2 st1. cbn [run step].
  unfold setQuery. rewrite Elen. unfold select.
  destruct ((0 <? length q) && negb (isOpen st)),
    (controlledSelected p), (closeOnSelect p);
    cbn [debounceTimerRef setTimer setIsOpen setHighlightedIndex
         setQueryInternal reportSelection setInternalSelected];
    unfold searchBegin; rewrite Ecl, Elen;
    cbn [lastQueryRef setTimer setIsOpen setHighlightedIndex
         setQueryInternal reportSelection setInternalSelected];
    rewrite Esame; repeat split; reflexivity.
Qed.

Lemma useSelect_select_keeps_timer_witness :
  let st1 := run [(selectProps, SetQuery (lit "ca"));
                  (selectProps, Select (Some dogItem))] (initial []) in
  let st2 := step selectProps TimerFires st1 in
  calls st1 = []
  /\ debounceTimerRef st1 = Some (lit "ca")
  /\ query st2 = lit "Dog"
  /\ calls st2 = [mkCall (lit "ca") selectProps 0]
  /\ lastQueryRef st2 = lit "ca".
Proof.
  apply (useSelect_select_keeps_timer selectProps (lit "ca") dogItem
           (initial [])); simpl; try lia; discriminate.
Defined.

(** *** The flag [isSearching] *)

Lemma useSelect_existsb_filter_other (c d : nat) (l : list Call) :
  d <> c ->
  existsb (fun k => callSignal k =? d)
    (filter (fun k => negb (callSignal k =? c)) l)
  = existsb (fun k => callSignal k =? d) l.
Proof.
  intros Hne. induction l as [| k l IH]; simpl; [reflexivity |].
  destruct (Nat.eqb_spec (callSignal k) c) as [E | E]; simpl.
  - rewrite IH. destruct (Nat.eqb_spec (callSignal k) d); [lia | reflexivity].
  - rewrite IH. reflexivity.
Qed.

Lemma useSelect_existsb_filter_same (c : nat) (l : list Call) :
  existsb (fun k => callSignal k =? c)
    (filter (fun k => negb (callSignal k =? c)) l) = false.
Proof.
  induction l as [| k l IH]; simpl; [reflexivity |].
  destruct (Nat.eqb_spec (callSignal k) c) as [E | E]; simpl; [exact IH |].
  rewrite IH. destruct (Nat.eqb_spec (callSignal k) c); [lia | reflexivity].
Qed.

Lemma useSelect_searchResume_flag (p : Props) (c : nat)
  (outcome : Completion (list RankedItem)) (st : State) :
  let st' := fst (searchResume p c outcome st) in
  isSearching st' = (if isCurrent c st then false else isSearching st)
  /\ abortControllerRef st' = abortControllerRef st
  /\ inFlight st' = inFlight st.
Proof.
  unfold searchResume, searchFinally, isCurrent.
  destruct outcome as [ranked | err]; [| destruct (isAbortError err)];
    simpl;
    destruct (abortControllerRef st) as [d |] eqn:Ed; simpl; rewrite ?Ed;
    auto;
    destruct (d =? c); simpl; rewrite ?Ed; auto.
Qed.

Lemma useSelect_searchBegin_flag (p : Props) (q : str) (st : State) :
  isSearching st = useSelectPending st ->
  isSearching (fst (searchBegin p q st))
  = useSelectPending (fst (searchBegin p q st)).
Proof.
  intros H. unfold searchBegin.
  destruct (client p); [| exact H].
  destruct (_ <? _); [exact H |].
  destruct (str_eqb q (lastQueryRef st)); [exact H |].
  unfold useSelectPending. simpl. rewrite Nat.eqb_refl. reflexivity.
Qed.

Lemma useSelect_select_flag (p : Props) (it : option SearchItem)
  (st : State) :
  isSearching (select p it st) = isSearching st
  /\ useSelectPending (select p it st) = useSelectPending st.
Proof.
  unfold select, useSelectPending.
  destruct (controlledSelected p), (closeOnSelect p); auto.
Qed.

Lemma useSelect_step_flag (p : Props) (e : Event) (st : State) :
  isSearching st = useSelectPending st ->
  isSearching (step p e st) = useSelectPending (step p e st).
Proof.
  intros H. destruct e; cbn [step]; try exact H.
  - unfold setQuery. destruct (_ <? _); [exact H |].
    destruct (_ && _); exact H.
  - destruct (debounceTimerRef st); [| exact H].
    apply useSelect_searchBegin_flag. exact H.
  - unfold settle.
    destruct (find _ (inFlight st)) as [k |] eqn:Ein; [| exact H].
    set (st0 := setInFlight _ st).
    destruct (useSelect_searchResume_flag (callProps k) controller outcome
                st0) as (Hf & Hc & Hi).
    unfold useSelectPending. rewrite Hf, Hc, Hi.
    unfold isCurrent. subst st0. cbn [abortControllerRef inFlight
      isSearching setInFlight].
    unfold useSelectPending in H.
    destruct (abortControllerRef st) as [d |]; [| exact H].
    destruct (Nat.eqb_spec d controller) as [E | E].
    + subst d. symmetry. apply useSelect_existsb_filter_same.
    + rewrite useSelect_existsb_filter_other by exact E. exact H.
  - destruct (useSelect_select_flag p it st) as [-> ->]. exact H.
  - unfold toggle. destruct (isOpen st); exact H.
  - unfold clear. destruct (allowClear p); [| exact H].
    change (isSearching (clearSearch (select p None st)))
      with (isSearching (select p None st)).
    change (useSelectPending (clearSearch (select p None st)))
      with (useSelectPending (select p None st)).
    destruct (useSelect_select_flag p None st) as [-> ->]. exact H.
  - unfold selectHighlighted. destruct (_ && _); [| exact H].
    destruct (nth_error _ _); [| exact H].
    destruct (useSelect_select_flag p (Some (item r)) st) as [-> ->].
    exact H.
  - destruct (client p); [| exact H].
    destruct (_ <=? _); [| exact H].
    apply useSelect_searchBegin_flag. exact H.
Qed.

Lemma useSelect_isSearching_invariant (initialQuery : str)
  (trace : list (Props * Event)) :
  isSearching (run trace (initial initialQuery))
  = useSelectPending (run trace (initial initialQuery)).
Proof.
  assert (H : isSearching (initial initialQuery)
              = useSelectPending (initial initialQuery)) by reflexivity.
  revert H. generalize (initial initialQuery).
  induction trace as [| [p e] trace IH]; intros st H; simpl.
  - exact H.
  - apply IH, useSelect_step_flag, H.
Qed.

End UseSelectMore.

(** X28.  In every state that a mounted [useSearch] or [useSelect] hook
    reaches, [isSearching] is true exactly while the latest request, the
    one of the current controller, has not settled: an earlier request
    that settles leaves the flag alone, and the latest one clears it
    however it ends. *)
Theorem isSearching_while_pending :
  (forall initialQuery trace,
      UseSearch.isSearching
        (UseSearch.run trace (UseSearch.initial initialQuery))
      = useSearchPending
          (UseSearch.run trace (UseSearch.initial initialQuery)))
  /\ (forall initialQuery trace,
         UseSelect.isSearching
           (UseSelect.run trace (UseSelect.initial initialQuery))
         = useSelectPending
             (UseSelect.run trace (UseSelect.initial initialQuery))).
Proof.
  split.
  - exact UseSearchMore.useSearch_isSearching_invariant.
  - exact UseSelectMore.useSelect_isSearching_invariant.
Qed.

(** ** The text tasks: [complete] and [dispose] *)

Lemma startsWith_app (p s : str) : startsWith (p ++ s) p = true.
Proof. apply startsWith_spec. exists s. reflexivity. Qed.

(** X29.  A completion always begins with the prefix it was asked for.
    When [complete] is fulfilled, the language model was asked once, for at
    most [opts.maxTokens] tokens or 128, and the output is the prefix
    followed by some text: it is the parsed answer of the model when that
    one starts with the prefix, so a model that repeats the prefix does not
    double it, and the prefix followed by the parsed answer otherwise.  The
    result names the model of the options. *)
Theorem complete_output_starts_with_prefix (cl : ClientVars)
  (prefix : str) (maxTokens : option nat) (r : TextResult) :
  complete cl prefix maxTokens = Fulfilled r ->
  (exists rest, output r = prefix ++ rest)
  /\ (exists pr request response,
         provider cl = Some pr
         /\ generateText pr request = Fulfilled response
         /\ maxOutputTokens request = orElse maxTokens 128
         /\ let completion :=
              parseResponse (strategy cl) (responseText response) in
            (forall rest, completion = prefix ++ rest ->
                          output r = completion)
            /\ ((forall rest, completion <> prefix ++ rest) ->
                output r = prefix ++ completion))
  /\ resultModelId r = modelId cl.
Proof.
  unfold complete, generate. intros H.
  destruct (provider cl) as [pr |]; [| discriminate].
  match type of H with
  | context [generateText pr ?req] =>
      destruct (generateText pr req) as [response | e] eqn:Eg;
      [| discriminate];
      set (request := req) in *
  end.
  injection H as <-. cbn [output resultModelId generatedText].
  set (completion := parseResponse (strategy cl) (responseText response)).
  destruct (startsWith completion prefix) eqn:E.
  - apply startsWith_spec in E as Hs. destruct Hs as [rest Hrest].
    split; [exists rest; exact Hrest |]. split; [| reflexivity].
    exists pr, request, response.
    split; [reflexivity |]. split; [exact Eg |]. split; [reflexivity |].
    split; [reflexivity |].
    intros Hn. exfalso. exact (Hn rest Hrest).
  - split; [exists completion; reflexivity |].
    split; [| reflexivity].
    exists pr, request, response.
    split; [reflexivity |]. split; [exact Eg |]. split; [reflexivity |].
    split; [| reflexivity].
    intros rest Hrest. exfalso.
    assert (Ht : startsWith completion prefix = true)
      by (apply startsWith_spec; exists rest; exact Hrest).
    congruence.
Qed.

Lemma complete_output_starts_with_prefix_witness :
  (exists rest, lit "Once upon a time" = lit "Once" ++ rest)
  /\ (exists rest, lit "Once upon a time" = lit "Once " ++ rest).
Proof.
  split.
  - exact (proj1 (complete_output_starts_with_prefix
                    (textClient (lit "Once upon a time")) (lit "Once") None
                    (mkTextResult (lit "Once upon a time") (lit "qwen3-0.6b")
                       0 0) eq_refl)).
  - exact (proj1 (complete_output_starts_with_prefix
                    (textClient (lit "upon a time")) (lit "Once ") None
                    (mkTextResult (lit "Once upon a time") (lit "qwen3-0.6b")
                       0 0) eq_refl)).
Defined.

(** X30.  A disposed client.  [dispose] drops the language provider and the
    [initialized] flag but keeps the embedding provider: afterwards the
    client is not ready, [complete] is rejected with the error of a client
    that is not initialized, [searchItems] never asks the embedding
    provider and ranks by words, and [searchInText] answers as a client
    without embedding provider does, so it is fulfilled with the empty
    list or not at all. *)
Theorem dispose_leaves_lexical_search (cl : ClientVars) :
  let cl' := dispose cl in
  isReady cl' = false
  /\ embeddingProvider (searchVars cl') = embeddingProvider (searchVars cl)
  /\ (forall prefix maxTokens,
         complete cl' prefix maxTokens
         = Rejected (Error "Client not initialized"))
  /\ (forall query items signal,
         items <> [] -> aborted signal = false ->
         searchItems (searchVars cl') query items signal
         = Fulfilled (lexicalRank query items))
  /\ (forall query txt opts signal,
         searchInText (searchVars cl') query txt opts signal
         = searchInText (mkClient None false) query txt opts signal)
  /\ (forall query txt opts signal cs,
         searchInText (searchVars cl') query txt opts signal = Fulfilled cs ->
         cs = []).
Proof.
  intros cl'. subst cl'.
  assert (Hsame : forall query txt opts signal,
             searchInText (searchVars (dispose cl)) query txt opts signal
             = searchInText (mkClient None false) query txt opts signal).
  { intros query txt opts signal. unfold searchInText. simpl.
    destruct (aborted signal); [reflexivity |].
    destruct (_ =? 0); [reflexivity |].
    destruct (embeddingProvider (searchVars cl)); reflexivity. }
  split; [reflexivity |]. split; [reflexivity |].
  split; [reflexivity |]. split; [| split].
  - intros query items signal Hitems Hab. unfold searchItems. simpl.
    destruct items as [| it items]; [congruence |]. simpl. rewrite Hab.
    destruct (embeddingProvider (searchVars cl)); reflexivity.
  - exact Hsame.
  - intros query txt opts signal cs H. rewrite Hsame in H.
    unfold searchInText in H. simpl in H.
    destruct (aborted signal); [discriminate |].
    destruct (_ =? 0); [| discriminate].
    injection H as <-. reflexivity.
Qed.


(** * The scores in binary64 *)

Module Binary64Facts.
Import Floats Binary64.
Local Open Scope Z_scope.
Local Set Warnings "-inexact-float".

(** ** The format: order and rounding *)


Lemma prec_eq : prec = 53.
Proof. reflexivity. Qed.

Lemma emax_eq : emax = 1024.
Proof. reflexivity. Qed.

Lemma emin_eq : emin = -1074.
Proof. reflexivity. Qed.

Ltac format_lia :=
  pose proof prec_eq; pose proof emax_eq; pose proof emin_eq; lia.

Lemma digits2_pos_bounds (m : positive) :
  2 ^ (Zpos (digits2_pos m) - 1) <= Zpos m < 2 ^ Zpos (digits2_pos m).
Proof.
  induction m as [m IH | m IH |]; simpl digits2_pos.
  - rewrite Pos2Z.inj_succ.
    replace (Z.succ (Zpos (digits2_pos m)) - 1)
      with (Zpos (digits2_pos m)) by lia.
    rewrite Z.pow_succ_r by lia.
    assert (H : 2 ^ (Zpos (digits2_pos m))
                = 2 * 2 ^ (Zpos (digits2_pos m) - 1)).
    { rewrite <- Z.pow_succ_r by lia. f_equal. lia. }
    lia.
  - rewrite Pos2Z.inj_succ.
    replace (Z.succ (Zpos (digits2_pos m)) - 1)
      with (Zpos (digits2_pos m)) by lia.
    rewrite Z.pow_succ_r by lia.
    assert (H : 2 ^ (Zpos (digits2_pos m))
                = 2 * 2 ^ (Zpos (digits2_pos m) - 1)).
    { rewrite <- Z.pow_succ_r by lia. f_equal. lia. }
    lia.
  - simpl. lia.
Qed.

Lemma valid_finite (s : bool) (m : positive) (e : Z) :
  valid_binary (S754_finite s m e) = true ->
  emin <= e <= emax - prec
  /\ Zpos (digits2_pos m) <= prec
  /\ (emin < e -> Zpos (digits2_pos m) = prec).
Proof.
  unfold valid_binary, SpecFloat.valid_binary, bounded, canonical_mantissa,
    fexp.
  intros H. apply andb_true_iff in H. destruct H as [H1 H2].
  apply Z.eqb_eq in H1. apply Z.leb_le in H2.
  fold emin in H1. format_lia.
Qed.

Lemma scaled_finite_pos (m : positive) (e : Z) :
  emin <= e -> 0 < Zpos m * 2 ^ (e - emin).
Proof.
  intros H. apply Z.mul_pos_pos; [lia |]. apply Z.pow_pos_nonneg; lia.
Qed.

Lemma scaled_finite_lt (m1 m2 : positive) (e1 e2 : Z) :
  valid_binary (S754_finite false m1 e1) = true ->
  valid_binary (S754_finite false m2 e2) = true ->
  e1 < e2 ->
  Zpos m1 * 2 ^ (e1 - emin) < Zpos m2 * 2 ^ (e2 - emin).
Proof.
  intros V1 V2 He.
  apply valid_finite in V1. apply valid_finite in V2.
  destruct V1 as (E1 & D1 & _). destruct V2 as (E2 & _ & D2).
  specialize (D2 ltac:(lia)).
  pose proof (digits2_pos_bounds m1) as B1.
  pose proof (digits2_pos_bounds m2) as B2.
  rewrite D2 in B2.
  assert (H1 : Zpos m1 < 2 ^ prec).
  { eapply Z.lt_le_trans; [apply B1 |]. apply Z.pow_le_mono_r; lia. }
  assert (P1 : 0 < 2 ^ (e1 - emin)) by (apply Z.pow_pos_nonneg; lia).
  assert (H2 : 2 ^ (e2 - emin) = 2 ^ (e2 - e1) * 2 ^ (e1 - emin)).
  { rewrite <- Z.pow_add_r by lia. f_equal. lia. }
  assert (H3 : 2 <= 2 ^ (e2 - e1)).
  { change 2 with (2 ^ 1) at 1. apply Z.pow_le_mono_r; lia. }
  assert (H4 : 2 ^ prec = 2 * 2 ^ (prec - 1)) by reflexivity.
  rewrite H2. nia.
Qed.

Lemma cond_Zopp_compare (a b : Z) :
  (Z.opp a ?= Z.opp b) = CompOpp (a ?= b).
Proof. rewrite Z.compare_opp. apply Z.compare_antisym. Qed.

(** The comparison of the format is the comparison of the values. *)
Lemma SFcompare_scaled (x y : spec_float) :
  valid_binary x = true -> valid_binary y = true ->
  isNaN x = false -> isNaN y = false ->
  SFcompare x y = Some (scaled x ?= scaled y).
Proof.
  intros Vx Vy Nx Ny.
  assert (Hinf : 0 < 2 ^ (emax - emin + 1))
    by (apply Z.pow_pos_nonneg; format_lia).
  assert (Hfin : forall s m e, valid_binary (S754_finite s m e) = true ->
                   0 < Zpos m * 2 ^ (e - emin) < 2 ^ (emax - emin + 1)).
  { intros s m e V. apply valid_finite in V. destruct V as (E & D & _).
    split; [apply scaled_finite_pos; lia |].
    pose proof (digits2_pos_bounds m) as B.
    assert (H1 : Zpos m < 2 ^ prec).
    { eapply Z.lt_le_trans; [apply B |]. apply Z.pow_le_mono_r; lia. }
    assert (H2 : 2 ^ (e - emin) <= 2 ^ (emax - prec - emin))
      by (apply Z.pow_le_mono_r; lia).
    assert (H3 : 2 ^ (emax - emin + 1)
                 = 2 ^ prec * 2 ^ (emax - prec - emin) * 2).
    { replace (emax - emin + 1) with (prec + (emax - prec - emin) + 1)
        by lia.
      rewrite !Z.pow_add_r by format_lia. reflexivity. }
    assert (P : 0 < 2 ^ (e - emin)) by (apply Z.pow_pos_nonneg; lia).
    rewrite H3. nia. }
  destruct x as [sx | sx | | sx mx ex]; try discriminate;
    destruct y as [sy | sy | | sy my ey]; try discriminate;
    try pose proof (Hfin _ _ _ Vx) as Fx;
    try pose proof (Hfin _ _ _ Vy) as Fy.
  1-8: destruct sx, sy; cbn [SFcompare scaled cond_Zopp]; f_equal; symmetry;
    first [ apply Z.compare_refl
          | apply Z.compare_lt_iff; lia
          | apply Z.compare_gt_iff; lia ].
  assert (Vx' : valid_binary (S754_finite false mx ex) = true) by exact Vx.
  assert (Vy' : valid_binary (S754_finite false my ey) = true) by exact Vy.
  assert (Hcmp : (Zpos mx * 2 ^ (ex - emin) ?= Zpos my * 2 ^ (ey - emin))
                 = match ex ?= ey with
                   | Lt => Lt
                   | Gt => Gt
                   | Eq => Pos.compare_cont Eq mx my
                   end).
  { destruct (Z.compare_spec ex ey) as [E | E | E].
    - subst ey. change (Pos.compare_cont Eq mx my) with (Zpos mx ?= Zpos my).
      apply valid_finite in Vx.
      assert (P : 0 < 2 ^ (ex - emin)) by (apply Z.pow_pos_nonneg; lia).
      destruct (Z.compare_spec (Zpos mx) (Zpos my)) as [E | E | E].
      + rewrite E. apply Z.compare_refl.
      + apply Z.compare_lt_iff. nia.
      + apply Z.compare_gt_iff. nia.
    - apply Z.compare_lt_iff. now apply scaled_finite_lt.
    - apply Z.compare_gt_iff. now apply scaled_finite_lt. }
  destruct sx, sy; cbn [SFcompare scaled cond_Zopp]; f_equal; symmetry.
  + rewrite cond_Zopp_compare, Hcmp.
    destruct (ex ?= ey); reflexivity.
  + apply Z.compare_lt_iff. lia.
  + apply Z.compare_gt_iff. lia.
  + exact Hcmp.
Qed.

(** *** Rounding a positive integer never gives zero *)

Lemma shr_1_m (mrs : shr_record) :
  0 <= shr_m mrs -> shr_m (shr_1 mrs) = shr_m mrs / 2.
Proof.
  destruct mrs as [m r s]. cbn [shr_m]. intros H.
  destruct m as [| p | p]; [reflexivity | | lia].
  destruct p as [p | p |]; cbn [shr_1 shr_m].
  - apply (Z.div_unique _ _ _ 1); lia.
  - apply (Z.div_unique _ _ _ 0); lia.
  - reflexivity.
Qed.

Lemma iter_pos_shr_1 (p : positive) :
  forall mrs : shr_record,
    0 <= shr_m mrs ->
    shr_m (iter_pos shr_1 p mrs) = shr_m mrs / 2 ^ Zpos p.
Proof.
  induction p as [p IH | p IH |]; intros mrs H; cbn [iter_pos];
    try assert (P : 0 < 2 ^ Zpos p) by (apply Z.pow_pos_nonneg; lia).
  - assert (H1 : 0 <= shr_m (shr_1 mrs)).
    { rewrite shr_1_m by exact H. apply Z.div_pos; lia. }
    assert (H2 : 0 <= shr_m (iter_pos shr_1 p (shr_1 mrs))).
    { rewrite IH by exact H1. apply Z.div_pos; [lia |].
      apply Z.pow_pos_nonneg; lia. }
    rewrite IH by exact H2. rewrite IH by exact H1.
    rewrite shr_1_m by exact H.
    rewrite !Z.div_div by lia.
    replace (Zpos p~1) with (1 + Zpos p + Zpos p) by lia.
    rewrite !Z.pow_add_r by lia. rewrite Z.pow_1_r.
    f_equal. ring.
  - assert (H2 : 0 <= shr_m (iter_pos shr_1 p mrs)).
    { rewrite IH by exact H. apply Z.div_pos; [lia |].
      apply Z.pow_pos_nonneg; lia. }
    rewrite IH by exact H2. rewrite IH by exact H.
    rewrite !Z.div_div by lia.
    replace (Zpos p~0) with (Zpos p + Zpos p) by lia.
    rewrite !Z.pow_add_r by lia. reflexivity.
  - rewrite shr_1_m by exact H. reflexivity.
Qed.

Lemma shr_record_of_loc_m (m : Z) (l : location) :
  shr_m (shr_record_of_loc m l) = m.
Proof. destruct l as [| []]; reflexivity. Qed.

Lemma shr_fexp_positive (m e : Z) (l : location) :
  0 < m -> emin <= e ->
  0 < shr_m (fst (shr_fexp prec emax m e l))
  /\ emin <= snd (shr_fexp prec emax m e l).
Proof.
  intros Hm He. unfold shr_fexp, shr, fexp. fold emin.
  destruct m as [| p | p]; try lia. cbn [Zdigits2].
  pose proof (digits2_pos_bounds p) as B.
  set (d := Zpos (digits2_pos p)) in *.
  destruct (Z.max (d + e - prec) emin - e) as [| n | n] eqn:En;
    cbn [fst snd]; rewrite ?shr_record_of_loc_m; try (split; lia).
  assert (Hn : Zpos n = d - prec) by lia.
  split; [| lia].
  rewrite iter_pos_shr_1 by (rewrite shr_record_of_loc_m; lia).
  rewrite shr_record_of_loc_m.
  assert (Hd : 0 < d) by (subst d; lia).
  assert (Hp : 0 < prec) by format_lia.
  assert (Hpow : 2 ^ (d - 1) = 2 ^ (d - 1 - Zpos n) * 2 ^ Zpos n).
  { rewrite <- Z.pow_add_r by lia. f_equal. lia. }
  assert (P1 : 0 < 2 ^ Zpos n) by (apply Z.pow_pos_nonneg; lia).
  assert (P2 : 0 < 2 ^ (d - 1 - Zpos n)) by (apply Z.pow_pos_nonneg; lia).
  apply Z.div_str_pos. split; [exact P1 |]. nia.
Qed.

Lemma round_nearest_even_ge (m : Z) (l : location) :
  m <= round_nearest_even m l.
Proof.
  destruct l as [| []]; cbn [round_nearest_even]; try lia.
  destruct (Z.even m); lia.
Qed.

(** The number that [binary_round_aux] makes of a positive integer at an
    exponent not below [emin] is positive. *)
Lemma binary_round_aux_positive (m e : Z) (l : location) :
  0 < m -> emin <= e ->
  SFltb (S754_zero false) (binary_round_aux prec emax false m e l) = true.
Proof.
  intros Hm He. unfold binary_round_aux.
  destruct (shr_fexp_positive m e l Hm He) as [H1 H2].
  destruct (shr_fexp prec emax m e l) as [mrs1 e1]. cbn [fst snd] in *.
  pose proof (round_nearest_even_ge (shr_m mrs1) (loc_of_shr_record mrs1))
    as Hr.
  destruct (shr_fexp_positive
              (round_nearest_even (shr_m mrs1) (loc_of_shr_record mrs1))
              e1 loc_Exact ltac:(lia) H2) as [H3 _].
  destruct (shr_fexp prec emax _ e1 loc_Exact) as [mrs2 e2].
  cbn [fst] in H3.
  destruct (shr_m mrs2) as [| q | q]; try lia.
  destruct (e2 <=? emax - prec); reflexivity.
Qed.

Lemma binary_round_aux_negative (m e : Z) (l : location) :
  SFltb (S754_zero false) (binary_round_aux prec emax true m e l) = false.
Proof.
  unfold binary_round_aux.
  destruct (shr_fexp prec emax m e l) as [mrs1 e1].
  destruct (shr_fexp prec emax _ e1 loc_Exact) as [mrs2 e2].
  destruct (shr_m mrs2); try reflexivity.
  destruct (e2 <=? emax - prec); reflexivity.
Qed.

Lemma iter_xO (d : positive) (m : positive) :
  Zpos (Pos.iter xO m d) = Zpos m * 2 ^ Zpos d.
Proof.
  induction d as [| d IH] using Pos.peano_ind.
  - simpl. lia.
  - rewrite Pos.iter_succ, Pos2Z.inj_xO, IH, Pos2Z.inj_succ.
    rewrite Z.pow_succ_r by lia. lia.
Qed.

Lemma shl_align_fst (m : positive) (e ez : Z) :
  ez <= e -> Zpos (fst (shl_align m e ez)) = Zpos m * 2 ^ (e - ez).
Proof.
  intros H. unfold shl_align.
  destruct (ez - e) as [| d | d] eqn:E; cbn [fst]; try lia.
  - replace (e - ez) with 0 by lia. simpl. lia.
  - rewrite iter_xO. f_equal. f_equal. lia.
Qed.

Lemma binary_round_positive (m : positive) (e : Z) :
  emin <= e ->
  SFltb (S754_zero false) (binary_round prec emax false m e) = true.
Proof.
  intros He. unfold binary_round.
  destruct (shl_align m e _) as [mz ez] eqn:E.
  apply binary_round_aux_positive; [lia |].
  unfold shl_align in E. fold emin in E.
  destruct (fexp prec emax (Zpos (digits2_pos m) + e) - e) eqn:E2;
    injection E as <- <-; try lia.
  unfold fexp. fold emin. lia.
Qed.

Lemma binary_round_negative (m : positive) (e : Z) :
  SFltb (S754_zero false) (binary_round prec emax true m e) = false.
Proof.
  unfold binary_round. destruct (shl_align m e _) as [mz ez].
  apply binary_round_aux_negative.
Qed.

(** The sign of a difference is the order of its operands. *)
Lemma SFsub_positive (x y : spec_float) :
  valid_binary x = true -> valid_binary y = true ->
  isNaN x = false -> isNaN y = false ->
  SFltb (S754_zero false) (SF64sub y x) = SFltb x y.
Proof.
  intros Vx Vy Nx Ny.
  destruct x as [sx | sx | | sx mx ex]; try discriminate;
    destruct y as [sy | sy | | sy my ey]; try discriminate.
  1-8: destruct sx, sy; reflexivity.
  unfold SFltb at 2. rewrite SFcompare_scaled by assumption.
  unfold SF64sub, SFsub.
  pose proof (valid_finite _ _ _ Vx) as (Ex & _).
  pose proof (valid_finite _ _ _ Vy) as (Ey & _).
  set (ez := Z.min ey ex).
  assert (Hez : ez <= ex /\ ez <= ey /\ emin <= ez) by (subst ez; lia).
  clearbody ez.
  rewrite !shl_align_fst by lia.
  set (X := cond_Zopp sx (Zpos mx * 2 ^ (ex - ez))).
  set (Y := cond_Zopp sy (Zpos my * 2 ^ (ey - ez))).
  assert (Hx : scaled (S754_finite sx mx ex) = X * 2 ^ (ez - emin)).
  { subst X. cbn [scaled].
    replace (ex - emin) with ((ex - ez) + (ez - emin)) by lia.
    rewrite Z.pow_add_r by lia. destruct sx; cbn [cond_Zopp]; ring. }
  assert (Hy : scaled (S754_finite sy my ey) = Y * 2 ^ (ez - emin)).
  { subst Y. cbn [scaled].
    replace (ey - emin) with ((ey - ez) + (ez - emin)) by lia.
    rewrite Z.pow_add_r by lia. destruct sy; cbn [cond_Zopp]; ring. }
  rewrite Hx, Hy. clearbody X Y.
  assert (P : 0 < 2 ^ (ez - emin)) by (apply Z.pow_pos_nonneg; lia).
  unfold binary_normalize.
  destruct (Y - X) as [| d | d] eqn:Ed.
  - assert (E : X = Y) by lia. rewrite E, Z.compare_refl. reflexivity.
  - rewrite binary_round_positive by lia.
    replace (X * 2 ^ (ez - emin) ?= Y * 2 ^ (ez - emin)) with Lt;
      [reflexivity |].
    symmetry. apply Z.compare_lt_iff. nia.
  - rewrite binary_round_negative.
    destruct (Z.compare_spec (X * 2 ^ (ez - emin)) (Y * 2 ^ (ez - emin)));
      try reflexivity. nia.
Qed.


(** ** The numbers of JavaScript *)

Lemma SFcompare_refl (s : spec_float) :
  isNaN s = false -> SFcompare s s = Some Eq.
Proof.
  destruct s as [s | s | | s m e]; try discriminate; intros _;
    cbn [SFcompare].
  - reflexivity.
  - destruct s; reflexivity.
  - rewrite Z.compare_refl.
    change (Pos.compare_cont Eq m m) with (m ?= m)%positive.
    rewrite Pos.compare_refl. destruct s; reflexivity.
Qed.

Lemma is_nan_spec (x : float) : is_nan x = isNaN (Prim2SF x).
Proof.
  unfold is_nan. rewrite eqb_spec. unfold SFeqb.
  destruct (isNaN (Prim2SF x)) eqn:E.
  - destruct (Prim2SF x); try discriminate. reflexivity.
  - rewrite SFcompare_refl by exact E. reflexivity.
Qed.

Lemma ltb_scaled (x y : float) :
  is_nan x = false -> is_nan y = false ->
  (x <? y)%float = (fval x <? fval y).
Proof.
  intros Nx Ny. rewrite is_nan_spec in Nx, Ny.
  rewrite ltb_spec. unfold SFltb, fval.
  rewrite SFcompare_scaled by (auto using Prim2SF_valid).
  unfold Z.ltb. destruct (_ ?= _); reflexivity.
Qed.

Lemma leb_scaled (x y : float) :
  is_nan x = false -> is_nan y = false ->
  (x <=? y)%float = (fval x <=? fval y).
Proof.
  intros Nx Ny. rewrite is_nan_spec in Nx, Ny.
  rewrite leb_spec. unfold SFleb, fval.
  rewrite SFcompare_scaled by (auto using Prim2SF_valid).
  unfold Z.leb. destruct (_ ?= _); reflexivity.
Qed.

Lemma SFcompare_nan (x y : spec_float) :
  isNaN x = true \/ isNaN y = true -> SFcompare x y = None.
Proof.
  intros [H | H]; destruct x, y; try discriminate; reflexivity.
Qed.

(** A comparison that holds has numbers on both sides. *)
Lemma ltb_numbers (x y : float) :
  (x <? y)%float = true -> is_nan x = false /\ is_nan y = false.
Proof.
  rewrite ltb_spec, !is_nan_spec. unfold SFltb. intros H.
  destruct (isNaN (Prim2SF x)) eqn:Ex;
    [rewrite SFcompare_nan in H by auto; discriminate |].
  destruct (isNaN (Prim2SF y)) eqn:Ey;
    [rewrite SFcompare_nan in H by auto; discriminate |].
  auto.
Qed.

Lemma leb_numbers (x y : float) :
  (x <=? y)%float = true -> is_nan x = false /\ is_nan y = false.
Proof.
  rewrite leb_spec, !is_nan_spec. unfold SFleb. intros H.
  destruct (isNaN (Prim2SF x)) eqn:Ex;
    [rewrite SFcompare_nan in H by auto; discriminate |].
  destruct (isNaN (Prim2SF y)) eqn:Ey;
    [rewrite SFcompare_nan in H by auto; discriminate |].
  auto.
Qed.

Lemma sub_numbers (x y : float) :
  is_nan (y - x)%float = false -> is_nan x = false /\ is_nan y = false.
Proof.
  rewrite !is_nan_spec, sub_spec. unfold SF64sub, SFsub.
  destruct (Prim2SF y), (Prim2SF x); cbn [isNaN]; auto; discriminate.
Qed.

(** [b - a] is positive exactly when [a] is below [b]: the comparator of
    the sorts orders the numbers as [<] does. *)
Lemma sub_positive (x y : float) :
  is_nan x = false -> is_nan y = false ->
  (0 <? y - x)%float = (x <? y)%float.
Proof.
  intros Nx Ny. rewrite is_nan_spec in Nx, Ny.
  rewrite !ltb_spec, sub_spec.
  change (Prim2SF 0) with (S754_zero false).
  apply SFsub_positive; auto using Prim2SF_valid.
Qed.

Lemma mathMin_at_most_one (x : float) : (1 <? mathMin x 1)%float = false.
Proof.
  unfold mathMin. destruct (is_nan x) eqn:Nx; [reflexivity |].
  cbn [orb]. change (is_nan 1) with false. cbn [orb].
  destruct (x <? 1)%float eqn:E1.
  - rewrite ltb_scaled in * by (auto; reflexivity).
    apply Z.ltb_lt in E1. apply Z.ltb_ge. lia.
  - destruct (1 <? x)%float eqn:E2; [reflexivity |].
    destruct (get_sign x); [exact E2 | reflexivity].
Qed.

(** ** The comparators on numbers *)

Lemma comparator_total (x y : float) :
  negb (0 <? y - x)%float = false -> negb (0 <? x - y)%float = true.
Proof.
  intros H. apply negb_false_iff in H.
  destruct (ltb_numbers _ _ H) as [_ Nd].
  destruct (sub_numbers _ _ Nd) as [Nx Ny].
  rewrite sub_positive in * by assumption.
  rewrite ltb_scaled in * by assumption.
  apply Z.ltb_lt in H. apply negb_true_iff, Z.ltb_ge. lia.
Qed.

Lemma comparator_leb (x y : float) :
  is_nan x = false -> is_nan y = false ->
  negb (0 <? y - x)%float = (y <=? x)%float.
Proof.
  intros Nx Ny. rewrite sub_positive by assumption.
  rewrite ltb_scaled, leb_scaled by assumption.
  apply eq_sym, Z.leb_antisym.
Qed.

Lemma leb_trans (x y z : float) :
  (x <=? y)%float = true -> (y <=? z)%float = true ->
  (x <=? z)%float = true.
Proof.
  intros H1 H2.
  destruct (leb_numbers _ _ H1) as [Nx Ny].
  destruct (leb_numbers _ _ H2) as [_ Nz].
  rewrite leb_scaled in * by assumption.
  apply Z.leb_le in H1, H2. apply Z.leb_le. lia.
Qed.

(** ** Sorting numbers *)

Section SortNumbers.
Variable A : Type.
Variable before : A -> A -> bool.
Variable number : A -> Prop.
Hypothesis before_total :
  forall x y, before x y = false -> before y x = true.
Hypothesis before_trans :
  forall x y z, number x -> number y -> number z ->
                before x y = true -> before y z = true -> before x z = true.

Lemma insertSorted_sorted_numbers (x : A) (l : list A) :
  number x -> Forall number l ->
  StronglySorted (fun a b => before a b = true) l ->
  StronglySorted (fun a b => before a b = true) (insertSorted before x l).
Proof.
  intros Nx Nl Hs. induction Hs as [| y l Hs IH Hy]; simpl.
  - repeat constructor.
  - inversion Nl as [| y' l' Ny Nl']; subst.
    destruct (before x y) eqn:E.
    + constructor; [now constructor |].
      constructor; [exact E |].
      rewrite Forall_forall in *. intros z Hz.
      apply (before_trans x y z); auto.
    + constructor; [exact (IH Nl') |].
      rewrite Forall_forall in *. intros z Hz.
      apply (Permutation_in _ (insertSorted_perm before x l)) in Hz.
      destruct Hz as [<- | Hz]; auto.
Qed.

Lemma jsSort_sorted_numbers (l : list A) :
  Forall number l ->
  StronglySorted (fun a b => before a b = true) (jsSort before l).
Proof.
  induction 1 as [| x l Nx Nl IH]; simpl.
  - constructor.
  - apply insertSorted_sorted_numbers; auto.
    rewrite Forall_forall in *. intros y Hy.
    apply Nl. now apply (jsSort_In before l y).
Qed.
End SortNumbers.

Lemma StronglySorted_on (A : Type) (P : A -> Prop)
  (before after : A -> A -> Prop) (l : list A) :
  (forall x y, P x -> P y -> before x y -> after x y) ->
  Forall P l -> StronglySorted before l -> StronglySorted after l.
Proof.
  intros Himp Hp Hs. induction Hs as [| x l Hs IH Hx].
  - constructor.
  - inversion Hp as [| x' l' Px Pl]; subst.
    constructor; [exact (IH Pl) |].
    rewrite Forall_forall in *. intros y Hy. apply Himp; auto.
Qed.

(** A ranking whose scores are numbers is sorted by the comparator of
    [searchItems], and so by descending score. *)
Lemma jsSort_byItemScore_descending_numbers (l : list RankedItem) :
  Forall (fun r => is_nan (score r) = false) l ->
  StronglySorted (fun x y => (score y <=? score x)%float = true)
    (jsSort byItemScore l).
Proof.
  intros Hn.
  apply (StronglySorted_on _ (fun r => is_nan (score r) = false)
           (fun a b => byItemScore a b = true)).
  - intros x y Nx Ny H. unfold byItemScore in H.
    rewrite comparator_leb in H by assumption. exact H.
  - rewrite Forall_forall in *. intros r Hr. apply Hn.
    now apply (jsSort_In byItemScore l r).
  - apply (jsSort_sorted_numbers _ byItemScore
             (fun r => is_nan (score r) = false)).
    + intros x y. apply comparator_total.
    + intros x y z Nx Ny Nz. unfold byItemScore.
      rewrite !comparator_leb by assumption.
      intros H1 H2. exact (leb_trans _ _ _ H2 H1).
    + exact Hn.
Qed.

Lemma jsSort_byScore_descending_numbers (l : list TextChunk) :
  Forall (fun c => is_nan (chunkScore c) = false) l ->
  StronglySorted (fun x y => (chunkScore y <=? chunkScore x)%float = true)
    (jsSort byScore l).
Proof.
  intros Hn.
  apply (StronglySorted_on _ (fun c => is_nan (chunkScore c) = false)
           (fun a b => byScore a b = true)).
  - intros x y Nx Ny H. unfold byScore in H.
    rewrite comparator_leb in H by assumption. exact H.
  - rewrite Forall_forall in *. intros r Hr. apply Hn.
    now apply (jsSort_In byScore l r).
  - apply (jsSort_sorted_numbers _ byScore
             (fun c => is_nan (chunkScore c) = false)).
    + intros x y. apply comparator_total.
    + intros x y z Nx Ny Nz. unfold byScore.
      rewrite !comparator_leb by assumption.
      intros H1 H2. exact (leb_trans _ _ _ H2 H1).
    + exact Hn.
Qed.


(** ** Sums and quotients of numbers that are not negative *)

Lemma SFltb_zero_notNegative (x : spec_float) :
  SFltb (S754_zero false) x = true -> notNegative x = true.
Proof.
  destruct x as [s | s | | s m e]; try destruct s; try discriminate;
    reflexivity.
Qed.

Lemma SFadd_notNegative (x y : spec_float) :
  valid_binary x = true -> valid_binary y = true ->
  notNegative x = true -> notNegative y = true ->
  notNegative (SF64add x y) = true.
Proof.
  intros Vx Vy Hx Hy.
  destruct x as [sx | sx | | sx mx ex]; try discriminate;
    destruct y as [sy | sy | | sy my ey]; try discriminate;
    destruct sx; try discriminate; destruct sy; try discriminate;
    try reflexivity.
  pose proof (valid_finite _ _ _ Vx) as (Ex & _).
  pose proof (valid_finite _ _ _ Vy) as (Ey & _).
  unfold SF64add, SFadd. cbn [cond_Zopp Z.add binary_normalize].
  apply SFltb_zero_notNegative, binary_round_positive. lia.
Qed.

Lemma shr_fexp_notNegative (m e : Z) (l : location) :
  0 <= m -> 0 <= shr_m (fst (shr_fexp prec emax m e l)).
Proof.
  intros Hm. unfold shr_fexp, shr.
  destruct (fexp prec emax (Zdigits2 m + e) - e) as [| n | n];
    cbn [fst]; rewrite ?shr_record_of_loc_m; try lia.
  rewrite iter_pos_shr_1 by (rewrite shr_record_of_loc_m; lia).
  rewrite shr_record_of_loc_m.
  apply Z.div_pos; [lia | apply Z.pow_pos_nonneg; lia].
Qed.

Lemma binary_round_aux_notNegative (m e : Z) (l : location) :
  0 <= m -> notNegative (binary_round_aux prec emax false m e l) = true.
Proof.
  intros Hm. unfold binary_round_aux.
  pose proof (shr_fexp_notNegative m e l Hm) as H1.
  destruct (shr_fexp prec emax m e l) as [mrs1 e1]. cbn [fst] in H1.
  pose proof (round_nearest_even_ge (shr_m mrs1) (loc_of_shr_record mrs1))
    as Hr.
  pose proof (shr_fexp_notNegative
                (round_nearest_even (shr_m mrs1) (loc_of_shr_record mrs1))
                e1 loc_Exact ltac:(lia)) as H2.
  destruct (shr_fexp prec emax _ e1 loc_Exact) as [mrs2 e2].
  cbn [fst] in H2.
  destruct (shr_m mrs2); try lia; [reflexivity |].
  destruct (e2 <=? emax - prec); reflexivity.
Qed.

Lemma SFdiv_notNegative (x : spec_float) (m : positive) (e : Z) :
  notNegative x = true ->
  notNegative (SF64div x (S754_finite false m e)) = true.
Proof.
  intros Hx.
  destruct x as [sx | sx | | sx mx ex]; try discriminate;
    destruct sx; try discriminate; try reflexivity.
  unfold SF64div, SFdiv, SFdiv_core_binary. cbn [xorb].
  set (s := ex - e - _).
  assert (Hm : 0 <= match s with
                    | 0 => Zpos mx
                    | Zpos _ => Z.shiftl (Zpos mx) s
                    | Zneg _ => 0
                    end).
  { destruct s as [| p | p] eqn:Es; try lia.
    rewrite Z.shiftl_mul_pow2 by lia.
    apply Z.mul_nonneg_nonneg; [lia |]. apply Z.pow_nonneg. lia. }
  clearbody s.
  set (m' := match s with 0 => _ | Zpos _ => _ | Zneg _ => _ end) in *.
  clearbody m'.
  pose proof (Z.div_pos m' (Zpos m) Hm ltac:(lia)) as Hq.
  unfold Z.div in Hq.
  destruct (Z.div_eucl m' (Zpos m)) as [q r].
  apply binary_round_aux_notNegative. exact Hq.
Qed.

(** *** A length as a number *)

Lemma digits2_pos_le (p : positive) (k : Z) :
  Zpos p < 2 ^ k -> 0 <= k -> Zpos (digits2_pos p) <= k.
Proof.
  intros H Hk. pose proof (digits2_pos_bounds p) as B.
  destruct (Z.le_gt_cases (Zpos (digits2_pos p)) k) as [L | L]; [exact L |].
  assert (2 ^ k <= 2 ^ (Zpos (digits2_pos p) - 1))
    by (apply Z.pow_le_mono_r; lia).
  lia.
Qed.

Lemma shr_fexp_bounds (m e : Z) (l : location) (k b : Z) :
  0 < m < 2 ^ k -> 0 <= k -> e <= b -> k + e - prec <= b -> emin <= b ->
  shr_m (fst (shr_fexp prec emax m e l)) < 2 ^ k
  /\ snd (shr_fexp prec emax m e l) <= b.
Proof.
  intros Hm Hk He Hb Hmin. unfold shr_fexp, shr, fexp. fold emin.
  destruct m as [| p | p]; try lia. cbn [Zdigits2].
  pose proof (digits2_pos_le p k ltac:(lia) Hk) as D.
  set (d := Zpos (digits2_pos p)) in *.
  destruct (Z.max (d + e - prec) emin - e) as [| n | n] eqn:En;
    cbn [fst snd]; rewrite ?shr_record_of_loc_m; try (split; lia).
  split; [| lia].
  rewrite iter_pos_shr_1 by (rewrite shr_record_of_loc_m; lia).
  rewrite shr_record_of_loc_m.
  assert (P : 0 < 2 ^ Zpos n) by (apply Z.pow_pos_nonneg; lia).
  eapply Z.le_lt_trans; [| apply Hm].
  apply Z.div_le_upper_bound; [exact P |]. nia.
Qed.

Lemma round_nearest_even_le (m : Z) (l : location) :
  round_nearest_even m l <= m + 1.
Proof.
  destruct l as [| []]; cbn [round_nearest_even]; try lia.
  destruct (Z.even m); lia.
Qed.

Lemma binary_round_aux_finite (m e : Z) (l : location) :
  0 < m < 2 ^ 63 -> emin <= e <= 0 ->
  exists m' e',
    binary_round_aux prec emax false m e l = S754_finite false m' e'.
Proof.
  intros Hm He. unfold binary_round_aux.
  destruct (shr_fexp_positive m e l ltac:(lia) ltac:(lia)) as [P1 Q1].
  destruct (shr_fexp_bounds m e l 63 10 Hm ltac:(lia) ltac:(lia)
              ltac:(format_lia) ltac:(format_lia)) as [B1 C1].
  destruct (shr_fexp prec emax m e l) as [mrs1 e1]. cbn [fst snd] in *.
  pose proof (round_nearest_even_ge (shr_m mrs1) (loc_of_shr_record mrs1))
    as Hr1.
  pose proof (round_nearest_even_le (shr_m mrs1) (loc_of_shr_record mrs1))
    as Hr2.
  set (r := round_nearest_even (shr_m mrs1) (loc_of_shr_record mrs1)) in *.
  assert (Hr : 0 < r < 2 ^ 64).
  { change (2 ^ 64) with (2 * 2 ^ 63). lia. }
  destruct (shr_fexp_positive r e1 loc_Exact ltac:(lia) Q1) as [P2 _].
  destruct (shr_fexp_bounds r e1 loc_Exact 64 21 Hr ltac:(lia) ltac:(lia)
              ltac:(format_lia) ltac:(format_lia)) as [_ C2].
  destruct (shr_fexp prec emax r e1 loc_Exact) as [mrs2 e2].
  cbn [fst snd] in *.
  destruct (shr_m mrs2) as [| q | q]; try lia.
  replace (e2 <=? emax - prec) with true
    by (symmetry; apply Z.leb_le; format_lia).
  eauto.
Qed.

Lemma binary_round_finite (p : positive) :
  Zpos p < 2 ^ 63 ->
  exists m' e', binary_round prec emax false p 0 = S754_finite false m' e'.
Proof.
  intros Hp. unfold binary_round, shl_align, fexp. fold emin.
  pose proof (digits2_pos_le p 63 Hp ltac:(lia)) as D.
  pose proof (digits2_pos_bounds p) as B.
  set (d := Zpos (digits2_pos p)) in *.
  assert (Hd : 0 < d) by (subst d; lia).
  clearbody d.
  destruct (Z.max (d + 0 - prec) emin - 0) as [| n | n] eqn:En;
    cbv iota beta.
  - apply binary_round_aux_finite; format_lia.
  - apply binary_round_aux_finite; format_lia.
  - pose proof (Pos2Z.opp_neg n) as On.
    apply binary_round_aux_finite; [| format_lia].
    change (Zpos (shift_pos n p)) with (Zpos (Pos.iter xO p n)).
    rewrite iter_xO.
    assert (Hn : Zpos n = prec - d) by format_lia.
    assert (P : 0 < 2 ^ Zpos n) by (apply Z.pow_pos_nonneg; lia).
    split; [nia |].
    assert (H1 : 2 ^ d * 2 ^ Zpos n = 2 ^ prec).
    { rewrite <- Z.pow_add_r by lia. f_equal. lia. }
    assert (H2 : 2 ^ prec < 2 ^ 63) by (apply Z.pow_lt_mono_r; format_lia).
    nia.
Qed.

Lemma ofNat_finite (n : nat) :
  (0 < n)%nat -> Z.of_nat n < 2 ^ 63 ->
  exists m e, Prim2SF (ofNat n) = S754_finite false m e.
Proof.
  intros Hn Hb. unfold ofNat.
  rewrite of_uint63_spec, Uint63.of_Z_spec.
  rewrite Z.mod_small by (change Uint63.wB with (2 ^ 63); lia).
  destruct (Z.of_nat n) as [| p | p] eqn:E; try lia.
  cbn [binary_normalize]. apply binary_round_finite. exact Hb.
Qed.

(** ** The operations on numbers that are not negative *)

Lemma notNegative_number (x : float) :
  notNegative (Prim2SF x) = true -> is_nan x = false.
Proof.
  rewrite is_nan_spec. destruct (Prim2SF x); try discriminate; reflexivity.
Qed.

Lemma notNegative_leb (x : float) :
  notNegative (Prim2SF x) = true -> (0 <=? x)%float = true.
Proof.
  rewrite leb_spec. change (Prim2SF 0) with (S754_zero false).
  destruct (Prim2SF x) as [s | s | | s m e]; try discriminate;
    destruct s; try discriminate; reflexivity.
Qed.

Lemma add_notNegative (x y : float) :
  notNegative (Prim2SF x) = true -> notNegative (Prim2SF y) = true ->
  notNegative (Prim2SF (x + y)) = true.
Proof.
  intros Hx Hy. rewrite FloatAxioms.add_spec.
  apply SFadd_notNegative; auto using Prim2SF_valid.
Qed.

Lemma div_ofNat_notNegative (x : float) (n : nat) :
  (0 < n)%nat -> Z.of_nat n < 2 ^ 63 ->
  notNegative (Prim2SF x) = true ->
  notNegative (Prim2SF (x / ofNat n)) = true.
Proof.
  intros Hn Hb Hx. rewrite FloatAxioms.div_spec.
  destruct (ofNat_finite n Hn Hb) as (m & e & ->).
  apply SFdiv_notNegative. exact Hx.
Qed.

Lemma mathMin_one_notNegative (x : float) :
  notNegative (Prim2SF x) = true ->
  notNegative (Prim2SF (mathMin x 1)) = true.
Proof.
  intros H. unfold mathMin. rewrite (notNegative_number x H).
  change (is_nan 1) with false. cbn [orb].
  destruct (x <? 1)%float; [exact H |].
  destruct (1 <? x)%float; [reflexivity |].
  destruct (get_sign x); [exact H | reflexivity].
Qed.

Lemma at_most_one_leb (x : float) :
  is_nan x = false -> (1 <? x)%float = false -> (x <=? 1)%float = true.
Proof.
  intros N H. rewrite ltb_scaled in H by (auto; reflexivity).
  rewrite leb_scaled by (auto; reflexivity).
  apply Z.ltb_ge in H. apply Z.leb_le. exact H.
Qed.

(** ** [cosineSimilarity] *)

Local Open Scope float_scope.

Lemma SFmul_commutes (x y : spec_float) : SF64mul x y = SF64mul y x.
Proof.
  unfold SF64mul, SFmul.
  destruct x as [sx | sx | | sx mx ex], y as [sy | sy | | sy my ey];
    try reflexivity; try (now rewrite xorb_comm).
  now rewrite xorb_comm, Pos.mul_comm, Z.add_comm.
Qed.

Lemma mul_commutes (x y : float) : x * y = y * x.
Proof. apply Prim2SF_inj. rewrite !mul_spec. apply SFmul_commutes. Qed.

(** The loop over the indices computes the three sums. *)
Lemma loop_from (a b pa pb : list float) (acc : CosineSums) :
  length a = length b -> length pa = length pb ->
  fold_left
    (fun acc i =>
       let ai := nth i (pa ++ a) 0 in
       let bi := nth i (pb ++ b) 0 in
       mkSums (dotProduct acc + ai * bi)
              (normA acc + ai * ai)
              (normB acc + bi * bi))
    (seq (length pa) (length a)) acc
  = mkSums
      (fold_left (fun acc p => acc + fst p * snd p) (combine a b)
         (dotProduct acc))
      (fold_left (fun acc x => acc + x * x) a (normA acc))
      (fold_left (fun acc x => acc + x * x) b (normB acc)).
Proof.
  revert b pa pb acc.
  induction a as [| x a IH]; intros [| y b] pa pb acc Hab Hp;
    try discriminate.
  - destruct acc; reflexivity.
  - simpl seq. simpl fold_left.
    rewrite !app_nth2 by lia.
    replace (length pa - length pb)%nat with 0%nat by lia.
    rewrite Nat.sub_diag. simpl nth.
    replace (pa ++ x :: a) with ((pa ++ [x]) ++ a)
      by (now rewrite <- app_assoc).
    replace (pb ++ y :: b) with ((pb ++ [y]) ++ b)
      by (now rewrite <- app_assoc).
    replace (S (length pa)) with (length (pa ++ [x]))
      by (rewrite length_app; simpl; lia).
    rewrite IH.
    + reflexivity.
    + simpl in Hab. lia.
    + rewrite !length_app. simpl. lia.
Qed.

Lemma loop_sums (a b : list float) :
  length a = length b ->
  cosineLoop a b = mkSums (dot a b) (sumSquares a) (sumSquares b).
Proof.
  intros H. unfold cosineLoop.
  exact (loop_from a b [] [] (mkSums 0 0 0) H eq_refl).
Qed.

Lemma dot_from_commutes (a b : list float) :
  forall acc,
    fold_left (fun acc p => acc + fst p * snd p) (combine a b) acc
    = fold_left (fun acc p => acc + fst p * snd p) (combine b a) acc.
Proof.
  revert b. induction a as [| x a IH]; intros [| y b] acc; try reflexivity.
  simpl. rewrite (mul_commutes x y). apply IH.
Qed.

Lemma dot_commutes (a b : list float) : dot a b = dot b a.
Proof. apply dot_from_commutes. Qed.

Lemma cosine_degenerate (a b : list float) :
  a = [] \/ b = [] \/ length a <> length b -> cosineSimilarity a b = 0.
Proof.
  intros H. unfold cosineSimilarity.
  destruct a as [| x a]; [reflexivity |].
  destruct b as [| y b]; [reflexivity |].
  destruct H as [H | [H | H]]; try discriminate.
  cbn [length Nat.eqb orb].
  destruct (Nat.eqb_spec (length a) (length b)) as [E | E];
    [simpl in H; congruence | reflexivity].
Qed.

Lemma cosine_regular (a b : list float) :
  a <> [] -> length a = length b ->
  cosineSimilarity a b
  = let denominator := sqrt (sumSquares a) * sqrt (sumSquares b) in
    if denominator =? 0 then 0 else dot a b / denominator.
Proof.
  intros Ha Hl. unfold cosineSimilarity.
  rewrite loop_sums by exact Hl. cbn [dotProduct normA normB].
  destruct a as [| x a]; [congruence |].
  destruct b as [| y b]; [discriminate |].
  cbn [length Nat.eqb orb]. simpl in Hl.
  replace (length a =? length b)%nat with true
    by (symmetry; apply Nat.eqb_eq; lia).
  reflexivity.
Qed.

Lemma cosine_commutes (a b : list float) :
  cosineSimilarity a b = cosineSimilarity b a.
Proof.
  destruct (list_eq_dec Nat.eq_dec [length a] [length b]) as [E | E].
  - injection E as E.
    destruct a as [| x a].
    + destruct b; [reflexivity | discriminate].
    + rewrite !cosine_regular
        by (auto; try discriminate; destruct b; discriminate).
      cbv zeta. rewrite dot_commutes.
      rewrite (mul_commutes (sqrt (sumSquares (x :: a)))). reflexivity.
  - rewrite !cosine_degenerate; [reflexivity | |];
      right; right; congruence.
Qed.

(** C9 (amended).  [cosineSimilarity] is 0 when a vector is empty or the
    lengths differ, and 0 when the denominator that it computes, the
    product of the square roots of the two sums of squares, is zero;
    otherwise it is the dot product divided by that denominator, every
    sum, product, root and quotient being the binary64 one, accumulated
    from the left.  It is symmetric in its two vectors. *)
Theorem cosineSimilarity_binary64 (a b : list float) :
  (a = [] \/ b = [] \/ length a <> length b -> cosineSimilarity a b = 0)
  /\ (a <> [] -> length a = length b ->
      cosineSimilarity a b
      = let denominator := sqrt (sumSquares a) * sqrt (sumSquares b) in
        if denominator =? 0 then 0 else dot a b / denominator)
  /\ cosineSimilarity a b = cosineSimilarity b a.
Proof.
  split; [apply cosine_degenerate |].
  split; [apply cosine_regular | apply cosine_commutes].
Qed.

Lemma cosineSimilarity_binary64_witness :
  cosineSimilarity [3; 4] [1] = 0
  /\ cosineSimilarity [3; 4] [4; 3] = 0.96
  /\ cosineSimilarity [4; 3] [3; 4] = 0.96.
Proof.
  destruct (cosineSimilarity_binary64 [3; 4] [1]) as (Hdegenerate & _).
  destruct (cosineSimilarity_binary64 [3; 4] [4; 3])
    as (_ & Hregular & Hcommutes).
  assert (H : cosineSimilarity [3; 4] [4; 3] = 0.96).
  { rewrite Hregular by (discriminate || reflexivity).
    vm_compute. reflexivity. }
  split; [apply Hdegenerate; right; right; discriminate |].
  split; [exact H | rewrite <- Hcommutes; exact H].
Defined.

(** C9 (as stated) fails: rounding takes the similarity of a vector with
    itself above 1 and that of opposite vectors below -1; the squares of
    small components underflow, and a vector that is not zero gets the
    similarity 0; the squares of large components overflow, and the
    similarity is [NaN], also against a vector whose norm is zero. *)
Lemma cosineSimilarity_leaves_the_interval :
  cosineSimilarity [1; 1; 1] [1; 1; 1] = 1.0000000000000002
  /\ (1 <? cosineSimilarity [1; 1; 1] [1; 1; 1]) = true
  /\ (cosineSimilarity [1; 1; 1] [-1; -1; -1] <? -1) = true
  /\ cosineSimilarity [1e-200] [1e-200] = 0
  /\ is_nan (cosineSimilarity [1e200] [1e200]) = true
  /\ is_nan (cosineSimilarity [0] [1e200]) = true.
Proof. vm_compute. repeat split. Qed.

(** ** [searchItems] and [searchInText]: the order and the bounds *)

Lemma zero_scores_sorted (items : list SearchItem) :
  StronglySorted (fun x y => (score y <=? score x) = true)
    (map (fun it => mkRanked it 0) items).
Proof.
  induction items as [| it items IH]; simpl; constructor; [exact IH |].
  rewrite Forall_forall. intros r Hr. apply in_map_iff in Hr.
  destruct Hr as [it' [<- _]]. reflexivity.
Qed.

Lemma lexicalRank_at_most_one (query : str) (items : list SearchItem) :
  Forall (fun r => (1 <? score r) = false) (lexicalRank query items).
Proof.
  unfold lexicalRank. rewrite Forall_forall. intros r Hr.
  destruct (length (newSet (tokenize query)) =? 0)%nat.
  - apply in_map_iff in Hr. destruct Hr as [it [<- _]]. reflexivity.
  - apply (proj1 (jsSort_In byItemScore _ r)) in Hr. apply in_map_iff in Hr.
    destruct Hr as [it [<- _]]. apply mathMin_at_most_one.
Qed.

Lemma lexicalRank_sorted_numbers (query : str) (items : list SearchItem) :
  Forall (fun r => is_nan (score r) = false) (lexicalRank query items) ->
  StronglySorted (fun x y => (score y <=? score x) = true)
    (lexicalRank query items).
Proof.
  unfold lexicalRank.
  destruct (length (newSet (tokenize query)) =? 0)%nat;
    [intros _; apply zero_scores_sorted |].
  intros Hn. apply jsSort_byItemScore_descending_numbers.
  rewrite Forall_forall in *. intros r Hr. apply Hn.
  now apply (proj2 (jsSort_In byItemScore _ r)).
Qed.

Lemma embeddingRank_sorted_bounded (p : EmbeddingProvider) (query : str)
  (items : list SearchItem) (rs : list RankedItem) :
  embeddingRank p query items = Fulfilled rs ->
  Forall (fun r => (1 <? score r) = false) rs
  /\ (Forall (fun r => is_nan (score r) = false) rs ->
      StronglySorted (fun x y => (score y <=? score x) = true) rs).
Proof.
  unfold embeddingRank. intros H.
  destruct (embedMany p _) as [embeddings | e]; [| discriminate].
  destruct (negb _); [discriminate |].
  destruct (nth_error embeddings 0) as [q |]; [| discriminate].
  destruct (length q =? 0)%nat; [discriminate |].
  injection H as <-. split.
  - rewrite Forall_forall. intros r Hr.
    apply (proj1 (jsSort_In byItemScore _ r)) in Hr.
    destruct (In_mapFrom _ _ _ _ _ _ Hr) as [it [k [_ ->]]].
    apply mathMin_at_most_one.
  - intros Hn. apply jsSort_byItemScore_descending_numbers.
    rewrite Forall_forall in *. intros r Hr. apply Hn.
    now apply (proj2 (jsSort_In byItemScore _ r)).
Qed.

(** *** The lexical ranking: scores between 0 and 1 *)

Lemma partialMatch_notNegative (qWord : str) (itemWords : list str)
  (c : float) :
  partialMatch qWord itemWords = Some c -> notNegative (Prim2SF c) = true.
Proof.
  induction itemWords as [| w ws IH]; simpl; [discriminate |].
  destruct (_ || _)%bool; [| exact IH].
  intros H. injection H as <-. reflexivity.
Qed.

Lemma wordCredit_notNegative (itemWords : list str)
  (searchText qWord : str) (c : float) :
  wordCredit itemWords searchText qWord = Some c ->
  notNegative (Prim2SF c) = true.
Proof.
  unfold wordCredit.
  destruct (setHas _ _); [intros H; injection H as <-; reflexivity |].
  destruct (includes _ _); [intros H; injection H as <-; reflexivity |].
  apply partialMatch_notNegative.
Qed.

Lemma matchScore_notNegative (credit : str -> option float)
  (words : list str) :
  (forall w c, credit w = Some c -> notNegative (Prim2SF c) = true) ->
  forall m : float,
    notNegative (Prim2SF m) = true ->
    notNegative
      (Prim2SF
         (fold_left
            (fun m w =>
               match credit w with
               | Some c => m + c
               | None => m
               end)
            words m)) = true.
Proof.
  intros Hc. induction words as [| w ws IH]; simpl; intros m Hm;
    [exact Hm |].
  apply IH. destruct (credit w) as [c |] eqn:E; [| exact Hm].
  apply add_notNegative; [exact Hm | exact (Hc _ _ E)].
Qed.

Lemma lexicalScore_unit (queryWords : list str) (it : SearchItem) :
  (0 < length queryWords)%nat ->
  (Z.of_nat (length queryWords) < 2 ^ 63)%Z ->
  (0 <=? lexicalScore queryWords it) = true
  /\ (lexicalScore queryWords it <=? 1) = true.
Proof.
  intros H0 Hb. unfold lexicalScore.
  match goal with
  | |- context [mathMin ?q 1] => set (quotient := q)
  end.
  assert (Hq : notNegative (Prim2SF quotient) = true).
  { subst quotient. apply div_ofNat_notNegative; [exact H0 | exact Hb |].
    set (searchText := toLowerCase (join (lit " ") (itemParts it))).
    apply (matchScore_notNegative
             (wordCredit (newSet (tokenize searchText)) searchText)).
    - intros w c. apply wordCredit_notNegative.
    - reflexivity. }
  clearbody quotient.
  pose proof (mathMin_one_notNegative quotient Hq) as Hm.
  split; [exact (notNegative_leb _ Hm) |].
  apply at_most_one_leb;
    [exact (notNegative_number _ Hm) | apply mathMin_at_most_one].
Qed.

Lemma lexicalRank_unit (query : str) (items : list SearchItem) :
  (Z.of_nat (length (newSet (tokenize query))) < 2 ^ 63)%Z ->
  Forall (fun r => (0 <=? score r) = true /\ (score r <=? 1) = true)
    (lexicalRank query items).
Proof.
  intros Hb. unfold lexicalRank. rewrite Forall_forall. intros r Hr.
  destruct (length (newSet (tokenize query)) =? 0)%nat eqn:E.
  - apply in_map_iff in Hr. destruct Hr as [it [<- _]].
    split; reflexivity.
  - apply (proj1 (jsSort_In byItemScore _ r)) in Hr. apply in_map_iff in Hr.
    destruct Hr as [it [<- _]]. apply Nat.eqb_neq in E.
    apply lexicalScore_unit; [lia | exact Hb].
Qed.

(** C2 (amended).  A ranking of [searchItems] holds no score above 1, and
    when its scores are numbers (none is [NaN]) it is sorted by descending
    score.  When no embedding provider is configured, the ranking is sorted
    by descending score and every score lies between 0 and 1 (the query
    holding fewer than [2 ^ 63] distinct words, more than a JavaScript
    string has room for).
    The chunks of [searchInText] are sorted by descending score, and each
    scores at least [minScore].  The order and the comparisons are those of
    binary64. *)
Theorem search_results_sorted_and_bounded :
  (forall (client : Client) (query : str) (items : list SearchItem)
          (signal : option bool) (rs : list RankedItem),
      searchItems client query items signal = Fulfilled rs ->
      Forall (fun r => (1 <? score r) = false) rs
      /\ (Forall (fun r => is_nan (score r) = false) rs ->
          StronglySorted (fun x y => (score y <=? score x) = true) rs))
  /\ (forall (client : Client) (query : str) (items : list SearchItem)
             (signal : option bool) (rs : list RankedItem),
         embeddingProvider client = None ->
         (Z.of_nat (length (newSet (tokenize query))) < 2 ^ 63)%Z ->
         searchItems client query items signal = Fulfilled rs ->
         StronglySorted (fun x y => (score y <=? score x) = true) rs
         /\ Forall
              (fun r => (0 <=? score r) = true /\ (score r <=? 1) = true)
              rs)
  /\ (forall (client : Client) (query txt : str)
             (opts : SearchInTextOptions) (signal : option bool)
             (cs : list TextChunk),
         searchInText client query txt opts signal = Fulfilled cs ->
         StronglySorted
           (fun x y => (chunkScore y <=? chunkScore x) = true) cs
         /\ Forall (fun c => (minScoreOf opts <=? chunkScore c) = true) cs).
Proof.
  split; [| split].
  - intros client query items signal rs H. unfold searchItems in H.
    destruct (length items =? 0)%nat.
    { injection H as <-. split; [constructor | intros _; constructor]. }
    destruct (aborted signal); [discriminate |].
    assert (Hlex : Fulfilled (lexicalRank query items) = Fulfilled rs ->
                   Forall (fun r => (1 <? score r) = false) rs
                   /\ (Forall (fun r => is_nan (score r) = false) rs ->
                       StronglySorted
                         (fun x y => (score y <=? score x) = true) rs)).
    { intros E. injection E as <-.
      split; [apply lexicalRank_at_most_one
             | apply lexicalRank_sorted_numbers]. }
    destruct (embeddingProvider client) as [p |]; [| exact (Hlex H)].
    destruct (initialized client); [| exact (Hlex H)].
    destruct (embeddingRank p query items) as [scored | err] eqn:E.
    + injection H as <-. exact (embeddingRank_sorted_bounded _ _ _ _ E).
    + destruct (isAbortError err); [discriminate | exact (Hlex H)].
  - intros client query items signal rs Hp Hb H. unfold searchItems in H.
    destruct (length items =? 0)%nat.
    { injection H as <-. split; constructor. }
    destruct (aborted signal); [discriminate |].
    rewrite Hp in H. injection H as <-.
    pose proof (lexicalRank_unit query items Hb) as Hu.
    split; [| exact Hu].
    apply lexicalRank_sorted_numbers.
    eapply Forall_impl; [| exact Hu]. simpl. intros r [H0 _].
    apply (leb_numbers _ _ H0).
  - intros client query txt opts signal cs H. unfold searchInText in H.
    destruct (aborted signal); [discriminate |].
    destruct (length _ =? 0)%nat.
    { injection H as <-. split; constructor. }
    destruct (embeddingProvider client) as [p |]; [| discriminate].
    destruct (initialized client); [| discriminate].
    destruct (embedMany p _) as [embeddings | e]; [| discriminate].
    destruct (negb _); [discriminate |].
    destruct (nth_error embeddings 0) as [q |]; [| discriminate].
    destruct (length q =? 0)%nat; [discriminate |].
    injection H as <-. unfold sliceTo.
    match goal with
    | |- context [filter ?f ?l] => set (kept := filter f l)
    end.
    assert (Hk : Forall (fun c => (minScoreOf opts <=? chunkScore c) = true)
                   kept).
    { subst kept. rewrite Forall_forall. intros c Hc.
      apply filter_In in Hc. apply Hc. }
    clearbody kept. split.
    + apply StronglySorted_firstn.
      apply jsSort_byScore_descending_numbers.
      eapply Forall_impl; [| exact Hk]. simpl. intros c Hc.
      apply (leb_numbers _ _ Hc).
    + rewrite Forall_forall in *. intros c Hc.
      apply In_firstn_inv in Hc.
      apply (proj1 (jsSort_In byScore _ c)) in Hc. auto.
Qed.

Lemma search_results_sorted_and_bounded_witness :
  (Forall (fun r => (1 <? score r) = false)
     [mkRanked dogItem 1; mkRanked catItem 0x1.6a09e667f3bccp-1]
   /\ StronglySorted (fun x y => (score y <=? score x) = true)
        [mkRanked dogItem 1; mkRanked catItem 0x1.6a09e667f3bccp-1])
  /\ (StronglySorted (fun x y => (score y <=? score x) = true)
        [mkRanked catItem 1; mkRanked dogItem 0]
      /\ Forall (fun r => (0 <=? score r) = true /\ (score r <=? 1) = true)
           [mkRanked catItem 1; mkRanked dogItem 0])
  /\ (StronglySorted
        (fun x y => (chunkScore y <=? chunkScore x) = true)
        [mkChunk (lit "Hello world.") 0 12 1.0000000000000002;
         mkChunk (lit "How are you?") 12 25 1.0000000000000002]
      /\ Forall (fun c => (0.3 <=? chunkScore c) = true)
           [mkChunk (lit "Hello world.") 0 12 1.0000000000000002;
            mkChunk (lit "How are you?") 12 25 1.0000000000000002]).
Proof.
  destruct search_results_sorted_and_bounded as (Hitems & Hlex & Htext).
  split; [| split].
  - destruct (Hitems rankingClient (lit "zzz") [catItem; dogItem] None
                [mkRanked dogItem 1; mkRanked catItem 0x1.6a09e667f3bccp-1])
      as [H1 H2].
    + vm_compute. reflexivity.
    + split; [exact H1 |]. apply H2. repeat constructor.
  - apply (Hlex (mkClient None false) (lit "cat") [dogItem; catItem] None).
    + reflexivity.
    + vm_compute. reflexivity.
    + vm_compute. reflexivity.
  - apply (Htext diagonalClient (lit "you")
             (lit "Hello world. How are you?") defaultOptions None).
    vm_compute. reflexivity.
Defined.

(** C2 (as stated) fails: a candidate vector opposite to the one of the
    query, with nothing of the query in the item, gives [searchItems] the
    score -1, and vectors whose squares overflow give it the score [NaN];
    [searchInText] does not clamp its scores, so rounding takes the score of
    a chunk whose vector equals the one of the query above 1. *)
Lemma scores_leave_the_unit_interval :
  searchItems oppositeClient (lit "zzz") [dogItem] None
  = Fulfilled [mkRanked dogItem (-1)]
  /\ (-1 <? 0) = true
  /\ searchItems overflowClient (lit "zzz") [dogItem] None
     = Fulfilled [mkRanked dogItem nan]
  /\ searchInText diagonalClient (lit "you")
       (lit "Hello world. How are you?") defaultOptions None
     = Fulfilled [mkChunk (lit "Hello world.") 0 12 1.0000000000000002;
                  mkChunk (lit "How are you?") 12 25 1.0000000000000002]
  /\ (1 <? 1.0000000000000002) = true.
Proof. vm_compute. repeat split. Qed.

End Binary64Facts.
